(** * Resilient marketplace API client: retry, error taxonomy, signing,
      rate limiting and the client orchestrator

    A shallow embedding of
      - internal/domain/shopee/retry.go      (RetryPolicy, Executor; then the
                                              error codes and APIError; then
                                              Signature)
      - internal/domain/shopee/ratelimit.go  (tokenBucket, RateLimiter)
      - internal/providers/shopee/returns.go (its second part: Client, Do,
                                              doRequest, tryRefreshToken)

    Conventions of the embedding
      - Go [int], [int64] and [time.Duration] are [Z] (durations in
        nanoseconds). Where an argument can drive a 64-bit computation out of
        its range the wrap-around is written out with [wrap64]
        ([ValidateTimestamp], the token life time in [tryRefreshToken]);
        elsewhere the values stay in range on the inputs the theorems
        quantify over. A [time.Time] is its number of nanoseconds since the
        epoch: its range is far wider than that of a [Duration], so sums of an
        instant and a duration are not wrapped.
      - Go [float64]: the finite values are exact rationals [Q], and the
        rounding of the arithmetic operations and underflow are not modelled.
        The backoff computation, whose result is converted back to an
        integer, goes through [xfloat], which adds what that conversion
        depends on: the rounding of [float64(int64)] to 53 bits, overflow to
        the infinities, NaN, and the result of converting a float that does
        not fit [int64].
      - Go [string] and [[]byte] are byte sequences: [string] and [list byte].
      - [error] is a two-constructor sum: a [*APIError], or any other error value,
        kept by its [Error()] text.
      - Stateful code is explicit state passing over a [World]: a logical clock
        ([time.Now]), the stream of [rand.Float64] draws, and the state of the
        component under study. *)

From Stdlib Require Import ZArith QArith Qround Qpower Lqa Lia Bool List String Ascii DecimalString.
From Stdlib.Strings Require Import Byte.
From Stdlib Require DecimalPos DecimalZ.
From stdpp Require Import gmap strings list sorting.

Open Scope Z_scope.

(* ================================================================== *)
(** * Part I. The embedding                                            *)
(* ================================================================== *)

(** ** Durations and float helpers *)

Definition Duration := Z.

Definition Nanosecond : Duration := 1.
Definition Second : Duration := 1000000000.

Definition float64 := Q.

(** [x < y] on floats. *)
Definition Qltb (x y : Q) : bool := negb (Qle_bool y x).

(** Go's conversion [time.Duration(f)] / [int64(f)]: truncation toward zero. *)
Definition Qtrunc (q : Q) : Z := Z.quot (Qnum q) (Zpos (Qden q)).

(** [Duration.Seconds()]. *)
Definition Seconds (d : Duration) : float64 := (inject_Z d / inject_Z Second)%Q.

(** ** 64-bit integers and IEEE 754 doubles *)

Definition MinInt64 : Z := - 2 ^ 63.
Definition MaxInt64 : Z := 2 ^ 63 - 1.

(** The value an [int64] computation keeps of the exact result [z]. *)
Definition wrap64 (z : Z) : Z := (z + 2 ^ 63) mod 2 ^ 64 - 2 ^ 63.

(** The conversion [float64(z)] of an [int64]: exact up to [2^53], and beyond
    it rounded to 53 significant bits, to the nearest, ties to even. *)
Definition float64_of_int (z : Z) : float64 :=
  let a := Z.abs z in
  if a <=? 2 ^ 53 then inject_Z z
  else
    let e := Z.log2 a - 52 in
    let q := a / 2 ^ e in
    let r := a mod 2 ^ e in
    let half := 2 ^ (e - 1) in
    let q := if (half <? r) || ((r =? half) && Z.odd q) then q + 1 else q in
    inject_Z (Z.sgn z * (q * 2 ^ e)).

(** A double: a finite value, an infinity or NaN. *)
Inductive xfloat : Type :=
| Fin (q : Q)
| PosInf
| NegInf
| NaN.

(** A result of this magnitude or more rounds to an infinity: the largest
    finite double is [2^1024 - 2^971]. *)
Definition overflowAt : Q := inject_Z (2 ^ 1024 - 2 ^ 970).

(** The double an exact result becomes. *)
Definition fin (q : Q) : xfloat :=
  if Qle_bool overflowAt q then PosInf
  else if Qle_bool q (- overflowAt) then NegInf
  else Fin q.

(** The infinity of the sign of [q], NaN for zero: [q * Inf]. *)
Definition infOfSign (q : Q) : xfloat :=
  if Qltb 0 q then PosInf else if Qltb q 0 then NegInf else NaN.

Definition xneg (x : xfloat) : xfloat :=
  match x with
  | Fin q => Fin (- q)
  | PosInf => NegInf
  | NegInf => PosInf
  | NaN => NaN
  end.

Definition xmul (x y : xfloat) : xfloat :=
  match x, y with
  | NaN, _ | _, NaN => NaN
  | Fin a, Fin b => fin (a * b)
  | Fin a, PosInf | PosInf, Fin a => infOfSign a
  | Fin a, NegInf | NegInf, Fin a => infOfSign (- a)
  | PosInf, PosInf | NegInf, NegInf => PosInf
  | PosInf, NegInf | NegInf, PosInf => NegInf
  end.

Definition xadd (x y : xfloat) : xfloat :=
  match x, y with
  | NaN, _ | _, NaN => NaN
  | Fin a, Fin b => fin (a + b)
  | PosInf, NegInf | NegInf, PosInf => NaN
  | PosInf, _ | _, PosInf => PosInf
  | NegInf, _ | _, NegInf => NegInf
  end.

(** [x > y]: false as soon as one side is NaN. *)
Definition xgt (x y : xfloat) : bool :=
  match x, y with
  | NaN, _ | _, NaN => false
  | Fin a, Fin b => Qltb b a
  | PosInf, PosInf => false
  | PosInf, _ => true
  | _, PosInf => false
  | NegInf, _ => false
  | Fin _, NegInf => true
  end.

(** [math.Pow(x, y)] for a finite [x] and a [y] that is a whole number and not
    negative: 1 for [y = 0], 0 for [x = 0], the power otherwise. *)
Definition xpow (x y : float64) : xfloat :=
  let n := Qfloor y in
  if n =? 0 then Fin 1
  else if Qeq_bool x 0 then Fin 0
  else fin (Qpower x n).

(** The conversion [int64(f)] / [time.Duration(f)] of a double: truncation
    toward zero when the result fits. When it does not (also for the
    infinities and NaN) the language leaves the result to the implementation;
    the value written here, [MinInt64], is what the amd64 conversion
    instruction gives. *)
Definition int64_of_float (x : xfloat) : Z :=
  match x with
  | Fin q =>
      let t := Qtrunc q in
      if (MinInt64 <=? t) && (t <=? MaxInt64) then t else MinInt64
  | _ => MinInt64
  end.

(** ** retry.go, second part: error codes, APIError, categories *)

Module Errors.

Definition ErrorCode := string.

Definition CodeAuthError        : ErrorCode := "error_auth".
Definition CodeInvalidSign      : ErrorCode := "error_sign".
Definition CodeInvalidTimestamp : ErrorCode := "error_timestamp".
Definition CodePermissionDenied : ErrorCode := "error_permission".
Definition CodeInvalidParam     : ErrorCode := "error_param".
Definition CodeExceedLimit      : ErrorCode := "error_exceed_limit".
Definition CodeServerError      : ErrorCode := "error_server".
Definition CodeNotFound         : ErrorCode := "error_not_found".
Definition CodeProductBanned    : ErrorCode := "error_product_banned".
Definition CodeOrderCancelled   : ErrorCode := "error_order_cancelled".

(** net/http status constants used by the package. *)
Definition StatusBadRequest         : Z := 400.
Definition StatusUnauthorized       : Z := 401.
Definition StatusNotFound           : Z := 404.
Definition StatusTooManyRequests    : Z := 429.
Definition StatusServiceUnavailable : Z := 503.

Record APIError := NewAPIErrorWithRequestID {
  Code       : ErrorCode;
  Message    : string;
  StatusCode : Z;
  RequestID  : string
}.

Definition NewAPIError (code : ErrorCode) (message : string) (statusCode : Z) : APIError :=
  {| Code := code; Message := message; StatusCode := statusCode; RequestID := "" |}.

(** A Go [error] value. *)
Inductive error :=
| ErrAPI (e : APIError)
| ErrPlain (msg : string).

Definition ErrTokenExpired        : error := ErrPlain "access token has expired".
Definition ErrRefreshTokenExpired : error := ErrPlain "refresh token has expired".
Definition ErrRateLimited         : error := ErrPlain "API rate limit exceeded".
Definition ErrInvalidSignature    : error := ErrPlain "invalid request signature".
Definition ErrUnauthorized        : error := ErrPlain "unauthorized access".
Definition ErrResourceNotFound    : error := ErrPlain "resource not found".
Definition ErrInvalidRequest      : error := ErrPlain "invalid request parameters".
Definition ErrServiceUnavailable  : error := ErrPlain "Shopee service temporarily unavailable".

(** [ErrorCode.IsRetryable]. *)
Definition Code_IsRetryable (c : ErrorCode) : bool :=
  if String.eqb c CodeExceedLimit then true
  else if String.eqb c CodeServerError then true
  else false.

(** [ErrorCode.IsTokenError]. *)
Definition Code_IsTokenError (c : ErrorCode) : bool := String.eqb c CodeAuthError.

(** [APIError.Error]. *)
Definition APIError_Error (e : APIError) : string :=
  if negb (String.eqb (RequestID e) "")
  then "shopee [" +:+ Code e +:+ "]: " +:+ Message e +:+ " (request_id: " +:+ RequestID e +:+ ")"
  else "shopee [" +:+ Code e +:+ "]: " +:+ Message e.

(** [err.Error()]. *)
Definition Error (err : error) : string :=
  match err with
  | ErrAPI e => APIError_Error e
  | ErrPlain msg => msg
  end.

(** [APIError.IsRetryable]. *)
Definition IsRetryable (e : APIError) : bool :=
  if Code_IsRetryable (Code e) then true
  else (StatusCode e =? StatusTooManyRequests)
       || (StatusCode e =? StatusServiceUnavailable)
       || (500 <=? StatusCode e).

(** The inner loop of [containsAny]: [i] runs from [i] up to
    [len(s) - len(substr)]; [n] counts the positions left to try. *)
Fixpoint containsAt (s substr : string) (i n : nat) : bool :=
  match n with
  | O => false
  | S n' =>
      if String.eqb (substring i (String.length substr) s) substr then true
      else containsAt s substr (S i) n'
  end.

(** [containsAny]. *)
Fixpoint containsAny (s : string) (substrs : list string) : bool :=
  match substrs with
  | [] => false
  | substr :: rest =>
      if (String.length substr <=? String.length s)%nat
         && containsAt s substr 0 (S (String.length s - String.length substr))
      then true
      else containsAny s rest
  end.

(** [APIError.isTokenExpired]. *)
Definition isTokenExpired (e : APIError) : bool :=
  if negb (String.eqb (Code e) CodeAuthError) then false
  else containsAny (Message e) ["token expired"; "invalid token"; "access_token invalid"].

(** [APIError.isRefreshTokenExpired]. *)
Definition isRefreshTokenExpired (e : APIError) : bool :=
  String.eqb (Code e) CodeInvalidParam
  && containsAny (Message e) ["refresh_token"; "invalid refresh"].

Inductive ErrorCategory :=
| CategoryAuthentication
| CategoryRateLimit
| CategoryServer
| CategoryNotFound
| CategoryValidation
| CategoryUnknown.

(** [APIError.Category]. *)
Definition Category (e : APIError) : ErrorCategory :=
  let c := Code e in
  if String.eqb c CodeAuthError || String.eqb c CodeInvalidSign
     || String.eqb c CodeInvalidTimestamp || String.eqb c CodePermissionDenied
  then CategoryAuthentication
  else if String.eqb c CodeExceedLimit then CategoryRateLimit
  else if String.eqb c CodeServerError then CategoryServer
  else if String.eqb c CodeNotFound || String.eqb c CodeProductBanned
          || String.eqb c CodeOrderCancelled
  then CategoryNotFound
  else if String.eqb c CodeInvalidParam then CategoryValidation
  else CategoryUnknown.

End Errors.

Import Errors.

(** ** The world the retry loop runs in *)

(** [now] is the reading of [time.Now] (nanoseconds), [rand] the successive
    results of [rand.Float64], [st] the state of whatever the operation
    works on. *)
Record World (St : Type) := mkWorld {
  now  : Z;
  rand : list float64;
  st   : St
}.
Arguments mkWorld {St} _ _ _.
Arguments now {St} _.
Arguments rand {St} _.
Arguments st {St} _.

Definition set_now {St} (t : Z) (w : World St) : World St :=
  {| now := t; rand := rand w; st := st w |}.

Definition set_st {St} (s : St) (w : World St) : World St :=
  {| now := now w; rand := rand w; st := s |}.

(** [rand.Float64()]: the next draw of the stream (0 once it is used up). *)
Definition rand_Float64 {St} (w : World St) : float64 * World St :=
  match rand w with
  | [] => (0%Q, w)
  | r :: rs => (r, {| now := now w; rand := rs; st := st w |})
  end.

(** A [context.Context]: the instant at which [Done] is closed (if ever) and
    the error [Err] reports from then on. *)
Record Context := {
  doneAt : option Z;
  ctxErr : error
}.

Definition Background : Context :=
  {| doneAt := None; ctxErr := ErrPlain "context canceled" |}.

(** ** retry.go, first part: RetryPolicy and Executor *)

Module Retry.

Record RetryPolicy := {
  maxAttempts     : Z;
  initialDelay    : Duration;
  maxDelay        : Duration;
  multiplier      : float64;
  jitterFactor    : float64;
  retryableErrors : list error
}.

Definition DefaultRetryPolicy : RetryPolicy :=
  {| maxAttempts := 3;
     initialDelay := 1 * Second;
     maxDelay := 30 * Second;
     multiplier := 2%Q;
     jitterFactor := (1 # 10)%Q;
     retryableErrors := [ErrRateLimited; ErrServiceUnavailable] |}.

Definition NoRetryPolicy : RetryPolicy :=
  {| maxAttempts := 1;
     initialDelay := 0;
     maxDelay := 0;
     multiplier := 0%Q;
     jitterFactor := 0%Q;
     retryableErrors := [] |}.

(** The [With...] builders. The Go methods assign the field of the receiver
    and return the receiver; the value they return is what is modelled. *)
Definition WithMaxAttempts (p : RetryPolicy) (n : Z) : RetryPolicy :=
  {| maxAttempts := n; initialDelay := initialDelay p; maxDelay := maxDelay p;
     multiplier := multiplier p; jitterFactor := jitterFactor p;
     retryableErrors := retryableErrors p |}.

Definition WithInitialDelay (p : RetryPolicy) (d : Duration) : RetryPolicy :=
  {| maxAttempts := maxAttempts p; initialDelay := d; maxDelay := maxDelay p;
     multiplier := multiplier p; jitterFactor := jitterFactor p;
     retryableErrors := retryableErrors p |}.

Definition WithMaxDelay (p : RetryPolicy) (d : Duration) : RetryPolicy :=
  {| maxAttempts := maxAttempts p; initialDelay := initialDelay p; maxDelay := d;
     multiplier := multiplier p; jitterFactor := jitterFactor p;
     retryableErrors := retryableErrors p |}.

Definition WithMultiplier (p : RetryPolicy) (m : float64) : RetryPolicy :=
  {| maxAttempts := maxAttempts p; initialDelay := initialDelay p; maxDelay := maxDelay p;
     multiplier := m; jitterFactor := jitterFactor p;
     retryableErrors := retryableErrors p |}.

Definition WithJitter (p : RetryPolicy) (j : float64) : RetryPolicy :=
  {| maxAttempts := maxAttempts p; initialDelay := initialDelay p; maxDelay := maxDelay p;
     multiplier := multiplier p; jitterFactor := j;
     retryableErrors := retryableErrors p |}.

(** [RetryPolicy.ShouldRetry]; [None] is the nil error. *)
Definition ShouldRetry (p : RetryPolicy) (err : option error) (attempt : Z) : bool :=
  if maxAttempts p <=? attempt then false
  else match err with
       | None => false
       | Some (ErrAPI apiErr) => IsRetryable apiErr
       | Some (ErrPlain _) => false
       end.

(** The float the body of [DelayForAttempt] holds just before its final
    conversion, for [attempt > 0]; [rnd] is the value [rand.Float64()]
    returns when it is consulted. *)
Definition delayFloat (p : RetryPolicy) (attempt : Z) (rnd : float64) : xfloat :=
  (* Calculate exponential delay *)
  let delay := xmul (Fin (float64_of_int (initialDelay p)))
                    (xpow (multiplier p) (float64_of_int (attempt - 1))) in
  (* Apply jitter *)
  let delay :=
    if Qltb 0 (jitterFactor p)
    then
      let jitter := xmul (xmul delay (Fin (jitterFactor p))) (fin (rnd * 2 - 1)) in
      xadd delay jitter
    else delay in
  (* Cap at max delay *)
  if xgt delay (Fin (float64_of_int (maxDelay p)))
  then Fin (float64_of_int (maxDelay p))
  else delay.

(** [RetryPolicy.DelayForAttempt], as a function of the jitter draw. *)
Definition DelayForAttempt (p : RetryPolicy) (attempt : Z) (rnd : float64) : Duration :=
  if attempt <=? 0 then 0
  else int64_of_float (delayFloat p attempt rnd).

(** Follows the specification's words, not the source: "the cap is applied
    before jitter", that is, the exponential delay is capped at [maxDelay]
    first and the jitter is added to the capped value. Only compared with
    [DelayForAttempt]; nothing else uses it. *)
Definition DelayForAttempt_capBeforeJitter (p : RetryPolicy) (attempt : Z) (rnd : float64)
  : Duration :=
  if attempt <=? 0 then 0
  else
    let delay := xmul (Fin (float64_of_int (initialDelay p)))
                      (xpow (multiplier p) (float64_of_int (attempt - 1))) in
    let delay :=
      if xgt delay (Fin (float64_of_int (maxDelay p)))
      then Fin (float64_of_int (maxDelay p))
      else delay in
    let delay :=
      if Qltb 0 (jitterFactor p)
      then
        let jitter := xmul (xmul delay (Fin (jitterFactor p))) (fin (rnd * 2 - 1)) in
        xadd delay jitter
      else delay in
    int64_of_float delay.

(** [DelayForAttempt] in the world: the draw is taken from the stream only
    when the jitter branch runs. *)
Definition DelayForAttemptW {St} (p : RetryPolicy) (attempt : Z) (w : World St)
  : Duration * World St :=
  if attempt <=? 0 then (0, w)
  else if Qltb 0 (jitterFactor p)
       then let '(r, w') := rand_Float64 w in (DelayForAttempt p attempt r, w')
       else (DelayForAttempt p attempt 0%Q, w).

(** [RetryPolicy.WaitForRetry]: [true] when the timer fires, [false] when
    the context is done first. The clock moves to whichever comes first; when
    both are ready at the same instant the [select] may take either branch,
    and the model takes the context's. *)
Definition WaitForRetry {St} (p : RetryPolicy) (ctx : Context) (attempt : Z) (w : World St)
  : bool * World St :=
  let '(delay, w1) := DelayForAttemptW p attempt w in
  if delay <=? 0 then (true, w1)
  else match doneAt ctx with
       | Some t =>
           if t <=? now w1 + delay
           then (false, set_now (Z.max (now w1) t) w1)
           else (true, set_now (now w1 + delay) w1)
       | None => (true, set_now (now w1 + delay) w1)
       end.

Record RetryResult := {
  Attempts  : Z;
  LastError : option error;
  Duration_ : Duration
}.

Definition set_Attempts (n : Z) (r : RetryResult) : RetryResult :=
  {| Attempts := n; LastError := LastError r; Duration_ := Duration_ r |}.

Definition set_LastError (e : option error) (r : RetryResult) : RetryResult :=
  {| Attempts := Attempts r; LastError := e; Duration_ := Duration_ r |}.

Definition set_Duration (d : Duration) (r : RetryResult) : RetryResult :=
  {| Attempts := Attempts r; LastError := LastError r; Duration_ := d |}.

Section Executor.
Context {St : Type}.

(** An operation is a closure [func() error] acting on the world. *)
Definition Operation := World St -> option error * World St.

(** The [for attempt := ...; attempt <= maxAttempts; attempt++] loop of
    [Execute]. [remaining] is the number of iterations the loop condition
    still allows, [maxAttempts + 1 - attempt]. *)
Fixpoint executeLoop (p : RetryPolicy) (ctx : Context) (operation : Operation)
         (remaining : nat) (attempt : Z) (result : RetryResult) (w : World St)
  : RetryResult * World St :=
  match remaining with
  | O => (result, w)
  | S remaining' =>
      let result := set_Attempts attempt result in
      let '(err, w) := operation w in
      match err with
      | None => (result, w)
      | Some e =>
          let result := set_LastError (Some e) result in
          if negb (ShouldRetry p (Some e) attempt) then (result, w)
          else if attempt <? maxAttempts p then
                 let '(ok, w) := WaitForRetry p ctx attempt w in
                 if negb ok then (set_LastError (Some (ctxErr ctx)) result, w)
                 else executeLoop p ctx operation remaining' (attempt + 1) result w
               else executeLoop p ctx operation remaining' (attempt + 1) result w
      end
  end.

(** [Executor.Execute]. *)
Definition Execute (p : RetryPolicy) (ctx : Context) (operation : Operation) (w : World St)
  : RetryResult * World St :=
  let start := now w in
  let result := {| Attempts := 0; LastError := None; Duration_ := 0 |} in
  let '(result, w') :=
    executeLoop p ctx operation (Z.to_nat (maxAttempts p)) 1 result w in
  (set_Duration (now w' - start) result, w').

(** An observation of the loop of [Execute], not a function of the source:
    the world in which the iteration numbered [target] begins, when the loop
    gets that far. It follows [executeLoop] line by line, answers [Some w] on
    entering the iteration [target], and [None] wherever the loop ends
    before it. *)
Fixpoint attemptStart (p : RetryPolicy) (ctx : Context) (operation : Operation)
         (remaining : nat) (attempt : Z) (w : World St) (target : Z)
  : option (World St) :=
  match remaining with
  | O => None
  | S remaining' =>
      if attempt =? target then Some w
      else
        let '(err, w) := operation w in
        match err with
        | None => None
        | Some e =>
            if negb (ShouldRetry p (Some e) attempt) then None
            else if attempt <? maxAttempts p then
                   let '(ok, w) := WaitForRetry p ctx attempt w in
                   if negb ok then None
                   else attemptStart p ctx operation remaining' (attempt + 1) w target
                 else attemptStart p ctx operation remaining' (attempt + 1) w target
        end
  end.

End Executor.

End Retry.

Import Retry.

(** ** retry.go, third part: HMAC-SHA256 request signatures *)

(** [crypto/sha256], [crypto/hmac] and [encoding/hex], written out so that
    signatures compute (FIPS 180-4 and RFC 2104). Words are [Z] kept below
    [2^32]. *)
Module Crypto.

Definition byteZ (b : byte) : Z := Z.of_N (Byte.to_N b).

Definition Zbyte (z : Z) : byte :=
  match Byte.of_N (Z.to_N (z mod 256)) with
  | Some b => b
  | None => x00
  end.

Definition w32 (x : Z) : Z := x mod 2 ^ 32.
Definition add32 (x y : Z) : Z := w32 (x + y).
Definition rotr (n x : Z) : Z := Z.lor (Z.shiftr x n) (w32 (Z.shiftl x (32 - n))).
Definition not32 (x : Z) : Z := Z.lxor x 0xffffffff.

Definition Ch (x y z : Z) : Z := Z.lxor (Z.land x y) (Z.land (not32 x) z).
Definition Maj (x y z : Z) : Z :=
  Z.lxor (Z.lxor (Z.land x y) (Z.land x z)) (Z.land y z).
Definition Sigma0 (x : Z) : Z := Z.lxor (Z.lxor (rotr 2 x) (rotr 13 x)) (rotr 22 x).
Definition Sigma1 (x : Z) : Z := Z.lxor (Z.lxor (rotr 6 x) (rotr 11 x)) (rotr 25 x).
Definition sigma0 (x : Z) : Z := Z.lxor (Z.lxor (rotr 7 x) (rotr 18 x)) (Z.shiftr x 3).
Definition sigma1 (x : Z) : Z := Z.lxor (Z.lxor (rotr 17 x) (rotr 19 x)) (Z.shiftr x 10).

(** The round constants and the initial hash value are defined as FIPS 180-4
    defines them: the first 32 bits of the fractional parts of the cube roots
    of the first 64 primes, and of the square roots of the first 8 primes. *)
Definition isPrime (n : Z) : bool :=
  (1 <? n) && forallb (fun d => negb (n mod Z.of_nat d =? 0)) (seq 2 (Z.to_nat n - 2)).

Definition primes64 : list Z :=
  Eval vm_compute in List.filter isPrime (map Z.of_nat (seq 2 310)).

(** Integer cube root, bit by bit from bit [b - 1] down. *)
Fixpoint icbrt (b : nat) (n r : Z) : Z :=
  match b with
  | O => r
  | S b' =>
      let r' := r + 2 ^ Z.of_nat b' in
      icbrt b' n (if r' ^ 3 <=? n then r' else r)
  end.

Definition fracCbrt32 (p : Z) : Z := icbrt 40 (p * 2 ^ 96) 0 mod 2 ^ 32.
Definition fracSqrt32 (p : Z) : Z := Z.sqrt (p * 2 ^ 64) mod 2 ^ 32.

Definition K256 : list Z := Eval vm_compute in map fracCbrt32 primes64.

Definition H0 : list Z := Eval vm_compute in map fracSqrt32 (firstn 8 primes64).

(** Big-endian encodings. *)
Definition be32 (x : Z) : list Z :=
  [ Z.shiftr x 24 mod 256; Z.shiftr x 16 mod 256; Z.shiftr x 8 mod 256; x mod 256 ].

Definition be64 (x : Z) : list Z :=
  be32 (Z.shiftr x 32 mod 2 ^ 32) ++ be32 (x mod 2 ^ 32).

Fixpoint words (n : nat) (bs : list Z) : list Z :=
  match n, bs with
  | S n', b0 :: b1 :: b2 :: b3 :: rest =>
      (b0 * 2 ^ 24 + b1 * 2 ^ 16 + b2 * 2 ^ 8 + b3) :: words n' rest
  | _, _ => []
  end.

(** Padding: a one bit, zeros up to 56 mod 64, the bit length on 8 bytes. *)
Definition pad (msg : list Z) : list Z :=
  let len := Z.of_nat (length msg) in
  let zeros := Z.to_nat ((55 - len) mod 64) in
  msg ++ [0x80] ++ repeat 0 zeros ++ be64 (8 * len).

(** One round; [ws] is the sliding window W[t..t+15] of the schedule. *)
Definition round (hs ws : list Z) (k : Z) : list Z * list Z :=
  match hs, ws with
  | [a; b; c; d; e; f; g; h], w0 :: _ =>
      let T1 := add32 (add32 (add32 (add32 h (Sigma1 e)) (Ch e f g)) k) w0 in
      let T2 := add32 (Sigma0 a) (Maj a b c) in
      let wnew := add32 (add32 (add32 (sigma1 (nth 14 ws 0)) (nth 9 ws 0))
                               (sigma0 (nth 1 ws 0))) w0 in
      ([add32 T1 T2; a; b; c; add32 d T1; e; f; g], tl ws ++ [wnew])
  | _, _ => (hs, ws)
  end.

Definition compress (hs block : list Z) : list Z :=
  let '(hs', _) :=
    fold_left (fun '(h, w) k => round h w k) K256 (hs, words 16 block) in
  map (fun '(x, y) => add32 x y) (combine hs hs').

(** Block by block over the padded message; [n] counts the blocks. *)
Fixpoint blocks (n : nat) (hs bs : list Z) : list Z :=
  match n with
  | O => hs
  | S n' => blocks n' (compress hs (firstn 64 bs)) (skipn 64 bs)
  end.

Definition sha256Z (msg : list Z) : list Z :=
  let p := pad msg in
  concat (map be32 (blocks (length p / 64) H0 p)).

Definition hmacZ (key msg : list Z) : list Z :=
  let key := if (64 <? length key)%nat then sha256Z key else key in
  let key := key ++ repeat 0 (64 - length key) in
  let ipad := map (Z.lxor 0x36) key in
  let opad := map (Z.lxor 0x5c) key in
  sha256Z (opad ++ sha256Z (ipad ++ msg)).

(** [h := hmac.New(sha256.New, key); h.Write(msg); h.Sum(nil)]. *)
Definition hmac_sha256 (key msg : list byte) : list byte :=
  map Zbyte (hmacZ (map byteZ key) (map byteZ msg)).

Definition hexdigit (n : Z) : ascii :=
  nth (Z.to_nat n) (list_ascii_of_string "0123456789abcdef") "0"%char.

(** [hex.EncodeToString]. *)
Fixpoint hex_EncodeToString (bs : list byte) : string :=
  match bs with
  | [] => ""
  | b :: rest =>
      String (hexdigit (byteZ b / 16))
        (String (hexdigit (byteZ b mod 16)) (hex_EncodeToString rest))
  end.

(** [subtle.ConstantTimeCompare(x, y) == 1], which is [hmac.Equal]: the
    lengths agree and the bitwise differences, or-ed together, are zero. *)
Fixpoint xorAcc (v : Z) (x y : list byte) : Z :=
  match x, y with
  | a :: x', b :: y' => xorAcc (Z.lor v (Z.lxor (byteZ a) (byteZ b))) x' y'
  | _, _ => v
  end.

Definition hmac_Equal (x y : list byte) : bool :=
  if negb (length x =? length y)%nat then false
  else xorAcc 0 x y =? 0.

End Crypto.

Module Sig.

Record Signature := NewSignature { partnerKey : string }.

(** [fmt.Sprintf("%d", n)]. *)
Definition fmt_d (n : Z) : string := NilZero.string_of_int (Z.to_int n).

(** [Signature.sign]. *)
Definition sign (s : Signature) (baseString : string) : string :=
  Crypto.hex_EncodeToString
    (Crypto.hmac_sha256 (list_byte_of_string (partnerKey s))
                        (list_byte_of_string baseString)).

(** [Signature.GeneratePublic]. *)
Definition GeneratePublic (s : Signature) (partnerID : Z) (path : string) (timestamp : Z)
  : string :=
  let baseString := fmt_d partnerID +:+ path +:+ fmt_d timestamp in
  sign s baseString.

(** [Signature.GenerateAuthenticated]. *)
Definition GenerateAuthenticated (s : Signature) (partnerID : Z) (path : string)
           (timestamp : Z) (accessToken : string) (shopID : Z) : string :=
  let baseString :=
    fmt_d partnerID +:+ path +:+ fmt_d timestamp +:+ accessToken +:+ fmt_d shopID in
  sign s baseString.

(** [Signature.GenerateMerchant]. *)
Definition GenerateMerchant (s : Signature) (partnerID : Z) (path : string)
           (timestamp : Z) (accessToken : string) (merchantID : Z) : string :=
  let baseString :=
    fmt_d partnerID +:+ path +:+ fmt_d timestamp +:+ accessToken +:+ fmt_d merchantID in
  sign s baseString.

(** [Signature.VerifyWebhook]. *)
Definition VerifyWebhook (s : Signature) (baseURL : string) (body : list byte)
           (providedSignature : string) : bool :=
  let baseString := baseURL +:+ "|" +:+ string_of_list_byte body in
  let expectedSignature := sign s baseString in
  Crypto.hmac_Equal (list_byte_of_string expectedSignature)
                    (list_byte_of_string providedSignature).

(** [ValidateTimestamp]; its arguments are [int64], and so are the
    difference and its negation. *)
Definition ValidateTimestamp (timestamp serverTimestamp : Z) : bool :=
  let maxDrift := 300 in
  let diff := wrap64 (serverTimestamp - timestamp) in
  let diff := if diff <? 0 then wrap64 (- diff) else diff in
  diff <=? maxDrift.

End Sig.

Import Sig.

(** ** ratelimit.go: token buckets and the per-prefix rate limiter *)

Module RateLimit.

Record PathLimit := {
  RPS   : Z;
  Burst : Z
}.

Record RateLimitConfig := {
  DefaultRPS   : Z;
  DefaultBurst : Z;
  PathLimits   : gmap string PathLimit
}.


Record tokenBucket := {
  tokens     : float64;
  maxTokens  : float64;
  refillRate : float64;
  lastRefill : Z
}.

(** [newTokenBucket]; [t] is the reading of [time.Now()]. *)
Definition newTokenBucket (rps burst : Z) (t : Z) : tokenBucket :=
  {| tokens := inject_Z burst;
     maxTokens := inject_Z burst;
     refillRate := inject_Z rps;
     lastRefill := t |}.

(** [tokenBucket.take]; [t] is the reading of [time.Now()]. Returns the
    wait and the bucket as the call leaves it. *)
Definition take (tb : tokenBucket) (t : Z) : Duration * tokenBucket :=
  (* Refill tokens based on time elapsed *)
  let elapsed := Seconds (t - lastRefill tb) in
  let toks := (tokens tb + elapsed * refillRate tb)%Q in
  let toks := if Qltb (maxTokens tb) toks then maxTokens tb else toks in
  (* Check if we have a token *)
  if Qle_bool 1 toks then
    (0, {| tokens := (toks - 1)%Q; maxTokens := maxTokens tb;
           refillRate := refillRate tb; lastRefill := t |})
  else
    (* Calculate wait time for next token *)
    let deficit := (1 - toks)%Q in
    let waitSeconds := (deficit / refillRate tb)%Q in
    (Qtrunc (waitSeconds * inject_Z Second),
     {| tokens := toks; maxTokens := maxTokens tb;
        refillRate := refillRate tb; lastRefill := t |}).

Record RateLimiter := {
  buckets : gmap string tokenBucket;
  config  : RateLimitConfig
}.

Definition NewRateLimiter (cfg : RateLimitConfig) : RateLimiter :=
  {| buckets := ∅; config := cfg |}.

(** [len(path) >= len(prefix) && path[:len(prefix)] == prefix]. *)
Definition hasPrefix (path prefix : string) : bool :=
  (String.length prefix <=? String.length path)%nat
  && String.eqb (substring 0 (String.length prefix) path) prefix.

(** A [for prefix, limit := range m] statement visits the entries of the map
    in an order the language leaves unspecified: any arrangement of its
    entries, possibly a different one at each loop. *)
Definition IterationOrder (m : gmap string PathLimit) (order : list (string * PathLimit))
  : Prop :=
  order ≡ₚ map_to_list m.

(** The body shared by the two range loops: the first visited entry whose
    prefix matches. *)
Fixpoint firstMatch (path : string) (order : list (string * PathLimit))
  : option (string * PathLimit) :=
  match order with
  | [] => None
  | (prefix, limit) :: rest =>
      if hasPrefix path prefix then Some (prefix, limit)
      else firstMatch path rest
  end.

(** [RateLimiter.findBucketKey]; [order] is the order in which the range
    loop visits [rl.config.PathLimits]. *)
Definition findBucketKey (order : list (string * PathLimit)) (path : string) : string :=
  match firstMatch path order with
  | Some (prefix, _) => prefix
  | None => "default"
  end.

(** [RateLimiter.getLimitForPath]. *)
Definition getLimitForPath (rl : RateLimiter) (order : list (string * PathLimit))
           (path : string) : Z * Z :=
  match firstMatch path order with
  | Some (_, limit) => (RPS limit, Burst limit)
  | None => (DefaultRPS (config rl), DefaultBurst (config rl))
  end.

(** [RateLimiter.getBucket]: the key of the bucket in [buckets] and the
    limiter with the bucket created if it was missing. [order1] and [order2]
    are the visiting orders of the two range loops the call may run. (The
    locks only serialise callers; the re-check after the write lock sees the
    same map in a sequential run.) *)
Definition getBucket (rl : RateLimiter) (order1 order2 : list (string * PathLimit))
           (path : string) (t : Z) : string * RateLimiter :=
  let bucketKey := findBucketKey order1 path in
  match buckets rl !! bucketKey with
  | Some _ => (bucketKey, rl)
  | None =>
      let '(rps, burst) := getLimitForPath rl order2 path in
      let bucket := newTokenBucket rps burst t in
      (bucketKey, {| buckets := <[bucketKey := bucket]> (buckets rl); config := config rl |})
  end.




(** The successive clock readings never go back. *)
Fixpoint nondecreasing (t : Z) (times : list Z) : bool :=
  match times with
  | [] => true
  | t' :: rest => (t <=? t') && nondecreasing t' rest
  end.

(** The bucket bound. *)
Definition bucketBound (tb : tokenBucket) : Prop :=
  (0 <= tokens tb)%Q /\ (tokens tb <= maxTokens tb)%Q.

(** The buckets a run of [take] calls leaves behind, one per call; [times]
    are the successive readings of [time.Now()]. *)
Fixpoint takes (tb : tokenBucket) (times : list Z) : list tokenBucket :=
  match times with
  | [] => []
  | t :: rest => let tb' := snd (take tb t) in tb' :: takes tb' rest
  end.

End RateLimit.

Import RateLimit.

(** ** returns.go, second part: the client orchestrator *)

Module ShopeeClient.

Definition ProductionBaseURL : string := "https://partner.shopeemobile.com".
Definition SandboxBaseURL : string := "https://openplatform.sandbox.test-stable.shopee.sg".

(** The calls a client can make on its collaborators; a trace lists them
    oldest first. *)
Inductive Event :=
| EvRateLimiterWait (path : string)
| EvHTTP (method url : string) (body : option string)
| EvRefreshToken (refreshToken : string) (shopID : Z).

Record TokenRefreshResult := {
  AccessToken   : string;
  RefreshToken_ : string;
  ExpiresIn     : Z
}.

(** The [TokenRefresher] interface: what [RefreshToken] answers, given the
    calls made so far and its arguments. *)
Definition TokenRefresher := list Event -> string -> Z -> TokenRefreshResult + error.

(** The anonymous [baseResp] struct of [doRequest]. *)
Record BaseEnvelope := {
  envError     : string;
  envMessage   : string;
  envRequestID : string
}.

(** A response body, kept with what [encoding/json] makes of it:
    [asEnvelope] is [Some] when [json.Unmarshal(respBody, &baseResp)]
    succeeds, [asResult] is the error text of
    [json.Unmarshal(respBody, result)], if it fails. *)
Record Body_ := {
  asEnvelope : option BaseEnvelope;
  asResult   : option string
}.

Inductive HttpOutcome :=
| TransportError (msg : string)               (* httpClient.Do fails *)
| ReadFailed (status : Z) (msg : string)      (* io.ReadAll fails *)
| Responded (status : Z) (body : Body_).

(** The net/http layer: [NewRequestWithContext] answers with the error text
    when it rejects the method or the URL; [RoundTrip] is what
    [httpClient.Do] and reading the body give, given the calls made so far. *)
Record HttpClient := {
  NewRequestErr : string -> string -> option string;
  RoundTrip     : list Event -> string -> string -> option string -> HttpOutcome
}.

(** The immutable part of [Client]. *)
Record Client := {
  partnerID      : Z;
  baseURL        : string;
  httpClient     : HttpClient;
  retryPolicy    : RetryPolicy;
  signature      : Signature;
  tokenRefresher : option TokenRefresher
}.

(** The fields of [Client] guarded by [tokenMu], and the trace of the calls
    made on collaborators. *)
Record ClientState := {
  accessToken  : string;
  refreshToken : string;
  shopID       : Z;
  tokenExpiry  : Z;
  trace        : list Event
}.

Definition emit (ev : Event) (s : ClientState) : ClientState :=
  {| accessToken := accessToken s; refreshToken := refreshToken s;
     shopID := shopID s; tokenExpiry := tokenExpiry s;
     trace := trace s ++ [ev] |}.

(** [SetTokens]. *)
Definition SetTokens (accessToken' : string) (shopID' : Z) (s : ClientState) : ClientState :=
  {| accessToken := accessToken'; refreshToken := refreshToken s;
     shopID := shopID'; tokenExpiry := tokenExpiry s; trace := trace s |}.

(** [SetTokensWithRefresh]. *)
Definition SetTokensWithRefresh (accessToken' refreshToken' : string) (shopID' : Z)
           (expiresAt : Z) (s : ClientState) : ClientState :=
  {| accessToken := accessToken'; refreshToken := refreshToken';
     shopID := shopID'; tokenExpiry := expiresAt; trace := trace s |}.

(** [Client.generateSign]. *)
Definition generateSign (c : Client) (path : string) (timestamp : Z) : string :=
  GeneratePublic (signature c) (partnerID c) path timestamp.

(** [Client.generateSignWithTokens]. *)
Definition generateSignWithTokens (c : Client) (path : string) (timestamp : Z)
           (accessToken' : string) (shopID' : Z) : string :=
  GenerateAuthenticated (signature c) (partnerID c) path timestamp accessToken' shopID'.

(** What [json.Marshal] makes of a request body. *)
Inductive Marshal :=
| Marshalled (json : string)
| MarshalError (msg : string).

(** [Request]. [Query] lists the map in the order the range loop visits it;
    [Body] is [None] for a nil body. *)
Record Request := {
  Method   : string;
  Path     : string;
  Query    : list (string * string);
  Body     : option Marshal;
  NeedAuth : bool
}.

(** [sort.Strings]: increasing byte-wise order. *)
Fixpoint insertSorted (x : string) (l : list string) : list string :=
  match l with
  | [] => [x]
  | y :: rest => if String.leb x y then x :: l else y :: insertSorted x rest
  end.

Definition sort_Strings (l : list string) : list string :=
  fold_right insertSorted [] l.

(** The URL [doRequest] builds. *)
Definition buildURL (c : Client) (req : Request) (timestamp : Z)
           (accessToken' : string) (shopID' : Z) : string :=
  let url := baseURL c +:+ Path req in
  let queryParams :=
    [ "partner_id=" +:+ fmt_d (partnerID c); "timestamp=" +:+ fmt_d timestamp ] in
  let '(sign, queryParams) :=
    if NeedAuth req
    then (generateSignWithTokens c (Path req) timestamp accessToken' shopID',
          queryParams ++ [ "access_token=" +:+ accessToken' ]
                      ++ [ "shop_id=" +:+ fmt_d shopID' ])
    else (generateSign c (Path req) timestamp, queryParams) in
  let queryParams := queryParams ++ [ "sign=" +:+ sign ] in
  (* Add custom query params *)
  let queryParams := queryParams ++ map (fun '(k, v) => k +:+ "=" +:+ v) (Query req) in
  (* Sort query params for consistency *)
  let queryParams := sort_Strings queryParams in
  url +:+ "?" +:+ String.concat "&" queryParams.

(** [Client.doRequest]; [wantResult] is [result != nil]. Logging is left
    out: it has no effect on what the function returns or calls. *)
Definition doRequest (c : Client) (ctx : Context) (req : Request) (wantResult : bool)
           (w : World ClientState) : option error * World ClientState :=
  let timestamp := now w / Second in
  (* Get current tokens *)
  let accessToken' := accessToken (st w) in
  let shopID' := shopID (st w) in
  let url := buildURL c req timestamp accessToken' shopID' in
  (* Build request body *)
  match Body req with
  | Some (MarshalError msg) =>
      (Some (ErrPlain ("failed to marshal request body: " +:+ msg)), w)
  | body =>
      let bodyBytes :=
        match body with Some (Marshalled json) => Some json | _ => None end in
      (* Create HTTP request *)
      match NewRequestErr (httpClient c) (Method req) url with
      | Some msg => (Some (ErrPlain ("failed to create request: " +:+ msg)), w)
      | None =>
          (* Execute request *)
          let outcome := RoundTrip (httpClient c) (trace (st w)) (Method req) url bodyBytes in
          let w := set_st (emit (EvHTTP (Method req) url bodyBytes) (st w)) w in
          match outcome with
          | TransportError msg => (Some (ErrPlain ("request failed: " +:+ msg)), w)
          | ReadFailed _ msg => (Some (ErrPlain ("failed to read response: " +:+ msg)), w)
          | Responded status respBody =>
              (* Parse base response to check for errors *)
              let apiErr :=
                match asEnvelope respBody with
                | Some baseResp =>
                    if negb (String.eqb (envError baseResp) "")
                       && negb (String.eqb (envError baseResp) "success")
                    then Some (NewAPIErrorWithRequestID (envError baseResp)
                                 (envMessage baseResp) status (envRequestID baseResp))
                    else None
                | None => None
                end in
              match apiErr with
              | Some e => (Some (ErrAPI e), w)
              | None =>
                  (* Handle HTTP-level errors *)
                  if 400 <=? status
                  then (Some (ErrAPI (NewAPIError CodeServerError
                                        ("HTTP error: " +:+ fmt_d status) status)), w)
                  else
                    (* Parse response *)
                    if wantResult then
                      match asResult respBody with
                      | Some msg =>
                          (Some (ErrPlain ("failed to parse response: " +:+ msg)), w)
                      | None => (None, w)
                      end
                    else (None, w)
              end
          end
      end
  end.

(** [Client.tryRefreshToken]. The life time
    [time.Duration(result.ExpiresIn) * time.Second] is a 64-bit product. *)
Definition tryRefreshToken (c : Client) (ctx : Context) (w : World ClientState)
  : option error * World ClientState :=
  match tokenRefresher c with
  | None => (Some (ErrPlain "no token refresher configured"), w)
  | Some refresher =>
      let refreshToken' := refreshToken (st w) in
      let shopID' := shopID (st w) in
      if String.eqb refreshToken' ""
      then (Some (ErrPlain "no refresh token available"), w)
      else
        let answer := refresher (trace (st w)) refreshToken' shopID' in
        let w := set_st (emit (EvRefreshToken refreshToken' shopID') (st w)) w in
        match answer with
        | inr err => (Some err, w)
        | inl result =>
            (* Update tokens *)
            (None,
             set_st {| accessToken := AccessToken result;
                       refreshToken := RefreshToken_ result;
                       shopID := shopID (st w);
                       tokenExpiry := now w + wrap64 (ExpiresIn result * Second);
                       trace := trace (st w) |} w)
        end
  end.

(** [isTokenExpiredError]. *)
Definition isTokenExpiredError (err : error) : bool :=
  match err with
  | ErrAPI apiErr => String.eqb (Code apiErr) CodeAuthError
  | ErrPlain _ => false
  end.

(** The condition under which the closure of [Do] refreshes the token. *)
Definition refreshTriggered (err : error) : bool :=
  String.eqb (Error ErrTokenExpired) (Error err) || isTokenExpiredError err.

(** The closure [Do] hands to [Execute]. *)
Definition doOperation (c : Client) (ctx : Context) (req : Request) (wantResult : bool)
  : Operation (St := ClientState) :=
  fun w =>
    let '(err, w) := doRequest c ctx req wantResult w in
    match err with
    | Some e =>
        (* Handle token expiration with automatic refresh *)
        if refreshTriggered e then
          let '(refreshErr, w) := tryRefreshToken c ctx w in
          match refreshErr with
          | Some _ => (Some e, w)
          | None =>
              (* Token refreshed, this error is now retryable *)
              (Some (ErrAPI (NewAPIError CodeAuthError "token refreshed, retrying"
                                         StatusUnauthorized)), w)
          end
        else (Some e, w)
    | None => (None, w)
    end.

(** [Client.Do]. *)
Definition Do (c : Client) (ctx : Context) (req : Request) (wantResult : bool)
           (w : World ClientState) : option error * World ClientState :=
  let '(retryResult, w) :=
    Execute (retryPolicy c) ctx (doOperation c ctx req wantResult) w in
  match LastError retryResult with
  | Some e => (Some e, w)
  | None => (None, w)
  end.

(** The world in which attempt number [k] of the call
    [Do c ctx req wantResult w] begins, when the call makes that attempt. *)
Definition attemptOfDo (c : Client) (ctx : Context) (req : Request) (wantResult : bool)
           (w : World ClientState) (k : Z) : option (World ClientState) :=
  attemptStart (retryPolicy c) ctx (doOperation c ctx req wantResult)
               (Z.to_nat (maxAttempts (retryPolicy c))) 1 w k.

(** The URL and the body [doRequest] sends for [req] in the world [w]. *)
Definition requestURL (c : Client) (req : Request) (w : World ClientState) : string :=
  buildURL c req (now w / Second) (accessToken (st w)) (shopID (st w)).

Definition requestBody (req : Request) : option string :=
  match Body req with Some (Marshalled json) => Some json | _ => None end.

(** Counting the calls of a trace. *)
Definition isWait (ev : Event) : bool :=
  match ev with EvRateLimiterWait _ => true | _ => false end.
Definition isHTTP (ev : Event) : bool :=
  match ev with EvHTTP _ _ _ => true | _ => false end.
Definition isRefresh (ev : Event) : bool :=
  match ev with EvRefreshToken _ _ => true | _ => false end.

Definition count (f : Event -> bool) (tr : list Event) : nat :=
  length (List.filter f tr).

Definition waitCalls    : list Event -> nat := count isWait.
Definition httpCalls    : list Event -> nat := count isHTTP.
Definition refreshCalls : list Event -> nat := count isRefresh.

End ShopeeClient.

Import ShopeeClient.

(** ** Sample collaborators and inputs *)

Module Fixtures.

(** An operation that counts its calls in the state and fails each time. *)
Definition alwaysFails (e : APIError) : Operation (St := nat) :=
  fun w => (Some (ErrAPI e), set_st (S (st w)) w).

(** A server that gives the same answer to every call. *)
Definition serverAlways (o : HttpOutcome) : HttpClient :=
  {| NewRequestErr := fun _ _ => None;
     RoundTrip := fun _ _ _ _ => o |}.

(** A body carrying a platform error. *)
Definition errorBody (code message : string) : Body_ :=
  {| asEnvelope := Some {| envError := code; envMessage := message; envRequestID := "" |};
     asResult := None |}.

Definition okBody : Body_ :=
  {| asEnvelope := Some {| envError := ""; envMessage := ""; envRequestID := "" |};
     asResult := None |}.

(** A server that rejects the token until a refresh has been made. *)
Definition serverUntilRefresh : HttpClient :=
  {| NewRequestErr := fun _ _ => None;
     RoundTrip := fun tr _ _ _ =>
       if (refreshCalls tr =? 0)%nat
       then Responded 403 (errorBody "error_auth" "access_token invalid")
       else Responded 200 okBody |}.

(** A server that answers the first call with a bare 503 and every later
    call with an expired token under status 403. *)
Definition serverBusyThenExpired : HttpClient :=
  {| NewRequestErr := fun _ _ => None;
     RoundTrip := fun tr _ _ _ =>
       if (httpCalls tr =? 0)%nat
       then Responded 503 {| asEnvelope := None; asResult := None |}
       else Responded 403 (errorBody "error_auth" "token expired") |}.

(** A server that answers the first call with an expired token under status
    403 and every later call with a bare 503. *)
Definition serverExpiredThenBusy : HttpClient :=
  {| NewRequestErr := fun _ _ => None;
     RoundTrip := fun tr _ _ _ =>
       if (httpCalls tr =? 0)%nat
       then Responded 403 (errorBody "error_auth" "token expired")
       else Responded 503 {| asEnvelope := None; asResult := None |} |}.

Definition refresherDenies : TokenRefresher :=
  fun _ _ _ => inr (ErrPlain "refresh denied").

Definition refresherGrants : TokenRefresher :=
  fun _ _ _ => inl {| AccessToken := "at2"; RefreshToken_ := "rt2"; ExpiresIn := 14400 |}.

Definition testClient (policy : RetryPolicy) (http : HttpClient)
           (refresher : option TokenRefresher) : Client :=
  {| partnerID := 1001;
     baseURL := SandboxBaseURL;
     httpClient := http;
     retryPolicy := policy;
     signature := NewSignature "partner-key";
     tokenRefresher := refresher |}.

Definition getShopInfo : Request :=
  {| Method := "GET"; Path := "/api/v2/shop/get_shop_info";
     Query := []; Body := None; NeedAuth := true |}.

Definition world0 : World ClientState :=
  mkWorld (1700000000 * Second) []
          {| accessToken := "at1"; refreshToken := "rt1"; shopID := 42;
             tokenExpiry := 0; trace := [] |}.

End Fixtures.

Import Fixtures.

(** ** retry.go, second part, continued: [errors.Is] on an APIError *)

Module ErrorsIs.

(** The targets [APIError.Is] is asked about. The [switch] compares the target
    with the sentinel variables of the package by identity, so a target is
    one of the eight sentinels or some other error value. *)
Inductive Target :=
| TargetTokenExpired
| TargetRefreshTokenExpired
| TargetRateLimited
| TargetInvalidSignature
| TargetUnauthorized
| TargetResourceNotFound
| TargetInvalidRequest
| TargetServiceUnavailable
| TargetOther.

(** [APIError.Is]. *)
Definition Is (e : APIError) (target : Target) : bool :=
  match target with
  | TargetTokenExpired => isTokenExpired e
  | TargetRefreshTokenExpired => isRefreshTokenExpired e
  | TargetRateLimited =>
      String.eqb (Code e) CodeExceedLimit || (StatusCode e =? StatusTooManyRequests)
  | TargetInvalidSignature => String.eqb (Code e) CodeInvalidSign
  | TargetUnauthorized =>
      String.eqb (Code e) CodePermissionDenied || (StatusCode e =? StatusUnauthorized)
  | TargetResourceNotFound =>
      String.eqb (Code e) CodeNotFound || (StatusCode e =? StatusNotFound)
  | TargetInvalidRequest =>
      String.eqb (Code e) CodeInvalidParam || (StatusCode e =? StatusBadRequest)
  | TargetServiceUnavailable =>
      String.eqb (Code e) CodeServerError || (500 <=? StatusCode e)
  | TargetOther => false
  end.

End ErrorsIs.

(** ** token.go: the Token value object *)

Module Tok.

Definition ErrTokenEmpty : error := ErrPlain "token cannot be empty".
Definition ErrTokenExpirySoon : error := ErrPlain "token expires within buffer period".

(** [5 * time.Minute]. *)
Definition DefaultExpiryBuffer : Duration := 5 * (60 * Second).

(** [Token]; [expiresAt] is an instant in nanoseconds. *)
Record Token := {
  accessToken  : string;
  refreshToken : string;
  expiresAt    : Z;
  shopID       : Z
}.

(** [NewToken]: the token, or the error. *)
Definition NewToken (accessToken' refreshToken' : string) (expiresAt' shopID' : Z)
  : Token + error :=
  if String.eqb accessToken' "" then inr ErrTokenEmpty
  else inl {| accessToken := accessToken'; refreshToken := refreshToken';
              expiresAt := expiresAt'; shopID := shopID' |}.

(** [Token.IsExpired]; [tnow] is the reading of [time.Now()]. *)
Definition IsExpired (tnow : Z) (t : Token) : bool := expiresAt t <? tnow.

(** [Token.IsExpiredWithBuffer]. *)
Definition IsExpiredWithBuffer (tnow : Z) (t : Token) (buffer : Duration) : bool :=
  expiresAt t <? tnow + buffer.

(** [Token.NeedsRefresh]. *)
Definition NeedsRefresh (tnow : Z) (t : Token) : bool :=
  IsExpiredWithBuffer tnow t DefaultExpiryBuffer.

(** [Token.TimeUntilExpiry]. *)
Definition TimeUntilExpiry (tnow : Z) (t : Token) : Duration := expiresAt t - tnow.

(** [Token.WithNewTokens]. *)
Definition WithNewTokens (t : Token) (accessToken' refreshToken' : string) (expiresAt' : Z)
  : Token + error :=
  NewToken accessToken' refreshToken' expiresAt' (shopID t).

(** [Token.Validate]. *)
Definition Validate (tnow : Z) (t : Token) : option error :=
  if String.eqb (accessToken t) "" then Some ErrTokenEmpty
  else if IsExpired tnow t then Some ErrTokenExpired
  else None.

End Tok.

(** ** webhook.go: event types and the webhook handler *)

Module Webhook.

Definition PushCodeShopAuthorization   : Z := 1.
Definition PushCodeOrderStatusUpdate   : Z := 3.
Definition PushCodeTrackingUpdate      : Z := 4.
Definition PushCodeItemPromotion       : Z := 5.
Definition PushCodeReservedStockChange : Z := 6.
Definition PushCodeBrandRegister       : Z := 7.
Definition PushCodeOpenApi             : Z := 8.
Definition PushCodeWebhookTest         : Z := 10.

(** [WebhookHandler.mapEventType]. *)
Definition mapEventType (code : Z) : string :=
  if code =? PushCodeShopAuthorization then "shop.authorization"
  else if code =? PushCodeOrderStatusUpdate then "order.status_changed"
  else if code =? PushCodeTrackingUpdate then "order.tracking_update"
  else if code =? PushCodeItemPromotion then "item.promotion"
  else if code =? PushCodeReservedStockChange then "inventory.reserved_changed"
  else if code =? PushCodeBrandRegister then "brand.register"
  else if code =? PushCodeOpenApi then "openapi"
  else if code =? PushCodeWebhookTest then "webhook.test"
  else "unknown." +:+ fmt_d code.

Record WebhookHandler := {
  signature  : Signature;
  webhookURL : string
}.

(** [NewWebhookHandler]. *)
Definition NewWebhookHandler (partnerKey' webhookURL' : string) : WebhookHandler :=
  {| signature := NewSignature partnerKey'; webhookURL := webhookURL' |}.

(** [headers[k]] on a Go map: the empty string when the key is missing. *)
Definition header (headers : gmap string string) (k : string) : string :=
  default "" (headers !! k).

(** [WebhookHandler.VerifyWebhook]; the error it returns is always nil. *)
Definition VerifyWebhook (h : WebhookHandler) (body : list byte)
           (headers : gmap string string) : bool * option error :=
  (* Get the authorization header which contains the signature *)
  let authorization := header headers "Authorization" in
  let authorization :=
    if String.eqb authorization "" then header headers "authorization"
    else authorization in
  if String.eqb authorization "" then (false, None)
  else
    (* Verify the signature *)
    (Sig.VerifyWebhook (signature h) (webhookURL h) body authorization, None).

End Webhook.

(** ** returns.go: return statuses and the common response envelope *)

Module Returns.

(** [ReturnProvider.mapReturnStatus]. *)
Definition mapReturnStatus (status : string) : string :=
  if String.eqb status "REQUESTED" then "requested"
  else if String.eqb status "ACCEPTED" then "accepted"
  else if String.eqb status "CANCELLED" then "cancelled"
  else if String.eqb status "JUDGING" then "judging"
  else if String.eqb status "REFUND_PAID" then "refunded"
  else if String.eqb status "CLOSED" then "closed"
  else if String.eqb status "PROCESSING" then "processing"
  else if String.eqb status "SELLER_DISPUTE" then "disputed"
  else status.

(** [truncateString]; [None] is the run-time panic of the slice expression
    [s[:maxLen]] on a negative bound. *)
Definition truncateString (s : string) (maxLen : Z) : option string :=
  if Z.of_nat (String.length s) <=? maxLen then Some s
  else if maxLen <? 0 then None
  else Some (substring 0 (Z.to_nat maxLen) s +:+ "...").

(** [BaseResponse]. *)
Record BaseResponse := {
  Error     : string;
  Message   : string;
  Warning   : string;
  RequestID : string
}.

(** [BaseResponse.HasError]. *)
Definition HasError (r : BaseResponse) : bool :=
  negb (String.eqb (Error r) "") && negb (String.eqb (Error r) "success").

(** [BaseResponse.GetError]. *)
Definition GetError (r : BaseResponse) : string :=
  if negb (String.eqb (Message r) "") then Message r else Error r.

(** [BaseResponse.ToAPIError]. *)
Definition ToAPIError (r : BaseResponse) (statusCode : Z) : APIError :=
  NewAPIErrorWithRequestID (Error r) (Message r) statusCode (RequestID r).

End Returns.

(** ** More sample collaborators *)

Module Samples.

(** An operation on a counter that fails with [e] at its first call and
    succeeds from then on. *)
Definition failsOnce (e : error) : Operation (St := nat) :=
  fun w =>
    (if (st w =? 0)%nat then Some e else None, set_st (S (st w)) w).

(** An operation on a counter that returns [err] at every call. *)
Definition alwaysReturns (err : option error) : Operation (St := nat) :=
  fun w => (err, set_st (S (st w)) w).

(** A server that answers the first call with a bare 503 and every later
    call with a 200. *)
Definition serverFailsOnce : HttpClient :=
  {| NewRequestErr := fun _ _ => None;
     RoundTrip := fun tr _ _ _ =>
       if (httpCalls tr =? 0)%nat
       then Responded 503 {| asEnvelope := None; asResult := None |}
       else Responded 200 okBody |}.

(** A refresher that grants new tokens valid for four hours. *)
Definition refresherGrantsOnce : TokenRefresher :=
  fun _ _ _ => inl {| AccessToken := "at9"; RefreshToken_ := "rt9"; ExpiresIn := 14400 |}.

End Samples.

(** The order [sort.Strings] sorts by, as a relation. *)
Definition sleb (x y : string) : Prop := String.leb x y = true.

(** ** Runs of a token bucket *)

Module Runs.

(** The waits a run of [take] calls returns, one per call; [times] are the
    successive readings of [time.Now()]. *)
Fixpoint takeWaits (tb : tokenBucket) (times : list Z) : list Duration :=
  match times with
  | [] => []
  | t :: rest => fst (take tb t) :: takeWaits (snd (take tb t)) rest
  end.

End Runs.

(* ================================================================== *)
(** * Part II. Properties                                              *)
(* ================================================================== *)

(** ** Error taxonomy *)

Section ErrorFacts.

(** Case analysis on the comparisons of [Code e] with the known codes. *)
Ltac category_cases e :=
  repeat match goal with
         | |- context [String.eqb (Code e) ?k] =>
             let H := fresh "Hcode" in
             destruct (String.eqb_spec (Code e) k) as [H|H]; cbn
         end;
  split; intros; try discriminate; try congruence;
  repeat match goal with
         | H : Code e = _, H' : Code e = _ |- _ => rewrite H in H'; discriminate H'
         end.

Lemma Code_IsRetryable_iff (c : ErrorCode) :
  Code_IsRetryable c = true <-> c = CodeExceedLimit \/ c = CodeServerError.
Proof.
  unfold Code_IsRetryable.
  destruct (String.eqb_spec c CodeExceedLimit) as [->|Hl]; [tauto|].
  destruct (String.eqb_spec c CodeServerError) as [->|Hs]; [tauto|].
  split; [discriminate | intros [?|?]; congruence].
Qed.

Lemma Category_rate_limit (e : APIError) :
  Category e = CategoryRateLimit <-> Code e = CodeExceedLimit.
Proof.
  unfold Category; category_cases e.
Qed.

Lemma Category_server (e : APIError) :
  Category e = CategoryServer <-> Code e = CodeServerError.
Proof.
  unfold Category; category_cases e.
Qed.

(** C5. An [APIError] is retryable exactly when its code is
    [error_exceed_limit] or [error_server] (the rate_limit and server
    categories), or its HTTP status is 429, 503 or at least 500; every other
    combination of code and status is not retryable. *)
Theorem IsRetryable_iff (e : APIError) :
  (IsRetryable e = true <->
     Code e = CodeExceedLimit \/ Code e = CodeServerError
     \/ StatusCode e = 429 \/ StatusCode e = 503 \/ 500 <= StatusCode e)
  /\ (IsRetryable e = true <->
        Category e = CategoryRateLimit \/ Category e = CategoryServer
        \/ StatusCode e = 429 \/ StatusCode e = 503 \/ 500 <= StatusCode e)
  /\ (IsRetryable e = false <->
        Code e <> CodeExceedLimit /\ Code e <> CodeServerError
        /\ StatusCode e <> 429 /\ StatusCode e < 500).
Proof.
  assert (H : IsRetryable e = true <->
              Code e = CodeExceedLimit \/ Code e = CodeServerError
              \/ StatusCode e = 429 \/ StatusCode e = 503 \/ 500 <= StatusCode e).
  { unfold IsRetryable, StatusTooManyRequests, StatusServiceUnavailable.
    destruct (Code_IsRetryable (Code e)) eqn:Hc.
    - apply Code_IsRetryable_iff in Hc. tauto.
    - assert (Hn : ~ (Code e = CodeExceedLimit \/ Code e = CodeServerError)).
      { rewrite <- Code_IsRetryable_iff. congruence. }
      rewrite !orb_true_iff, !Z.eqb_eq, Z.leb_le. tauto. }
  split; [exact H|]. split.
  - rewrite H, Category_rate_limit, Category_server. tauto.
  - rewrite <- not_true_iff_false, H. split.
    + intros Hn. repeat split; try (intros Heq; apply Hn; tauto).
      destruct (Z.lt_ge_cases (StatusCode e) 500) as [Hlt|Hge]; [exact Hlt|].
      exfalso; apply Hn; tauto.
    + intros (H1 & H2 & H3 & H4) [?|[?|[?|[?|?]]]]; try contradiction; lia.
Qed.

End ErrorFacts.

(** ** Float helpers *)

Section FloatFacts.

Lemma Qltb_true (x y : Q) : Qltb x y = true <-> (x < y)%Q.
Proof.
  unfold Qltb. rewrite negb_true_iff, <- not_true_iff_false, Qle_bool_iff.
  split; [apply Qnot_le_lt | apply Qlt_not_le].
Qed.

Lemma Qltb_false (x y : Q) : Qltb x y = false <-> (y <= x)%Q.
Proof.
  unfold Qltb. rewrite negb_false_iff. apply Qle_bool_iff.
Qed.

(** Truncation never rounds above an integer bound. *)
Lemma Qtrunc_le (q : Q) (m : Z) : (q <= inject_Z m)%Q -> Qtrunc q <= m.
Proof.
  unfold Qle, Qtrunc; cbn. rewrite Z.mul_1_r. intros H.
  rewrite <- (Z.quot_mul m (Zpos (Qden q))) by lia.
  apply Z.quot_le_mono; lia.
Qed.

Lemma Seconds_nonneg (d : Duration) : 0 <= d -> (0 <= Seconds d)%Q.
Proof.
  intros H. unfold Seconds, Second, Qdiv, Qle; cbn. lia.
Qed.

(** [float64(z)] is [z] itself up to [2^53]. *)
Lemma float64_of_int_exact (z : Z) :
  Z.abs z <= 2 ^ 53 -> float64_of_int z = inject_Z z.
Proof.
  intros H. unfold float64_of_int.
  destruct (Z.abs z <=? 2 ^ 53) eqn:E; [reflexivity|].
  apply Z.leb_gt in E. lia.
Qed.

Lemma Qtrunc_inject_Z (z : Z) : Qtrunc (inject_Z z) = z.
Proof. unfold Qtrunc; cbn. apply Z.quot_1_r. Qed.

Lemma int64_of_float_int (z : Z) :
  MinInt64 <= z <= MaxInt64 -> int64_of_float (Fin (inject_Z z)) = z.
Proof.
  intros H. unfold int64_of_float. rewrite Qtrunc_inject_Z.
  destruct (MinInt64 <=? z) eqn:E1; destruct (z <=? MaxInt64) eqn:E2; cbn;
    try reflexivity;
    first [apply Z.leb_gt in E1 | apply Z.leb_gt in E2]; lia.
Qed.

(** A double that is not above an integer converts to an integer that is not
    above it either, whatever the conversion gives out of range. *)
Lemma int64_of_float_le (x : xfloat) (m : Z) :
  MinInt64 <= m ->
  match x with
  | Fin q => (q <= inject_Z m)%Q
  | PosInf => False
  | NegInf | NaN => True
  end ->
  int64_of_float x <= m.
Proof.
  intros Hm Hx.
  destruct x as [q| | |]; cbn [int64_of_float]; try assumption; try contradiction.
  destruct ((MinInt64 <=? Qtrunc q) && (Qtrunc q <=? MaxInt64)); [|assumption].
  apply Qtrunc_le, Hx.
Qed.

(** What the cap test leaves through: NaN, minus infinity and the finite
    values up to the cap. *)
Lemma xgt_false_le (x : xfloat) (m : Q) :
  xgt x (Fin m) = false ->
  match x with
  | Fin q => (q <= m)%Q
  | PosInf => False
  | NegInf | NaN => True
  end.
Proof.
  destruct x as [q| | |]; cbn; intros H; try exact I; try discriminate.
  apply Qltb_false, H.
Qed.

Lemma overflowAt_pos : (0 < overflowAt)%Q.
Proof. vm_compute. reflexivity. Qed.

(** A result between the two overflow thresholds stays finite. *)
Lemma fin_finite (q : Q) :
  (- overflowAt < q)%Q -> (q < overflowAt)%Q -> fin q = Fin q.
Proof.
  intros Hlo Hhi. unfold fin.
  destruct (Qle_bool overflowAt q) eqn:E1.
  { apply Qle_bool_iff in E1. exfalso. apply (Qlt_not_le _ _ Hhi E1). }
  destruct (Qle_bool q (- overflowAt)) eqn:E2.
  { apply Qle_bool_iff in E2. exfalso. apply (Qlt_not_le _ _ Hlo E2). }
  reflexivity.
Qed.

Lemma fin_zero (q : Q) : (q == 0)%Q -> fin q = Fin q.
Proof.
  intros H. pose proof overflowAt_pos as Hp.
  apply fin_finite; rewrite H; [|exact Hp].
  apply Qopp_lt_compat in Hp. exact Hp.
Qed.

Lemma infOfSign_zero (q : Q) : (q == 0)%Q -> infOfSign q = NaN.
Proof.
  intros H. unfold infOfSign.
  destruct (Qltb 0 q) eqn:E1.
  { apply Qltb_true in E1. rewrite H in E1. discriminate. }
  destruct (Qltb q 0) eqn:E2.
  { apply Qltb_true in E2. rewrite H in E2. discriminate. }
  reflexivity.
Qed.

(** Zero and NaN: what a product with a zero factor can be. *)
Lemma xmul_zero_l (x y : xfloat) :
  match x with Fin q => (q == 0)%Q | NaN => True | _ => False end ->
  match xmul x y with Fin q => (q == 0)%Q | NaN => True | _ => False end.
Proof.
  destruct x as [a| | |]; try contradiction; intros Ha; [|exact I].
  destruct y as [b| | |]; cbn [xmul].
  - assert (Hab : (a * b == 0)%Q) by (rewrite Ha; ring).
    rewrite (fin_zero _ Hab). exact Hab.
  - rewrite (infOfSign_zero a Ha). exact I.
  - rewrite (infOfSign_zero (- a)); [exact I|]. rewrite Ha. reflexivity.
  - exact I.
Qed.

Lemma xadd_zero (x y : xfloat) :
  match x with Fin q => (q == 0)%Q | NaN => True | _ => False end ->
  match y with Fin q => (q == 0)%Q | NaN => True | _ => False end ->
  match xadd x y with Fin q => (q == 0)%Q | NaN => True | _ => False end.
Proof.
  destruct x as [a| | |]; try contradiction; intros Ha;
    destruct y as [b| | |]; try contradiction; intros Hb; cbn [xadd]; try exact I.
  assert (Hab : (a + b == 0)%Q) by (rewrite Ha, Hb; ring).
  rewrite (fin_zero _ Hab). exact Hab.
Qed.

(** A zero or NaN delay stays zero or less through the cap and the
    conversion. *)
Lemma int64_of_float_capped_zero (d : xfloat) (c : Q) :
  match d with Fin q => (q == 0)%Q | NaN => True | _ => False end ->
  int64_of_float (if xgt d (Fin c) then Fin c else d) <= 0.
Proof.
  intros Hd.
  assert (Hmin : MinInt64 <= 0) by (unfold MinInt64; lia).
  destruct d as [q| | |]; try contradiction; cbn [xgt].
  - destruct (Qltb c q) eqn:Hcap; apply int64_of_float_le; try exact Hmin.
    + apply Qltb_true in Hcap. rewrite Hd in Hcap. apply Qlt_le_weak, Hcap.
    + rewrite Hd. apply Qle_refl.
  - apply int64_of_float_le; [exact Hmin | exact I].
Qed.

(** [wrap64] differs from the exact result by a multiple of [2^64] and lands
    in the [int64] range. *)
Lemma wrap64_spec (z : Z) :
  exists k, wrap64 z = z + k * 2 ^ 64 /\ MinInt64 <= wrap64 z <= MaxInt64.
Proof.
  unfold wrap64, MinInt64, MaxInt64.
  pose proof (Z.div_mod (z + 2 ^ 63) (2 ^ 64)) as Hdm.
  pose proof (Z.mod_pos_bound (z + 2 ^ 63) (2 ^ 64)) as Hb.
  exists (- ((z + 2 ^ 63) / 2 ^ 64)). lia.
Qed.

Lemma wrap64_small (z : Z) : MinInt64 <= z <= MaxInt64 -> wrap64 z = z.
Proof.
  intros H. destruct (wrap64_spec z) as (k & Hk & Hr).
  unfold MinInt64, MaxInt64 in *. lia.
Qed.

End FloatFacts.

(** ** Backoff delays *)

Section DelayFacts.

(** C8, as the code has it. [DelayForAttempt] adds the jitter first and caps
    the result at [maxDelay] afterwards: for every policy whose [maxDelay]
    is between 0 and [2^53] nanoseconds (the range in which
    [float64(maxDelay)] is [maxDelay] itself), every attempt number and every
    jitter draw, the delay returned is at most [maxDelay]. This holds
    whatever the delay was before the cap: finite, infinite or NaN. *)
Theorem DelayForAttempt_capped (p : RetryPolicy) (attempt : Z) (rnd : float64) :
  0 <= maxDelay p <= 2 ^ 53 ->
  DelayForAttempt p attempt rnd <= maxDelay p.
Proof.
  intros Hmax. unfold DelayForAttempt.
  destruct (attempt <=? 0); [lia|].
  assert (Hmin : MinInt64 <= maxDelay p) by (unfold MinInt64; lia).
  unfold delayFloat. rewrite (float64_of_int_exact (maxDelay p)) by lia.
  match goal with |- context [xgt ?d0 _] => generalize d0; intros d end.
  destruct (xgt d (Fin (inject_Z (maxDelay p)))) eqn:Hcap.
  - rewrite int64_of_float_int; [lia|]. unfold MaxInt64. lia.
  - apply int64_of_float_le; [exact Hmin|]. apply xgt_false_le, Hcap.
Qed.

Lemma DelayForAttempt_capped_witness :
  0 <= maxDelay (WithJitter DefaultRetryPolicy (1 # 2)) <= 2 ^ 53
  /\ DelayForAttempt (WithJitter DefaultRetryPolicy (1 # 2)) 6 (3 # 4)
     <= maxDelay (WithJitter DefaultRetryPolicy (1 # 2)).
Proof.
  split; [vm_compute; split; discriminate|].
  apply (DelayForAttempt_capped _ 6 (3 # 4)). vm_compute; split; discriminate.
Defined.

(** C8, as the claim words it, fails. With initialDelay 1s, multiplier 2,
    maxDelay 30s and jitterFactor 1/2, attempt 6 and the draw 3/4 the
    exponential delay is 32s and the jitter +8s: the code returns exactly
    [maxDelay], 30s, where capping before the jitter would return 37.5s. *)
Lemma DelayForAttempt_caps_after_jitter :
  let p := WithJitter DefaultRetryPolicy (1 # 2) in
  DelayForAttempt p 6 (3 # 4) = maxDelay p
  /\ DelayForAttempt_capBeforeJitter p 6 (3 # 4) = 37500000000
  /\ DelayForAttempt p 6 (3 # 4) <> DelayForAttempt_capBeforeJitter p 6 (3 # 4)
  /\ ~ (maxDelay p < DelayForAttempt p 6 (3 # 4)).
Proof.
  vm_compute. repeat split; congruence.
Qed.

(** The growth of the delays without jitter (1s, 2s, 4s, 8s, 16s, then the
    cap). *)
(** Beyond [2^53] the cap itself is rounded: with maxDelay [2^53 + 3] ns and
    an initial delay of a year, the delay of attempt 1 is [float64(maxDelay)],
    one nanosecond above [maxDelay]. *)
Example DelayForAttempt_rounded_cap :
  let p := WithMaxDelay (WithInitialDelay (WithJitter DefaultRetryPolicy 0%Q)
                                          (365 * 24 * 3600 * Second))
                        (2 ^ 53 + 3) in
  DelayForAttempt p 1 0%Q = maxDelay p + 1.
Proof. vm_compute. reflexivity. Qed.

(** With maxDelay [MaxInt64] the cap is [2^63] as a double, which no [int64]
    holds: the delay of attempt 35 of the default backoff comes out as
    [MinInt64]. *)
Example DelayForAttempt_cap_out_of_range :
  let p := WithMaxDelay (WithJitter DefaultRetryPolicy 0%Q) MaxInt64 in
  DelayForAttempt p 35 0%Q = MinInt64.
Proof. vm_compute. reflexivity. Qed.

(** A product that overflows and a jitter of the opposite sign give NaN,
    which the cap test lets through. *)
Example DelayForAttempt_nan :
  DelayForAttempt DefaultRetryPolicy 1100 (1 # 4) = MinInt64.
Proof. vm_compute. reflexivity. Qed.

Example backoff_growth :
  let p := WithJitter DefaultRetryPolicy 0%Q in
  map (fun a => DelayForAttempt p a 0%Q) [1; 2; 3; 4; 5; 6]
  = [1 * Second; 2 * Second; 4 * Second; 8 * Second; 16 * Second; 30 * Second].
Proof. reflexivity. Qed.

End DelayFacts.

(** ** Webhook signatures *)

Section SignatureFacts.

Lemma xorAcc_same (x : list byte) (v : Z) : Crypto.xorAcc v x x = v.
Proof.
  revert v; induction x as [|a x IH]; intros v; cbn; [reflexivity|].
  rewrite IH, Z.lxor_nilpotent, Z.lor_0_r. reflexivity.
Qed.

Lemma hmac_Equal_refl (x : list byte) : Crypto.hmac_Equal x x = true.
Proof.
  unfold Crypto.hmac_Equal. rewrite Nat.eqb_refl; cbn.
  rewrite xorAcc_same. reflexivity.
Qed.

Lemma byteZ_inj (a b : byte) : Crypto.byteZ a = Crypto.byteZ b -> a = b.
Proof.
  unfold Crypto.byteZ. intros H. apply N2Z.inj in H.
  assert (Hs : Some a = Some b) by (rewrite <- !Byte.of_to_N, H; reflexivity).
  congruence.
Qed.

Lemma byteZ_nonneg (a : byte) : 0 <= Crypto.byteZ a.
Proof. unfold Crypto.byteZ. lia. Qed.

Lemma xorAcc_zero (x y : list byte) (v : Z) :
  length x = length y -> Crypto.xorAcc v x y = 0 -> v = 0 /\ x = y.
Proof.
  revert y v; induction x as [|a x IH]; intros [|b y] v Hlen; cbn in *;
    try discriminate; [tauto|].
  intros H. apply IH in H; [|congruence].
  destruct H as [H ->]. apply Z.lor_eq_0_iff in H. destruct H as [-> H].
  apply Z.lxor_eq in H. apply byteZ_inj in H. subst; tauto.
Qed.

(** [hmac.Equal] decides equality of the two byte slices. *)
Lemma hmac_Equal_iff (x y : list byte) : Crypto.hmac_Equal x y = true <-> x = y.
Proof.
  split; [|intros ->; apply hmac_Equal_refl].
  unfold Crypto.hmac_Equal.
  destruct (Nat.eqb_spec (length x) (length y)) as [Hlen|]; cbn; [|discriminate].
  rewrite Z.eqb_eq. intros H. apply (xorAcc_zero _ _ _ Hlen H).
Qed.

(** C9. Signing then verifying: for every key, base URL and body,
    [VerifyWebhook] accepts the hex HMAC-SHA256 signature the same signer
    computes over the base URL, a bar and the body. *)
Theorem VerifyWebhook_sign (s : Signature) (baseURL : string) (body : list byte) :
  VerifyWebhook s baseURL body (sign s (baseURL +:+ "|" +:+ string_of_list_byte body)) = true.
Proof.
  unfold VerifyWebhook. apply hmac_Equal_refl.
Qed.

(** The model of HMAC-SHA256 on the test case 2 of RFC 4231. *)
Example sign_rfc4231 :
  sign (NewSignature "Jefe") "what do ya want for nothing?"
  = "5bdcc146bf60754e6a042426089575c75a003f089d2739839dec58b964ec3843".
Proof. vm_compute. reflexivity. Qed.

End SignatureFacts.

(** ** Token buckets *)

Section BucketFacts.

Lemma inject_Z_nonneg (z : Z) : 0 <= z -> (0 <= inject_Z z)%Q.
Proof. intros H. unfold Qle; cbn. lia. Qed.

(** One [take] re-establishes the bound and leaves capacity and rate alone. *)
Lemma take_bucketBound (tb : tokenBucket) (t : Z) :
  (0 <= tokens tb)%Q -> (0 <= maxTokens tb)%Q -> (0 <= refillRate tb)%Q ->
  lastRefill tb <= t ->
  bucketBound (snd (take tb t))
  /\ maxTokens (snd (take tb t)) = maxTokens tb
  /\ refillRate (snd (take tb t)) = refillRate tb
  /\ lastRefill (snd (take tb t)) = t.
Proof.
  intros Htok Hmax Hrate Ht. unfold take.
  assert (He : (0 <= Seconds (t - lastRefill tb)%Z * refillRate tb)%Q).
  { apply Qmult_le_0_compat; [apply Seconds_nonneg; lia | exact Hrate]. }
  set (e := (Seconds (t - lastRefill tb)%Z * refillRate tb)%Q) in *.
  destruct (Qltb (maxTokens tb) (tokens tb + e)) eqn:Hcap;
    [apply Qltb_true in Hcap | apply Qltb_false in Hcap];
    match goal with |- context [Qle_bool 1 ?x] => destruct (Qle_bool 1 x) eqn:Hone end;
    try apply Qle_bool_iff in Hone;
    unfold bucketBound; cbn; repeat split; lra.
Qed.

Lemma takes_bucketBound_from (times : list Z) (tb : tokenBucket) :
  (0 <= tokens tb)%Q -> (tokens tb <= maxTokens tb)%Q -> (0 <= refillRate tb)%Q ->
  nondecreasing (lastRefill tb) times = true ->
  Forall bucketBound (takes tb times).
Proof.
  revert tb; induction times as [|t rest IH]; intros tb Htok Hmax Hrate Hmono; cbn.
  - constructor.
  - cbn in Hmono. apply andb_true_iff in Hmono. destruct Hmono as [Ht Hrest].
    apply Z.leb_le in Ht.
    destruct (take_bucketBound tb t) as ([Hlo Hhi] & Hm & Hr & Hl);
      [lra | lra | lra | lia |].
    constructor; [split; assumption|].
    apply IH; [exact Hlo | exact Hhi | rewrite Hr; exact Hrate | rewrite Hl; exact Hrest].
Qed.

(** C6. For a bucket created with a non-negative burst and a positive rate,
    whatever the (non-negative) times elapsed between the calls, the bucket
    satisfies [0 <= tokens <= maxTokens] after every [take]. *)
Theorem takes_bucketBound (rps burst t0 : Z) (times : list Z) :
  0 <= burst -> 0 < rps -> nondecreasing t0 times = true ->
  Forall bucketBound (takes (newTokenBucket rps burst t0) times).
Proof.
  intros Hburst Hrps Hmono.
  apply takes_bucketBound_from; cbn; try assumption.
  - apply inject_Z_nonneg; lia.
  - apply Qle_refl.
  - apply inject_Z_nonneg; lia.
Qed.

Lemma takes_bucketBound_witness :
  Forall bucketBound
    (takes (newTokenBucket 10 2 0) [0; 0; 0; 50000000; 1000000000; 7000000000]).
Proof.
  apply (takes_bucketBound 10 2 0); [lia | lia | reflexivity].
Defined.

(** The waits of 21 calls in a row on a bucket of rate 10 and burst 20: the
    first 20 are admitted, the next one is told to wait 100ms. *)
Example take_burst_then_wait :
  let fix waits (n : nat) (tb : tokenBucket) : list Duration :=
    match n with
    | O => []
    | S n' => fst (take tb 0) :: waits n' (snd (take tb 0))
    end in
  waits 21%nat (newTokenBucket 10 20 0) = repeat 0 20 ++ [100000000].
Proof. vm_compute. reflexivity. Qed.

End BucketFacts.

(** ** Bucket selection *)

Section SelectionFacts.

Lemma append_String (a : ascii) (s r : string) :
  String a s +:+ r = String a (s +:+ r).
Proof. reflexivity. Qed.

(** [hasPrefix] is the prefix relation on strings. *)
Lemma hasPrefix_iff (prefix path : string) :
  hasPrefix path prefix = true <-> exists rest, path = prefix +:+ rest.
Proof.
  unfold hasPrefix. revert path; induction prefix as [|a prefix IH]; intros path.
  - cbn. destruct path; cbn; split; eauto.
  - destruct path as [|b path]; cbn.
    + split; [discriminate | intros [rest H]; discriminate H].
    + specialize (IH path). rewrite andb_true_iff, Nat.leb_le, String.eqb_eq in IH.
      destruct (Ascii.eqb_spec b a) as [->|Hne].
      * rewrite andb_true_iff, Nat.leb_le, String.eqb_eq, IH.
        split; intros [rest Heq]; exists rest;
          rewrite append_String in *; congruence.
      * rewrite andb_false_r. split; [discriminate|].
        intros [rest Heq]. rewrite append_String in Heq. congruence.
Qed.

Lemma firstMatch_Some (path : string) (order : list (string * PathLimit))
      (prefix : string) (limit : PathLimit) :
  firstMatch path order = Some (prefix, limit) ->
  (prefix, limit) ∈ order /\ hasPrefix path prefix = true.
Proof.
  induction order as [|[k l] rest IH]; cbn; [discriminate|].
  destruct (hasPrefix path k) eqn:Hk.
  - intros [= -> ->]. split; [left | exact Hk].
  - intros H. destruct (IH H) as [Hin Hp]. split; [right; exact Hin | exact Hp].
Qed.

Lemma firstMatch_None (path : string) (order : list (string * PathLimit)) :
  firstMatch path order = None <->
  forall prefix limit, (prefix, limit) ∈ order -> hasPrefix path prefix = false.
Proof.
  induction order as [|[k l] rest IH]; cbn.
  - split; [intros _ ? ? Hin; inversion Hin | reflexivity].
  - destruct (hasPrefix path k) eqn:Hk.
    + split; [discriminate|]. intros H. rewrite (H k l) in Hk by left. discriminate.
    + rewrite IH. split.
      * intros H prefix limit Hin. inversion Hin; subst; [exact Hk | eauto].
      * intros H prefix limit Hin. apply (H prefix limit). right; exact Hin.
Qed.

Lemma IterationOrder_lookup (m : gmap string PathLimit) (order : list (string * PathLimit))
      (prefix : string) (limit : PathLimit) :
  IterationOrder m order -> ((prefix, limit) ∈ order <-> m !! prefix = Some limit).
Proof.
  unfold IterationOrder. intros ->. apply elem_of_map_to_list.
Qed.

(** C7, as the code has it. Whatever order the map iteration takes:
    a path that no registered prefix matches gets the key "default" and the
    default RPS and burst, and a limiter without a "default" bucket creates
    it with them; a path that some registered prefix matches gets a
    registered prefix that matches it, with that prefix's limits when both
    loops visit in the same order; and when exactly one registered prefix
    matches, that one is chosen. *)
Theorem findBucketKey_registered_prefix
        (rl : RateLimiter) (order : list (string * PathLimit)) (path : string) :
  IterationOrder (PathLimits (config rl)) order ->
  ((forall prefix limit, PathLimits (config rl) !! prefix = Some limit ->
                         hasPrefix path prefix = false) ->
   findBucketKey order path = "default"
   /\ getLimitForPath rl order path = (DefaultRPS (config rl), DefaultBurst (config rl))
   /\ forall order' t, IterationOrder (PathLimits (config rl)) order' ->
        buckets rl !! "default" = None ->
        getBucket rl order order' path t
        = ("default",
           {| buckets := <["default" := newTokenBucket (DefaultRPS (config rl))
                                          (DefaultBurst (config rl)) t]> (buckets rl);
              config := config rl |}))
  /\ ((exists prefix limit, PathLimits (config rl) !! prefix = Some limit
                            /\ hasPrefix path prefix = true) ->
      exists prefix limit rest,
        PathLimits (config rl) !! prefix = Some limit
        /\ path = prefix +:+ rest
        /\ findBucketKey order path = prefix
        /\ getLimitForPath rl order path = (RPS limit, Burst limit))
  /\ (forall prefix limit,
        PathLimits (config rl) !! prefix = Some limit ->
        hasPrefix path prefix = true ->
        (forall k l, PathLimits (config rl) !! k = Some l ->
                     hasPrefix path k = true -> k = prefix) ->
        findBucketKey order path = prefix
        /\ getLimitForPath rl order path = (RPS limit, Burst limit)).
Proof.
  intros Hord.
  assert (Hnone : forall o, IterationOrder (PathLimits (config rl)) o ->
            (forall prefix limit, PathLimits (config rl) !! prefix = Some limit ->
                                  hasPrefix path prefix = false) ->
            firstMatch path o = None).
  { intros o Ho Hno. apply firstMatch_None. intros prefix limit Hin.
    apply (Hno prefix limit), (IterationOrder_lookup _ _ _ _ Ho), Hin. }
  assert (Hsome : (exists prefix limit, PathLimits (config rl) !! prefix = Some limit
                                        /\ hasPrefix path prefix = true) ->
            exists prefix limit, firstMatch path order = Some (prefix, limit)
                                 /\ PathLimits (config rl) !! prefix = Some limit
                                 /\ hasPrefix path prefix = true).
  { intros (prefix & limit & Hreg & Hp).
    destruct (firstMatch path order) as [[k l]|] eqn:Hfm.
    - destruct (firstMatch_Some _ _ _ _ Hfm) as [Hin Hk].
      exists k, l. repeat split; [|exact Hk].
      apply (IterationOrder_lookup _ _ _ _ Hord), Hin.
    - rewrite firstMatch_None in Hfm.
      rewrite (Hfm prefix limit) in Hp; [discriminate|].
      apply (IterationOrder_lookup _ _ _ _ Hord), Hreg. }
  split; [|split].
  - intros Hno. split; [|split].
    + unfold findBucketKey. rewrite (Hnone order Hord Hno). reflexivity.
    + unfold getLimitForPath. rewrite (Hnone order Hord Hno). reflexivity.
    + intros order' t Hord' Hfresh. unfold getBucket, findBucketKey, getLimitForPath.
      rewrite (Hnone order Hord Hno), (Hnone order' Hord' Hno), Hfresh. reflexivity.
  - intros Hex. destruct (Hsome Hex) as (k & l & Hfm & Hreg & Hk).
    apply hasPrefix_iff in Hk. destruct Hk as [rest ->].
    exists k, l, rest. unfold findBucketKey, getLimitForPath. rewrite Hfm. auto.
  - intros prefix limit Hreg Hp Huniq.
    destruct Hsome as (k & l & Hfm & Hreg' & Hk); [eauto|].
    assert (k = prefix) by eauto. subst k.
    assert (l = limit) by congruence. subst l.
    unfold findBucketKey, getLimitForPath. rewrite Hfm. auto.
Qed.

Lemma findBucketKey_registered_prefix_witness :
  let shop := {| RPS := 10; Burst := 15 |} in
  let rl := NewRateLimiter {| DefaultRPS := 10; DefaultBurst := 20;
                              PathLimits := {[ "/api/v2/shop/" := shop ]} |} in
  let order := [("/api/v2/shop/", shop)] in
  IterationOrder (PathLimits (config rl)) order
  /\ findBucketKey order "/api/v2/returns/confirm" = "default"
  /\ findBucketKey order "/api/v2/shop/get_shop_info" = "/api/v2/shop/".
Proof.
  intros shop rl order.
  assert (Hord : IterationOrder (PathLimits (config rl)) order).
  { unfold IterationOrder, rl, order; cbn [config PathLimits NewRateLimiter].
    rewrite map_to_list_singleton. reflexivity. }
  split; [exact Hord|]. split.
  - apply (findBucketKey_registered_prefix rl order "/api/v2/returns/confirm" Hord).
    intros prefix limit Hreg. cbn [config PathLimits NewRateLimiter rl] in Hreg.
    apply lookup_singleton_Some in Hreg. destruct Hreg as [<- _]. reflexivity.
  - apply (findBucketKey_registered_prefix rl order "/api/v2/shop/get_shop_info" Hord)
      with (limit := shop).
    + cbn [config PathLimits NewRateLimiter rl]. apply lookup_singleton_eq.
    + reflexivity.
    + intros k l Hreg _. cbn [config PathLimits NewRateLimiter rl] in Hreg.
      apply lookup_singleton_Some in Hreg. destruct Hreg as [<- _]. reflexivity.
Defined.

(** C7, as the claim words it, fails. With the prefixes "/api/" and
    "/api/v2/" registered and the iteration visiting "/api/" first, the path
    "/api/v2/shop" is given the key "/api/" and its limits, although the
    longer registered prefix "/api/v2/" matches too. *)
Lemma findBucketKey_not_longest :
  let general := {| RPS := 1; Burst := 1 |} in
  let special := {| RPS := 2; Burst := 2 |} in
  let limits : gmap string PathLimit := <["/api/" := general]> (<["/api/v2/" := special]> ∅) in
  let rl := NewRateLimiter {| DefaultRPS := 10; DefaultBurst := 20; PathLimits := limits |} in
  let order := [("/api/", general); ("/api/v2/", special)] in
  IterationOrder limits order
  /\ findBucketKey order "/api/v2/shop" = "/api/"
  /\ getLimitForPath rl order "/api/v2/shop" = (1, 1)
  /\ limits !! "/api/v2/" = Some special
  /\ hasPrefix "/api/v2/shop" "/api/v2/" = true
  /\ (String.length "/api/" < String.length "/api/v2/")%nat.
Proof.
  intros general special limits rl order.
  split; [|split; [|split; [|split; [|split]]]].
  - unfold IterationOrder, limits, order.
    rewrite map_to_list_insert by (rewrite lookup_insert_ne by discriminate; apply lookup_empty).
    rewrite map_to_list_insert by apply lookup_empty.
    rewrite map_to_list_empty. reflexivity.
  - reflexivity.
  - reflexivity.
  - unfold limits. rewrite lookup_insert_ne by discriminate. apply lookup_insert_eq.
  - reflexivity.
  - cbn. lia.
Qed.

End SelectionFacts.

(** ** The retry loop *)

Section ExecutorFacts.
Context {St : Type}.
Implicit Types (p : RetryPolicy) (ctx : Context) (w : World St).

Lemma rand_Float64_st w : st (snd (rand_Float64 w)) = st w.
Proof. unfold rand_Float64. destruct (rand w); reflexivity. Qed.

Lemma DelayForAttemptW_st p attempt w :
  st (snd (DelayForAttemptW p attempt w)) = st w.
Proof.
  unfold DelayForAttemptW.
  destruct (attempt <=? 0); [reflexivity|].
  destruct (Qltb 0 (jitterFactor p)); [|reflexivity].
  pose proof (rand_Float64_st w) as H.
  destruct (rand_Float64 w) as [r w']. exact H.
Qed.

(** Waiting touches the clock and the random stream only. *)
Lemma WaitForRetry_st p ctx attempt w :
  st (snd (WaitForRetry p ctx attempt w)) = st w.
Proof.
  unfold WaitForRetry.
  pose proof (DelayForAttemptW_st p attempt w) as H.
  destruct (DelayForAttemptW p attempt w) as [delay w1]; cbn in H.
  destruct (delay <=? 0); [exact H|].
  destruct (doneAt ctx) as [t|]; [destruct (t <=? now w1 + delay)|]; exact H.
Qed.

(** With a context that is never done, every wait runs to its end. *)
Lemma WaitForRetry_uncancelled p ctx attempt w :
  doneAt ctx = None -> fst (WaitForRetry p ctx attempt w) = true.
Proof.
  intros Hctx. unfold WaitForRetry.
  destruct (DelayForAttemptW p attempt w) as [delay w1].
  destruct (delay <=? 0); [reflexivity|]. rewrite Hctx. reflexivity.
Qed.

(** An invariant of the operation on the state is an invariant of the loop. *)
Lemma executeLoop_preserves (I : St -> Prop) p ctx (operation : Operation) :
  (forall w, I (st w) -> I (st (snd (operation w)))) ->
  forall remaining attempt result w,
    I (st w) -> I (st (snd (executeLoop p ctx operation remaining attempt result w))).
Proof.
  intros Hop. induction remaining as [|remaining IH]; intros attempt result w Hw; cbn.
  - exact Hw.
  - specialize (Hop w Hw). destruct (operation w) as [[e|] w1]; cbn in *; [|exact Hop].
    destruct (ShouldRetry p (Some e) attempt); cbn; [|exact Hop].
    destruct (attempt <? maxAttempts p); [|apply IH; exact Hop].
    pose proof (WaitForRetry_st p ctx attempt w1) as Hst.
    destruct (WaitForRetry p ctx attempt w1) as [[|] w2]; cbn in *.
    + apply IH. rewrite Hst. exact Hop.
    + rewrite Hst. exact Hop.
Qed.

Lemma Execute_preserves (I : St -> Prop) p ctx (operation : Operation) w :
  (forall w, I (st w) -> I (st (snd (operation w)))) ->
  I (st w) -> I (st (snd (Execute p ctx operation w))).
Proof.
  intros Hop Hw. unfold Execute.
  pose proof (executeLoop_preserves I p ctx operation Hop (Z.to_nat (maxAttempts p)) 1
                {| Attempts := 0; LastError := None; Duration_ := 0 |} w Hw) as H.
  destruct (executeLoop _ _ _ _ _ _ _) as [res w']. exact H.
Qed.

(** A measure the operation raises by at most one per call is raised by at
    most the number of iterations. *)
Lemma executeLoop_measure (f : St -> nat) p ctx (operation : Operation) :
  (forall w, (f (st (snd (operation w))) <= S (f (st w)))%nat) ->
  forall remaining attempt result w,
    (f (st (snd (executeLoop p ctx operation remaining attempt result w)))
     <= f (st w) + remaining)%nat.
Proof.
  intros Hop. induction remaining as [|remaining IH]; intros attempt result w; cbn.
  - lia.
  - specialize (Hop w). destruct (operation w) as [[e|] w1]; cbn in *; [|lia].
    destruct (ShouldRetry p (Some e) attempt); cbn; [|lia].
    destruct (attempt <? maxAttempts p).
    + pose proof (WaitForRetry_st p ctx attempt w1) as Hst.
      destruct (WaitForRetry p ctx attempt w1) as [[|] w2]; cbn in *.
      * specialize (IH (attempt + 1) (set_LastError (Some e) (set_Attempts attempt result)) w2).
        rewrite Hst in IH. lia.
      * rewrite Hst. lia.
    + specialize (IH (attempt + 1) (set_LastError (Some e) (set_Attempts attempt result)) w1).
      lia.
Qed.

(** The loop on an operation that always fails with the retryable [e]. *)
Lemma executeLoop_always_failing p ctx (operation : Operation) (e : APIError)
      (calls : St -> nat) :
  doneAt ctx = None ->
  IsRetryable e = true ->
  (forall w, fst (operation w) = Some (ErrAPI e)) ->
  (forall w, calls (st (snd (operation w))) = S (calls (st w))) ->
  forall remaining attempt result w,
    attempt + Z.of_nat remaining = maxAttempts p ->
    let out := executeLoop p ctx operation (S remaining) attempt result w in
    Attempts (fst out) = maxAttempts p
    /\ LastError (fst out) = Some (ErrAPI e)
    /\ calls (st (snd out)) = (calls (st w) + S remaining)%nat.
Proof.
  intros Hctx Hretry Hfail Hcalls.
  induction remaining as [|remaining IH]; intros attempt result w Hat.
  - cbn in *. specialize (Hfail w). specialize (Hcalls w).
    destruct (operation w) as [err w1]; cbn in *. subst err.
    unfold ShouldRetry. replace (maxAttempts p <=? attempt) with true
      by (symmetry; apply Z.leb_le; lia).
    cbn. repeat split; lia.
  - remember (S remaining) as r eqn:Hr. cbn zeta in IH |- *.
    cbn [executeLoop]. pose proof (Hfail w) as Hf. pose proof (Hcalls w) as Hc.
    destruct (operation w) as [err w1]; cbn [fst snd] in *. subst err.
    assert (Hsr : ShouldRetry p (Some (ErrAPI e)) attempt = true).
    { unfold ShouldRetry. replace (maxAttempts p <=? attempt) with false
        by (symmetry; apply Z.leb_gt; lia). exact Hretry. }
    rewrite Hsr. cbn [negb].
    replace (attempt <? maxAttempts p) with true by (symmetry; apply Z.ltb_lt; lia).
    pose proof (WaitForRetry_uncancelled p ctx attempt w1 Hctx) as Hok.
    pose proof (WaitForRetry_st p ctx attempt w1) as Hst.
    destruct (WaitForRetry p ctx attempt w1) as [ok w2]; cbn [fst snd] in *. subst ok.
    cbn [negb].
    specialize (IH (attempt + 1) (set_LastError (Some (ErrAPI e)) (set_Attempts attempt result))
                   w2 ltac:(lia)).
    destruct IH as (Ha & Hl & Hn).
    repeat split; [exact Ha | exact Hl |]. rewrite Hn, Hst, Hc. lia.
Qed.

(** C4. With [maxAttempts = N >= 1], a context that is never cancelled and
    an operation that fails at every call with the same retryable
    [APIError], [Execute] calls the operation exactly [N] times ([calls] is
    any counter the operation keeps of its own invocations) and returns
    [Attempts = N] with that error as [LastError]. *)
Theorem Execute_retry_bound p ctx (operation : Operation) (e : APIError)
        (calls : St -> nat) (N : Z) w :
  maxAttempts p = N -> 1 <= N ->
  doneAt ctx = None ->
  IsRetryable e = true ->
  (forall w, fst (operation w) = Some (ErrAPI e)) ->
  (forall w, calls (st (snd (operation w))) = S (calls (st w))) ->
  Attempts (fst (Execute p ctx operation w)) = N
  /\ LastError (fst (Execute p ctx operation w)) = Some (ErrAPI e)
  /\ Z.of_nat (calls (st (snd (Execute p ctx operation w)))) = Z.of_nat (calls (st w)) + N.
Proof.
  intros HN Hpos Hctx Hretry Hfail Hcalls. unfold Execute.
  destruct (Z.to_nat (maxAttempts p)) as [|remaining] eqn:Hfuel; [lia|].
  pose proof (executeLoop_always_failing p ctx operation e calls Hctx Hretry Hfail Hcalls
                remaining 1 {| Attempts := 0; LastError := None; Duration_ := 0 |} w
                ltac:(lia)) as H.
  cbn zeta in H.
  destruct (executeLoop _ _ _ _ _ _ _) as [res w']; cbn [fst snd] in *.
  destruct H as (Ha & Hl & Hn). cbn. repeat split; [lia | exact Hl | lia].
Qed.

(** With [maxAttempts <= 0] the loop body never runs, whatever the
    operation. *)
Lemma Execute_no_attempts p ctx (operation : Operation) w :
  maxAttempts p <= 0 ->
  Execute p ctx operation w
  = ({| Attempts := 0; LastError := None; Duration_ := 0 |}, w).
Proof.
  intros Hle. unfold Execute.
  replace (Z.to_nat (maxAttempts p)) with 0%nat by lia.
  cbn. rewrite Z.sub_diag. reflexivity.
Qed.

(** The loop counts upwards: an iteration it reaches is not numbered below
    the one it started from. *)
Lemma attemptStart_ge p ctx (operation : Operation) :
  forall remaining attempt w target wk,
    attemptStart p ctx operation remaining attempt w target = Some wk ->
    attempt <= target.
Proof.
  induction remaining as [|remaining IH]; intros attempt w target wk; cbn [attemptStart].
  - discriminate.
  - destruct (Z.eqb_spec attempt target) as [->|Hne]; [lia|].
    destruct (operation w) as [[e|] w1]; [|discriminate].
    destruct (ShouldRetry p (Some e) attempt); cbn [negb]; [|discriminate].
    destruct (attempt <? maxAttempts p).
    + destruct (WaitForRetry p ctx attempt w1) as [[|] w2]; cbn [negb]; [|discriminate].
      intros H. apply IH in H. lia.
    + intros H. apply IH in H. lia.
Qed.

(** The first iteration of a loop that has one begins where the loop does. *)
Lemma attemptStart_first p ctx (operation : Operation) remaining attempt w :
  attemptStart p ctx operation (S remaining) attempt w attempt = Some w.
Proof. cbn [attemptStart]. rewrite Z.eqb_refl. reflexivity. Qed.

(** What the loop does from the iteration [target] on is the loop started
    there, with the result record as the earlier iterations left it. *)
Lemma executeLoop_from_attempt p ctx (operation : Operation) :
  forall remaining attempt result w target wk,
    attemptStart p ctx operation remaining attempt w target = Some wk ->
    exists remaining' result',
      executeLoop p ctx operation remaining attempt result w
      = executeLoop p ctx operation (S remaining') target result' wk.
Proof.
  induction remaining as [|remaining IH]; intros attempt result w target wk;
    cbn [attemptStart].
  - discriminate.
  - destruct (Z.eqb_spec attempt target) as [->|Hne].
    { intros [= ->]. exists remaining, result. reflexivity. }
    cbn [executeLoop].
    destruct (operation w) as [[e|] w1]; [|discriminate].
    destruct (ShouldRetry p (Some e) attempt); cbn [negb]; [|discriminate].
    destruct (attempt <? maxAttempts p).
    + destruct (WaitForRetry p ctx attempt w1) as [[|] w2]; cbn [negb]; [|discriminate].
      apply IH.
    + apply IH.
Qed.

(** The iterations the rest of the loop reaches are iterations of the whole
    loop. *)
Lemma attemptStart_step p ctx (operation : Operation) remaining attempt w e w1 target wk :
  operation w = (Some e, w1) ->
  ShouldRetry p (Some e) attempt = true ->
  attemptStart p ctx operation remaining (attempt + 1)
               (if attempt <? maxAttempts p then snd (WaitForRetry p ctx attempt w1) else w1)
               target = Some wk ->
  ((attempt <? maxAttempts p) = true -> fst (WaitForRetry p ctx attempt w1) = true) ->
  attemptStart p ctx operation (S remaining) attempt w target = Some wk.
Proof.
  intros Hop Hsr Hrest Hwait.
  pose proof (attemptStart_ge _ _ _ _ _ _ _ _ Hrest) as Hge.
  cbn [attemptStart].
  replace (attempt =? target) with false by (symmetry; apply Z.eqb_neq; lia).
  rewrite Hop, Hsr. cbn [negb].
  destruct (attempt <? maxAttempts p); [|exact Hrest].
  specialize (Hwait eq_refl).
  destruct (WaitForRetry p ctx attempt w1) as [ok w2]; cbn [fst snd] in *.
  subst ok. exact Hrest.
Qed.

(** A measure that an iteration raises only when it ends with an error the
    policy does not retry there, and then by one, is raised by at most one
    over the whole loop. Only the iterations the loop reaches matter. *)
Lemma executeLoop_final_step_reached (f : St -> nat) p ctx (operation : Operation) :
  forall remaining attempt result w,
    (forall k wk,
        attemptStart p ctx operation remaining attempt w k = Some wk ->
        f (st (snd (operation wk))) = f (st wk)
        \/ ((f (st (snd (operation wk))) <= S (f (st wk)))%nat
            /\ exists e, fst (operation wk) = Some e
                         /\ ShouldRetry p (Some e) k = false)) ->
    (f (st (snd (executeLoop p ctx operation remaining attempt result w)))
     <= S (f (st w)))%nat.
Proof.
  induction remaining as [|remaining IH]; intros attempt result w Hop.
  - cbn. lia.
  - pose proof (Hop attempt w (attemptStart_first _ _ _ _ _ _)) as Hfirst.
    cbn [executeLoop].
    destruct (operation w) as [[e|] w1] eqn:Hw; cbn [fst snd] in *.
    2:{ destruct Hfirst as [Hsame|(_ & e' & Hsome & _)]; [lia | discriminate Hsome]. }
    destruct (ShouldRetry p (Some e) attempt) eqn:Hsr; cbn [negb].
    2:{ cbn [fst snd]. destruct Hfirst as [Hsame|(Hle & _)]; lia. }
    destruct Hfirst as [Hsame|(_ & e' & [= <-] & Hfinal)]; [|congruence].
    pose proof (WaitForRetry_st p ctx attempt w1) as Hst.
    pose proof (fun target wk => attemptStart_step p ctx operation remaining attempt w e w1
                                   target wk Hw Hsr) as Hstep.
    destruct (attempt <? maxAttempts p).
    + destruct (WaitForRetry p ctx attempt w1) as [[|] w2]; cbn [fst snd negb] in *.
      * specialize (IH (attempt + 1) (set_LastError (Some e) (set_Attempts attempt result)) w2).
        rewrite Hst in IH. rewrite <- Hsame. apply IH.
        intros k wk Hk. apply Hop. apply Hstep; [exact Hk | reflexivity].
      * rewrite Hst. lia.
    + specialize (IH (attempt + 1) (set_LastError (Some e) (set_Attempts attempt result)) w1).
      rewrite <- Hsame. apply IH.
      intros k wk Hk. apply Hop. apply Hstep; [exact Hk | discriminate].
Qed.

(** The loop on an operation that fails with the retryable [e] at every
    iteration the loop reaches. *)
Lemma executeLoop_failing_attempts p ctx (operation : Operation) (e : APIError)
      (calls : St -> nat) :
  doneAt ctx = None ->
  IsRetryable e = true ->
  forall remaining attempt result w,
    (forall k wk,
        attemptStart p ctx operation (S remaining) attempt w k = Some wk ->
        fst (operation wk) = Some (ErrAPI e)
        /\ calls (st (snd (operation wk))) = S (calls (st wk))) ->
    attempt + Z.of_nat remaining = maxAttempts p ->
    let out := executeLoop p ctx operation (S remaining) attempt result w in
    LastError (fst out) = Some (ErrAPI e)
    /\ calls (st (snd out)) = (calls (st w) + S remaining)%nat.
Proof.
  intros Hctx Hretry.
  induction remaining as [|remaining IH]; intros attempt result w Hop Hat.
  - destruct (Hop attempt w (attemptStart_first _ _ _ _ _ _)) as [Hf Hc].
    cbn in *.
    destruct (operation w) as [err w1]; cbn in *. subst err.
    unfold ShouldRetry. replace (maxAttempts p <=? attempt) with true
      by (symmetry; apply Z.leb_le; lia).
    cbn. split; [reflexivity | lia].
  - destruct (Hop attempt w (attemptStart_first _ _ _ _ _ _)) as [Hf Hc].
    remember (S remaining) as r eqn:Hr. cbn zeta in IH |- *.
    cbn [executeLoop].
    destruct (operation w) as [err w1] eqn:Hw; cbn [fst snd] in *. subst err.
    assert (Hsr : ShouldRetry p (Some (ErrAPI e)) attempt = true).
    { unfold ShouldRetry. replace (maxAttempts p <=? attempt) with false
        by (symmetry; apply Z.leb_gt; lia). exact Hretry. }
    pose proof (fun target wk => attemptStart_step p ctx operation r attempt w _ w1
                                   target wk Hw Hsr) as Hstep.
    rewrite Hsr. cbn [negb].
    replace (attempt <? maxAttempts p) with true in * by (symmetry; apply Z.ltb_lt; lia).
    pose proof (WaitForRetry_uncancelled p ctx attempt w1 Hctx) as Hok.
    pose proof (WaitForRetry_st p ctx attempt w1) as Hst.
    destruct (WaitForRetry p ctx attempt w1) as [ok w2]; cbn [fst snd] in *. subst ok.
    cbn [negb].
    specialize (IH (attempt + 1) (set_LastError (Some (ErrAPI e)) (set_Attempts attempt result))
                   w2).
    destruct IH as (Hl & Hn).
    + intros k wk Hk. apply (Hop k). subst r. apply Hstep; [exact Hk | reflexivity].
    + lia.
    + split; [exact Hl|]. rewrite Hn, Hst, Hc. lia.
Qed.

End ExecutorFacts.

Section ExecutorWitnesses.

Lemma Execute_retry_bound_witness :
  let e := NewAPIError CodeServerError "HTTP error: 503" 503 in
  let out := Execute DefaultRetryPolicy Background (alwaysFails e) (mkWorld 0 [] 0%nat) in
  Attempts (fst out) = 3
  /\ LastError (fst out) = Some (ErrAPI e)
  /\ Z.of_nat (st (snd out)) = Z.of_nat 0 + 3.
Proof.
  intros e out.
  apply (Execute_retry_bound DefaultRetryPolicy Background (alwaysFails e) e (fun n => n) 3
           (mkWorld 0 [] 0%nat)).
  - reflexivity.
  - lia.
  - reflexivity.
  - reflexivity.
  - intros w. reflexivity.
  - intros w. reflexivity.
Defined.

(** A validation error is not retried: one attempt, that error. *)
Example Execute_validation_error :
  let e := NewAPIError CodeInvalidParam "bad item_id" 400 in
  let out := Execute DefaultRetryPolicy Background (alwaysFails e) (mkWorld 0 [] 0%nat) in
  Attempts (fst out) = 1 /\ LastError (fst out) = Some (ErrAPI e) /\ st (snd out) = 1%nat.
Proof. vm_compute. repeat split. Qed.

(** Cancellation during the backoff: with a first delay of 5s and a context
    done after 100ms, [Execute] returns at 100ms with the context's error. *)
Example Execute_cancelled_during_backoff :
  let e := NewAPIError CodeServerError "HTTP error: 503" 503 in
  let p := WithJitter (WithInitialDelay DefaultRetryPolicy (5 * Second)) 0%Q in
  let ctx := {| doneAt := Some 100000000; ctxErr := ErrPlain "context canceled" |} in
  let out := Execute p ctx (alwaysFails e) (mkWorld 0 [] 0%nat) in
  Attempts (fst out) = 1
  /\ LastError (fst out) = Some (ErrPlain "context canceled")
  /\ Duration_ (fst out) = 100000000.
Proof. vm_compute. repeat split. Qed.

End ExecutorWitnesses.

(** ** The client *)

Section ClientFacts.
Implicit Types (c : Client) (ctx : Context) (req : Request) (w : World ClientState).

Lemma count_app (f : Event -> bool) (l1 l2 : list Event) :
  count f (l1 ++ l2) = (count f l1 + count f l2)%nat.
Proof. unfold count. rewrite List.filter_app, length_app. reflexivity. Qed.

(** How one call changes the three counters of a trace. *)
Record callDelta (dw dh dr : nat) (s s' : ClientState) : Prop := {
  delta_wait    : waitCalls (trace s') = (waitCalls (trace s) + dw)%nat;
  delta_http    : httpCalls (trace s') = (httpCalls (trace s) + dh)%nat;
  delta_refresh : refreshCalls (trace s') = (refreshCalls (trace s) + dr)%nat
}.

Lemma callDelta_refl (s : ClientState) : callDelta 0 0 0 s s.
Proof. split; lia. Qed.

Lemma callDelta_http (s : ClientState) (m u : string) (b : option string) :
  callDelta 0 1 0 s (emit (EvHTTP m u b) s).
Proof.
  split; unfold waitCalls, httpCalls, refreshCalls; cbn [emit trace];
    rewrite count_app; cbn; lia.
Qed.

Lemma callDelta_refresh (s : ClientState) (rt : string) (id : Z) :
  callDelta 0 0 1 s (emit (EvRefreshToken rt id) s).
Proof.
  split; unfold waitCalls, httpCalls, refreshCalls; cbn [emit trace];
    rewrite count_app; cbn; lia.
Qed.

(** The errors [doRequest] builds with [fmt.Errorf] never read
    "access token has expired". *)
Lemma plain_errors_not_triggering (msg : string) :
  refreshTriggered (ErrPlain ("failed to marshal request body: " +:+ msg)) = false
  /\ refreshTriggered (ErrPlain ("failed to create request: " +:+ msg)) = false
  /\ refreshTriggered (ErrPlain ("request failed: " +:+ msg)) = false
  /\ refreshTriggered (ErrPlain ("failed to read response: " +:+ msg)) = false
  /\ refreshTriggered (ErrPlain ("failed to parse response: " +:+ msg)) = false.
Proof. repeat split. Qed.

(** [doRequest] makes no limiter call and no refresh call, and at most one
    HTTP call; an error that triggers a refresh comes from an HTTP call. *)
Lemma doRequest_calls c ctx req wantResult w :
  let out := doRequest c ctx req wantResult w in
  (callDelta 0 0 0 (st w) (st (snd out))
   /\ (forall e, fst out = Some e -> refreshTriggered e = false))
  \/ callDelta 0 1 0 (st w) (st (snd out)).
Proof.
  unfold doRequest.
  destruct (Body req) as [[json|msg]|].
  2: { left. split; [apply callDelta_refl|].
       intros e [= <-]. apply plain_errors_not_triggering. }
  all: destruct (NewRequestErr (httpClient c) (Method req) _) as [msg|];
    [ left; split; [apply callDelta_refl|];
      intros e [= <-]; apply plain_errors_not_triggering
    | right;
      repeat match goal with
             | |- context [match ?x with _ => _ end] => destruct x
             | |- context [if ?x then _ else _] => destruct x
             end; cbn [snd st set_st]; apply callDelta_http ].
Qed.

(** [tryRefreshToken] makes at most one refresh call and no other call. *)
Lemma tryRefreshToken_calls c ctx w :
  let out := tryRefreshToken c ctx w in
  callDelta 0 0 0 (st w) (st (snd out)) \/ callDelta 0 0 1 (st w) (st (snd out)).
Proof.
  unfold tryRefreshToken.
  destruct (tokenRefresher c) as [refresher|]; [|left; apply callDelta_refl].
  destruct (String.eqb (refreshToken (st w)) ""); [left; apply callDelta_refl|].
  right. destruct (refresher _ _ _) as [result|err]; cbn [snd st set_st].
  - destruct (callDelta_refresh (st w) (refreshToken (st w)) (shopID (st w))) as [? ? ?].
    split; assumption.
  - apply callDelta_refresh.
Qed.

(** One attempt: no limiter call, at most one HTTP call, and a refresh call
    only after an HTTP call. *)
Lemma doOperation_calls c ctx req wantResult w :
  exists dh dr,
    callDelta 0 dh dr (st w) (st (snd (doOperation c ctx req wantResult w)))
    /\ (dr <= dh)%nat /\ (dh <= 1)%nat.
Proof.
  unfold doOperation.
  pose proof (doRequest_calls c ctx req wantResult w) as Hreq. cbn zeta in Hreq.
  destruct (doRequest c ctx req wantResult w) as [[e|] w1]; cbn [fst snd] in *.
  - destruct (refreshTriggered e) eqn:Htrig.
    + destruct Hreq as [[_ Hno]|Hreq];
        [rewrite (Hno e eq_refl) in Htrig; discriminate|].
      pose proof (tryRefreshToken_calls c ctx w1) as Href. cbn zeta in Href.
      destruct (tryRefreshToken c ctx w1) as [[rerr|] w2]; cbn [fst snd] in *;
        destruct Hreq as [Hw Hh Hr];
        (destruct Href as [[Hw' Hh' Hr']|[Hw' Hh' Hr']];
         [exists 1%nat, 0%nat | exists 1%nat, 1%nat]);
        (split; [split; lia | lia]).
    + destruct Hreq as [[Hreq _]|Hreq];
        [exists 0%nat, 0%nat | exists 1%nat, 0%nat]; (split; [exact Hreq | lia]).
  - destruct Hreq as [[Hreq _]|Hreq];
      [exists 0%nat, 0%nat | exists 1%nat, 0%nat]; (split; [exact Hreq | lia]).
Qed.

Lemma Do_world c ctx req wantResult w :
  snd (Do c ctx req wantResult w)
  = snd (Execute (retryPolicy c) ctx (doOperation c ctx req wantResult) w).
Proof.
  unfold Do. destruct (Execute _ _ _ _) as [res w'].
  destruct (LastError res); reflexivity.
Qed.

Lemma Execute_world {St} (p : RetryPolicy) ctx (operation : Operation (St := St))
      (w : World St) :
  snd (Execute p ctx operation w)
  = snd (executeLoop p ctx operation (Z.to_nat (maxAttempts p)) 1
           {| Attempts := 0; LastError := None; Duration_ := 0 |} w).
Proof.
  unfold Execute. destruct (executeLoop _ _ _ _ _ _ _) as [res w']. reflexivity.
Qed.

(** C1, what the code does. No call of [Do] ever reaches a rate limiter:
    the trace of a call holds exactly the limiter waits it held before,
    whatever the client, the request and the answers of the server. *)
Theorem Do_never_waits_on_rate_limiter c ctx req wantResult w :
  waitCalls (trace (st (snd (Do c ctx req wantResult w)))) = waitCalls (trace (st w)).
Proof.
  rewrite Do_world.
  apply (Execute_preserves
           (fun s => waitCalls (trace s) = waitCalls (trace (st w)))); [|reflexivity].
  intros w1 Hw1.
  destruct (doOperation_calls c ctx req wantResult w1) as (dh & dr & [Hw _ _] & _).
  lia.
Qed.

(** C1 on a run: the HTTP call of the single attempt is made with no
    limiter wait before it. *)
Example Do_http_call_without_wait :
  let c := testClient DefaultRetryPolicy (serverAlways (Responded 200 okBody)) None in
  let out := Do c Background getShopInfo true world0 in
  fst out = None
  /\ httpCalls (trace (st (snd out))) = 1%nat
  /\ waitCalls (trace (st (snd out))) = 0%nat
  /\ List.map isHTTP (trace (st (snd out))) = [true].
Proof. vm_compute. repeat split. Qed.

End ClientFacts.

(** ** Token refresh inside the retry loop *)

Section RefreshFacts.
Implicit Types (c : Client) (ctx : Context) (req : Request) (w : World ClientState).

(** Over a whole call, refresh calls never outnumber HTTP calls, and HTTP
    calls never outnumber the attempts the policy allows. *)
Lemma Do_calls_bound c ctx req wantResult w :
  let tr := trace (st w) in
  let tr' := trace (st (snd (Do c ctx req wantResult w))) in
  (refreshCalls tr' + httpCalls tr <= refreshCalls tr + httpCalls tr')%nat
  /\ (httpCalls tr' <= httpCalls tr + Z.to_nat (maxAttempts (retryPolicy c)))%nat.
Proof.
  cbn zeta. rewrite Do_world. split.
  - apply (Execute_preserves
             (fun s => (refreshCalls (trace s) + httpCalls (trace (st w))
                        <= refreshCalls (trace (st w)) + httpCalls (trace s))%nat));
      [|lia].
    intros w1 Hw1.
    destruct (doOperation_calls c ctx req wantResult w1)
      as (dh & dr & [_ Hh Hr] & Hle & _).
    lia.
  - rewrite Execute_world.
    apply (executeLoop_measure (fun s => httpCalls (trace s))).
    intros w1.
    destruct (doOperation_calls c ctx req wantResult w1)
      as (dh & dr & [_ Hh _] & _ & Hone).
    lia.
Qed.

(** A failed refresh makes the attempt report the error of the request. *)
Lemma doOperation_refresh_failed c ctx req wantResult w e w1 rerr w2 :
  doRequest c ctx req wantResult w = (Some e, w1) ->
  refreshTriggered e = true ->
  tryRefreshToken c ctx w1 = (Some rerr, w2) ->
  doOperation c ctx req wantResult w = (Some e, w2).
Proof.
  intros Hreq Htrig Href. unfold doOperation. rewrite Hreq, Htrig, Href. reflexivity.
Qed.

(** One attempt makes at most one refresh call, and none without an HTTP
    call. *)
Lemma doOperation_refresh_calls c ctx req wantResult w :
  let tr := trace (st w) in
  let tr' := trace (st (snd (doOperation c ctx req wantResult w))) in
  (refreshCalls tr' <= S (refreshCalls tr))%nat
  /\ (refreshCalls tr' + httpCalls tr <= refreshCalls tr + httpCalls tr')%nat.
Proof.
  cbn zeta.
  destruct (doOperation_calls c ctx req wantResult w) as (dh & dr & [_ Hh Hr] & Hle & Hone).
  lia.
Qed.

(** When an attempt of the call ends with an error that the policy does not
    retry there, [Do] returns that error and the world the attempt left. *)
Lemma Do_attempt_final c ctx req wantResult w k wk e w' :
  attemptOfDo c ctx req wantResult w k = Some wk ->
  doOperation c ctx req wantResult wk = (Some e, w') ->
  ShouldRetry (retryPolicy c) (Some e) k = false ->
  Do c ctx req wantResult w = (Some e, w').
Proof.
  intros Hk Hop Hsr. unfold Do, Execute.
  destruct (executeLoop_from_attempt (retryPolicy c) ctx (doOperation c ctx req wantResult)
              _ 1 {| Attempts := 0; LastError := None; Duration_ := 0 |} w k wk Hk)
    as (remaining' & result' & ->).
  cbn [executeLoop]. rewrite Hop, Hsr. reflexivity.
Qed.

(** In a call in which every refresh that is made fails, on an error that
    the policy does not retry at that attempt, at most one refresh is made. *)
Lemma Do_refresh_once c ctx req wantResult w :
  (forall k wk e w1,
      attemptOfDo c ctx req wantResult w k = Some wk ->
      doRequest c ctx req wantResult wk = (Some e, w1) ->
      refreshTriggered e = true ->
      fst (tryRefreshToken c ctx w1) <> None
      /\ ShouldRetry (retryPolicy c) (Some e) k = false) ->
  (refreshCalls (trace (st (snd (Do c ctx req wantResult w))))
   <= S (refreshCalls (trace (st w))))%nat.
Proof.
  intros Hfinal. rewrite Do_world, Execute_world.
  apply (executeLoop_final_step_reached (fun s => refreshCalls (trace s))).
  intros k wk Hk.
  pose proof (fun e w1 => Hfinal k wk e w1 Hk) as Hf. clear Hfinal Hk.
  destruct (doOperation_calls c ctx req wantResult wk)
    as (dh & dr & [_ _ Hr] & Hle & Hone).
  unfold doOperation in *.
  pose proof (doRequest_calls c ctx req wantResult wk) as Hreq. cbn zeta in Hreq.
  destruct (doRequest c ctx req wantResult wk) as [[e|] w1]; cbn [fst snd] in *.
  - destruct (refreshTriggered e) eqn:Htrig.
    + right. split; [lia|].
      destruct (Hf e w1 eq_refl Htrig) as [Hfails Hsr].
      destruct (tryRefreshToken c ctx w1) as [[rerr|] w2]; cbn [fst snd] in *.
      * exists e. split; [reflexivity | exact Hsr].
      * destruct (Hfails eq_refl).
    + left. cbn [fst snd] in *.
      destruct Hreq as [[[_ _ Hr0] _]|[_ _ Hr0]]; lia.
  - left. cbn [fst snd] in *.
    destruct Hreq as [[[_ _ Hr0] _]|[_ _ Hr0]]; lia.
Qed.

(** Against a server that answers an expired token under status 403 first
    and a bare 503 afterwards, with a refresher that fails, the call makes
    its first attempt only. *)
Lemma attempts_expired_then_busy :
  let c := testClient DefaultRetryPolicy serverExpiredThenBusy (Some refresherDenies) in
  forall k wk, attemptOfDo c Background getShopInfo true world0 k = Some wk ->
               k = 1 /\ wk = world0.
Proof.
  intros c k wk Hk. unfold attemptOfDo in Hk.
  change (Z.to_nat (maxAttempts (retryPolicy c))) with 3%nat in Hk.
  cbn [attemptStart] in Hk.
  destruct (Z.eqb_spec 1 k) as [<-|Hne]; [injection Hk as <-; split; reflexivity|].
  exfalso. revert Hk.
  set (o := doOperation c Background getShopInfo true world0).
  assert (Ho : o = (Some (ErrAPI (NewAPIErrorWithRequestID "error_auth" "token expired" 403 "")),
                    snd o)) by (vm_compute; reflexivity).
  rewrite Ho. cbn. discriminate.
Qed.

(** C2, as the code has it. Every attempt of a call of [Do] makes at most
    one [RefreshToken] call, and only after its HTTP call: over the call the
    refresh calls are at most the HTTP calls, which are at most
    [maxAttempts]. On whichever attempt [k] of the call the refresh fails,
    the attempt reports the error of the request, not the refresh error; and
    when the policy does not retry that error at attempt [k], [Do] returns
    it at once, in the world the failed refresh left, without a further
    attempt. In a call in which this is so for every refresh made (each
    fails, on an error not retried at its attempt), at most one
    [RefreshToken] call is made. What follows a refresh that succeeds is not
    stated here. *)
Theorem Do_refresh_per_attempt c ctx req wantResult w :
  (let tr := trace (st w) in
   let tr' := trace (st (snd (Do c ctx req wantResult w))) in
   (refreshCalls tr' + httpCalls tr <= refreshCalls tr + httpCalls tr')%nat
   /\ (httpCalls tr' <= httpCalls tr + Z.to_nat (maxAttempts (retryPolicy c)))%nat)
  /\ (forall w0,
        let tr := trace (st w0) in
        let tr' := trace (st (snd (doOperation c ctx req wantResult w0))) in
        (refreshCalls tr' <= S (refreshCalls tr))%nat
        /\ (refreshCalls tr' + httpCalls tr <= refreshCalls tr + httpCalls tr')%nat)
  /\ (forall k wk e w1 rerr w2,
        attemptOfDo c ctx req wantResult w k = Some wk ->
        doRequest c ctx req wantResult wk = (Some e, w1) ->
        refreshTriggered e = true ->
        tryRefreshToken c ctx w1 = (Some rerr, w2) ->
        doOperation c ctx req wantResult wk = (Some e, w2)
        /\ (ShouldRetry (retryPolicy c) (Some e) k = false ->
            Do c ctx req wantResult w = (Some e, w2)))
  /\ ((forall k wk e w1,
          attemptOfDo c ctx req wantResult w k = Some wk ->
          doRequest c ctx req wantResult wk = (Some e, w1) ->
          refreshTriggered e = true ->
          fst (tryRefreshToken c ctx w1) <> None
          /\ ShouldRetry (retryPolicy c) (Some e) k = false) ->
      (refreshCalls (trace (st (snd (Do c ctx req wantResult w))))
       <= S (refreshCalls (trace (st w))))%nat).
Proof.
  split; [apply Do_calls_bound|].
  split; [intros w0; apply doOperation_refresh_calls|].
  split; [|apply Do_refresh_once].
  intros k wk e w1 rerr w2 Hk Hreq Htrig Href.
  pose proof (doOperation_refresh_failed _ _ _ _ _ _ _ _ _ Hreq Htrig Href) as Hop.
  split; [exact Hop|]. intros Hsr.
  apply (Do_attempt_final c ctx req wantResult w k wk); assumption.
Qed.

Lemma Do_refresh_per_attempt_witness :
  let e := NewAPIErrorWithRequestID "error_auth" "token expired" 403 "" in
  let c := testClient DefaultRetryPolicy serverBusyThenExpired (Some refresherDenies) in
  let c' := testClient DefaultRetryPolicy serverExpiredThenBusy (Some refresherDenies) in
  let out := Do c Background getShopInfo true world0 in
  let out' := Do c' Background getShopInfo true world0 in
  fst out = Some (ErrAPI e)
  /\ httpCalls (trace (st (snd out))) = 2%nat
  /\ refreshCalls (trace (st (snd out))) = 1%nat
  /\ (refreshCalls (trace (st (snd out'))) <= 1)%nat.
Proof.
  intros e c c' out out'.
  pose (wk := match attemptOfDo c Background getShopInfo true world0 2 with
              | Some x => x
              | None => world0
              end).
  pose (w1 := snd (doRequest c Background getShopInfo true wk)).
  pose (w2 := snd (tryRefreshToken c Background w1)).
  assert (Hk : attemptOfDo c Background getShopInfo true world0 2 = Some wk)
    by (vm_compute; reflexivity).
  assert (Hreq : doRequest c Background getShopInfo true wk = (Some (ErrAPI e), w1))
    by (vm_compute; reflexivity).
  assert (Href : tryRefreshToken c Background w1 = (Some (ErrPlain "refresh denied"), w2))
    by (vm_compute; reflexivity).
  destruct (Do_refresh_per_attempt c Background getShopInfo true world0)
    as (_ & _ & Hfail & _).
  destruct (Hfail 2 wk _ w1 _ w2 Hk Hreq eq_refl Href) as [_ Hdo].
  specialize (Hdo eq_refl).
  destruct (Do_refresh_per_attempt c' Background getShopInfo true world0)
    as (_ & _ & _ & Honce).
  unfold out. rewrite Hdo. split; [reflexivity|]. split; [vm_compute; reflexivity|].
  split; [vm_compute; reflexivity|].
  apply Honce. intros k wk' e0 w1' Hk' Hreq' Htrig.
  destruct (attempts_expired_then_busy k wk' Hk') as [-> ->].
  vm_compute in Hreq'. injection Hreq' as <- <-.
  split; [vm_compute; discriminate | reflexivity].
Defined.

(** C2, as the claim words it, fails. With the default policy (three
    attempts), a server that answers every call with [error_auth] under HTTP
    status 503 and a refresher that fails, [Do] makes three HTTP calls and
    three [RefreshToken] calls: the failed refresh hands the original error
    back to the executor, which retries it because of its status. *)
Lemma Do_refreshes_on_every_attempt :
  let e := NewAPIErrorWithRequestID "error_auth" "token expired" 503 "" in
  let c := testClient DefaultRetryPolicy
             (serverAlways (Responded 503 (errorBody "error_auth" "token expired")))
             (Some refresherDenies) in
  let out := Do c Background getShopInfo true world0 in
  isTokenExpired e = true
  /\ fst out = Some (ErrAPI e)
  /\ httpCalls (trace (st (snd out))) = 3%nat
  /\ refreshCalls (trace (st (snd out))) = 3%nat
  /\ ~ (refreshCalls (trace (st (snd out))) <= 1)%nat.
Proof.
  vm_compute. repeat split. intros H. lia.
Qed.

(** The placeholder error returned after a successful refresh is not one
    the policy retries. *)
Lemma placeholder_not_retried (p : RetryPolicy) (k : Z) :
  ShouldRetry p (Some (ErrAPI (NewAPIError CodeAuthError "token refreshed, retrying"
                                           StatusUnauthorized))) k = false.
Proof. unfold ShouldRetry. destruct (maxAttempts p <=? k); reflexivity. Qed.

(** The refresh succeeds, yet nothing is retried: the placeholder error the
    closure returns ([error_auth] under status 401) is not retryable, so the
    executor stops and [Do] returns it after a single HTTP call, although
    the server would accept the new token. *)
Example Do_refresh_then_no_retry :
  let c := testClient DefaultRetryPolicy serverUntilRefresh (Some refresherGrants) in
  let out := Do c Background getShopInfo true world0 in
  fst out = Some (ErrAPI (NewAPIError CodeAuthError "token refreshed, retrying" 401))
  /\ httpCalls (trace (st (snd out))) = 1%nat
  /\ refreshCalls (trace (st (snd out))) = 1%nat
  /\ accessToken (st (snd out)) = "at2".
Proof. vm_compute. repeat split. Qed.

(** C3, what the code does. An [error_auth] error whose message holds none
    of the known markers is not token-expired for [APIError.isTokenExpired],
    yet [Do] refreshes on it: [isTokenExpiredError] looks at the code only. *)
Theorem Do_refreshes_without_marker :
  let e := NewAPIErrorWithRequestID "error_auth" "partner is not authorized" 403 "" in
  let c := testClient DefaultRetryPolicy
             (serverAlways (Responded 403 (errorBody "error_auth" "partner is not authorized")))
             (Some refresherGrants) in
  let out := Do c Background getShopInfo true world0 in
  Category e = CategoryAuthentication
  /\ isTokenExpired e = false
  /\ isTokenExpiredError (ErrAPI e) = true
  /\ fst (doRequest c Background getShopInfo true world0) = Some (ErrAPI e)
  /\ refreshCalls (trace (st (snd out))) = 1%nat
  /\ accessToken (st (snd out)) = "at2".
Proof. vm_compute. repeat split. Qed.

(** The code test alone decides, whatever the message. *)
Lemma isTokenExpiredError_code (e : APIError) :
  isTokenExpiredError (ErrAPI e) = true <-> Code e = CodeAuthError.
Proof. cbn. apply String.eqb_eq. Qed.

(** C10. With [maxAttempts <= 0] (as after [WithMaxAttempts(0)]) [Execute]
    never calls the operation and returns [Attempts = 0] and a nil
    [LastError]; [Do] then returns nil, a success, without any call. *)
Theorem Do_zero_attempts c ctx req wantResult w :
  maxAttempts (retryPolicy c) <= 0 ->
  (forall (St : Type) (operation : Operation (St := St)) (w0 : World St),
      Execute (retryPolicy c) ctx operation w0
      = ({| Attempts := 0; LastError := None; Duration_ := 0 |}, w0))
  /\ Do c ctx req wantResult w = (None, w).
Proof.
  intros Hle. split.
  - intros St operation w0. apply Execute_no_attempts. exact Hle.
  - unfold Do. rewrite Execute_no_attempts by exact Hle. reflexivity.
Qed.

Lemma Do_zero_attempts_witness :
  let c := testClient (WithMaxAttempts DefaultRetryPolicy 0)
             (serverAlways (TransportError "connection refused")) None in
  maxAttempts (retryPolicy c) <= 0
  /\ Execute (retryPolicy c) Background (alwaysFails (NewAPIError CodeServerError "" 503))
             (mkWorld 0 [] 0%nat)
     = ({| Attempts := 0; LastError := None; Duration_ := 0 |}, mkWorld 0 [] 0%nat)
  /\ Do c Background getShopInfo true world0 = (None, world0).
Proof.
  intros c.
  assert (Hle : maxAttempts (retryPolicy c) <= 0) by (cbn; lia).
  destruct (Do_zero_attempts c Background getShopInfo true world0 Hle) as [Hex Hdo].
  split; [exact Hle|]. split; [apply Hex | exact Hdo].
Defined.

End RefreshFacts.

(* ================================================================== *)
(** * Part III. Further properties of the packages                     *)
(* ================================================================== *)

(** ** Substring search and error matching *)

Section MatchingFacts.

Lemma length_append (s r : string) :
  String.length (s +:+ r) = (String.length s + String.length r)%nat.
Proof.
  induction s as [|a s IH]; [reflexivity|].
  rewrite append_String. cbn [String.length]. rewrite IH. reflexivity.
Qed.

Lemma append_nil_l (s : string) : "" +:+ s = s.
Proof. reflexivity. Qed.

(** Reading [m] bytes at offset [length pre] of [pre ++ x ++ post], where [m]
    is the length of [x], gives [x]. *)
Lemma substring_middle (pre x post : string) :
  substring (String.length pre) (String.length x) (pre +:+ x +:+ post) = x.
Proof.
  induction pre as [|a pre IH].
  - rewrite append_nil_l. cbn [String.length].
    induction x as [|b x IHx].
    + rewrite append_nil_l. destruct post; reflexivity.
    + rewrite append_String. cbn [String.length substring]. rewrite IHx. reflexivity.
  - rewrite append_String. cbn [String.length substring]. exact IH.
Qed.

(** A slice that fits in the string splits the string around it. *)
Lemma substring_split (s : string) (j m : nat) :
  (j + m <= String.length s)%nat ->
  exists pre post, String.length pre = j /\ s = pre +:+ substring j m s +:+ post.
Proof.
  revert s m; induction j as [|j IH]; intros s m Hlen.
  - exists "". revert s Hlen; induction m as [|m IHm]; intros s Hlen.
    + exists s. split; [reflexivity|]. destruct s; reflexivity.
    + destruct s as [|a s]; [cbn in Hlen; lia|].
      destruct (IHm s) as (post & _ & Hs); [cbn in Hlen; lia|].
      exists post. split; [reflexivity|].
      rewrite append_nil_l in *. cbn [substring]. rewrite append_String.
      rewrite <- Hs. reflexivity.
  - destruct s as [|a s]; [cbn in Hlen; lia|].
    destruct (IH s m) as (pre & post & Hpre & Hs); [cbn in Hlen; lia|].
    exists (String a pre), post. split; [cbn; lia|].
    cbn [substring]. rewrite append_String. rewrite <- Hs. reflexivity.
Qed.

Lemma containsAt_iff (s substr : string) (i n : nat) :
  containsAt s substr i n = true <->
  exists j, (i <= j < i + n)%nat /\ substring j (String.length substr) s = substr.
Proof.
  revert i; induction n as [|n IH]; intros i; cbn [containsAt].
  - split; [discriminate | intros (j & Hj & _); lia].
  - destruct (String.eqb_spec (substring i (String.length substr) s) substr) as [Heq|Hne].
    + split; [|reflexivity]. intros _. exists i. split; [lia | exact Heq].
    + rewrite IH. split; intros (j & Hj & Hsub).
      * exists j. split; [lia | exact Hsub].
      * exists j. split; [|exact Hsub].
        destruct (Nat.eq_dec i j) as [->|]; [contradiction | lia].
Qed.

(** X1. [containsAny s substrs] is true exactly when one of [substrs] occurs
    somewhere in [s]; in particular the empty string occurs in every string,
    and an empty list of candidates occurs in none. *)
Theorem containsAny_iff (s : string) (substrs : list string) :
  containsAny s substrs = true <->
  exists substr pre post, In substr substrs /\ s = pre +:+ substr +:+ post.
Proof.
  induction substrs as [|substr rest IH]; cbn [containsAny].
  - split; [discriminate | intros (? & ? & ? & [] & _)].
  - assert (Hhere : (String.length substr <=? String.length s)%nat
                    && containsAt s substr 0
                         (S (String.length s - String.length substr)) = true
                    <-> exists pre post, s = pre +:+ substr +:+ post).
    { rewrite andb_true_iff, Nat.leb_le, containsAt_iff. split.
      - intros (Hlen & j & Hj & Hsub).
        destruct (substring_split s j (String.length substr)) as (pre & post & _ & Hs);
          [lia|].
        rewrite Hsub in Hs. eauto.
      - intros (pre & post & ->).
        rewrite !length_append. split; [lia|].
        exists (String.length pre). split; [lia | apply substring_middle]. }
    destruct ((String.length substr <=? String.length s)%nat
              && containsAt s substr 0 (S (String.length s - String.length substr))).
    + split; [|reflexivity]. intros _.
      destruct Hhere as [Hhere _]. destruct (Hhere eq_refl) as (pre & post & Hs).
      exists substr, pre, post. split; [left; reflexivity | exact Hs].
    + rewrite IH. split.
      * intros (x & pre & post & Hin & Hs). exists x, pre, post. split; [right|]; assumption.
      * intros (x & pre & post & [<-|Hin] & Hs).
        -- destruct Hhere as [_ Hhere]. discriminate Hhere. eauto.
        -- exists x, pre, post. split; assumption.
Qed.

(** X2. An [APIError] is retryable exactly when [errors.Is] matches it with
    [ErrRateLimited] or with [ErrServiceUnavailable], the two sentinels the
    default policy lists as retryable. *)
Theorem IsRetryable_iff_Is (e : APIError) :
  IsRetryable e = true <->
  ErrorsIs.Is e ErrorsIs.TargetRateLimited = true
  \/ ErrorsIs.Is e ErrorsIs.TargetServiceUnavailable = true.
Proof.
  unfold IsRetryable, ErrorsIs.Is, Code_IsRetryable,
    StatusTooManyRequests, StatusServiceUnavailable.
  destruct (String.eqb (Code e) CodeExceedLimit); [cbn; tauto|].
  destruct (String.eqb (Code e) CodeServerError); [cbn; tauto|].
  cbn [orb]. rewrite !orb_true_iff, !Z.eqb_eq, Z.leb_le. split.
  - intros [[H|H]|H]; [left; exact H | right; lia | right; exact H].
  - intros [H|H]; [left; left; exact H | right; exact H].
Qed.

(** X3. [ShouldRetry] answers yes exactly when the attempt number is below
    [maxAttempts] and the error is an [APIError] that is retryable: never for
    a nil error, and never for an error of another type (a transport error, a
    context error), whatever its text. *)
Theorem ShouldRetry_true_iff (p : RetryPolicy) (err : option error) (attempt : Z) :
  ShouldRetry p err attempt = true <->
  attempt < maxAttempts p
  /\ exists e, err = Some (ErrAPI e) /\ IsRetryable e = true.
Proof.
  unfold ShouldRetry. destruct (Z.leb_spec (maxAttempts p) attempt) as [Hge|Hlt].
  - split; [discriminate | intros [? _]; lia].
  - destruct err as [[e|msg]|].
    + split; [intros H; split; [exact Hlt | eauto] | intros (_ & e' & [= <-] & H); exact H].
    + split; [discriminate | intros (_ & e' & [=] & _)].
    + split; [discriminate | intros (_ & e' & [=] & _)].
Qed.

End MatchingFacts.

(** ** The retry loop, continued *)

Section ExecutorMoreFacts.
Context {St : Type}.
Implicit Types (p : RetryPolicy) (ctx : Context) (w : World St).

Lemma executeLoop_attempts_count p ctx (operation : Operation) (calls : St -> nat) :
  (forall w, calls (st (snd (operation w))) = S (calls (st w))) ->
  forall remaining attempt result w,
    Attempts result = attempt - 1 ->
    let out := executeLoop p ctx operation remaining attempt result w in
    attempt - 1 <= Attempts (fst out) <= attempt - 1 + Z.of_nat remaining
    /\ Z.of_nat (calls (st (snd out)))
       = Z.of_nat (calls (st w)) + (Attempts (fst out) - (attempt - 1)).
Proof.
  intros Hcalls. induction remaining as [|remaining IH]; intros attempt result w Hres.
  - cbn. lia.
  - cbn zeta in IH |- *. cbn [executeLoop].
    pose proof (Hcalls w) as Hc. destruct (operation w) as [[e|] w1]; cbn [fst snd] in *.
    2: { cbn. lia. }
    destruct (ShouldRetry p (Some e) attempt); cbn [negb]; [|cbn; lia].
    assert (Hnext : forall w2, st w2 = st w1 ->
              let out := executeLoop p ctx operation remaining (attempt + 1)
                           (set_LastError (Some e) (set_Attempts attempt result)) w2 in
              attempt - 1 <= Attempts (fst out) <= attempt - 1 + Z.of_nat (S remaining)
              /\ Z.of_nat (calls (st (snd out)))
                 = Z.of_nat (calls (st w)) + (Attempts (fst out) - (attempt - 1))).
    { intros w2 Hst. cbn zeta.
      specialize (IH (attempt + 1) (set_LastError (Some e) (set_Attempts attempt result)) w2
                     ltac:(cbn; lia)).
      rewrite Hst in IH. lia. }
    destruct (attempt <? maxAttempts p); [|apply Hnext; reflexivity].
    pose proof (WaitForRetry_st p ctx attempt w1) as Hst.
    destruct (WaitForRetry p ctx attempt w1) as [[|] w2]; cbn [fst snd negb] in *.
    + apply Hnext. exact Hst.
    + cbn. rewrite Hst. lia.
Qed.

(** X4. Whatever the operation does, [Execute] calls it at most
    [maxAttempts] times, and the [Attempts] it reports is exactly the number
    of calls it made ([calls] is any counter the operation keeps of its own
    invocations). *)
Theorem Execute_attempts_count p ctx (operation : Operation) (calls : St -> nat) w :
  (forall w, calls (st (snd (operation w))) = S (calls (st w))) ->
  let out := Execute p ctx operation w in
  0 <= Attempts (fst out) <= Z.max 0 (maxAttempts p)
  /\ Z.of_nat (calls (st (snd out))) = Z.of_nat (calls (st w)) + Attempts (fst out).
Proof.
  intros Hcalls. cbn zeta. unfold Execute.
  pose proof (executeLoop_attempts_count p ctx operation calls Hcalls
                (Z.to_nat (maxAttempts p)) 1
                {| Attempts := 0; LastError := None; Duration_ := 0 |} w eq_refl) as H.
  cbn zeta in H. destruct (executeLoop _ _ _ _ _ _ _) as [res w']; cbn [fst snd] in *.
  cbn. lia.
Qed.

(** X5. When the first call of the operation succeeds, or fails with an
    error that [ShouldRetry] turns down (an error that is not an [APIError],
    or one that is not retryable), [Execute] stops there: one attempt, that
    outcome as [LastError], the time the call took as [Duration]. *)
Theorem Execute_first_attempt_final p ctx (operation : Operation) w err w1 :
  operation w = (err, w1) ->
  ShouldRetry p err 1 = false ->
  1 <= maxAttempts p ->
  Execute p ctx operation w
  = ({| Attempts := 1; LastError := err; Duration_ := now w1 - now w |}, w1).
Proof.
  intros Hop Hsr Hmax. unfold Execute.
  destruct (Z.to_nat (maxAttempts p)) as [|n] eqn:Hn; [lia|].
  cbn [executeLoop]. rewrite Hop. destruct err as [e|]; [rewrite Hsr|]; reflexivity.
Qed.

(** X6. [LastError] is not cleared by a later success: when the first call
    fails with an error the policy retries and the second call succeeds,
    [Execute] returns two attempts with the error of the first as
    [LastError]. *)
Theorem Execute_keeps_error_after_success p ctx (operation : Operation) w e w1 w2 w3 :
  operation w = (Some e, w1) ->
  ShouldRetry p (Some e) 1 = true ->
  WaitForRetry p ctx 1 w1 = (true, w2) ->
  operation w2 = (None, w3) ->
  Execute p ctx operation w
  = ({| Attempts := 2; LastError := Some e; Duration_ := now w3 - now w |}, w3).
Proof.
  intros Hop1 Hsr Hwait Hop2. unfold Execute.
  assert (Hmax : 1 < maxAttempts p).
  { unfold ShouldRetry in Hsr. destruct (Z.leb_spec (maxAttempts p) 1); [discriminate | lia]. }
  destruct (Z.to_nat (maxAttempts p)) as [|[|n]] eqn:Hn; [lia | lia |].
  cbn [executeLoop]. rewrite Hop1, Hsr. cbn [negb].
  replace (1 <? maxAttempts p) with true by (symmetry; apply Z.ltb_lt; exact Hmax).
  rewrite Hwait. cbn [negb]. rewrite Hop2. reflexivity.
Qed.

(** With [initialDelay = 0] every computed delay is zero or less: the
    product is zero, or NaN when the power has overflowed. *)
Lemma DelayForAttempt_zero_initial p attempt r :
  initialDelay p = 0 -> DelayForAttempt p attempt r <= 0.
Proof.
  intros Hinit. unfold DelayForAttempt. destruct (attempt <=? 0); [lia|].
  unfold delayFloat. rewrite Hinit.
  match goal with |- context [xmul (Fin ?z) ?pw] =>
    pose proof (xmul_zero_l (Fin z) pw) as Hd0; set (d := xmul (Fin z) pw) in * end.
  assert (Hd : match d with Fin q => (q == 0)%Q | NaN => True | _ => False end).
  { apply Hd0. reflexivity. }
  clear Hd0. clearbody d.
  apply int64_of_float_capped_zero.
  destruct (Qltb 0 (jitterFactor p)); [|exact Hd].
  apply xadd_zero; [exact Hd|]. apply xmul_zero_l, xmul_zero_l, Hd.
Qed.

Lemma DelayForAttemptW_zero_initial p attempt w :
  initialDelay p = 0 -> fst (DelayForAttemptW p attempt w) <= 0.
Proof.
  intros Hinit.
  unfold DelayForAttemptW. destruct (attempt <=? 0); [cbn; lia|].
  destruct (Qltb 0 (jitterFactor p));
    [|apply DelayForAttempt_zero_initial, Hinit].
  destruct (rand_Float64 w) as [r w']. apply DelayForAttempt_zero_initial, Hinit.
Qed.

Lemma WaitForRetry_zero_initial p ctx ctx' attempt w :
  initialDelay p = 0 ->
  WaitForRetry p ctx attempt w = WaitForRetry p ctx' attempt w
  /\ fst (WaitForRetry p ctx attempt w) = true.
Proof.
  intros Hinit. unfold WaitForRetry.
  pose proof (DelayForAttemptW_zero_initial p attempt w Hinit) as Hd.
  destruct (DelayForAttemptW p attempt w) as [delay w1]; cbn [fst] in Hd.
  replace (delay <=? 0) with true by (symmetry; apply Z.leb_le; exact Hd).
  split; reflexivity.
Qed.

(** X7. With [initialDelay = 0] the loop never looks at the context: a
    cancelled context and a live one give the same run, so that all the
    attempts the errors call for are made even after cancellation. *)
Theorem Execute_zero_delay_ignores_context p ctx ctx' (operation : Operation) w :
  initialDelay p = 0 ->
  Execute p ctx operation w = Execute p ctx' operation w.
Proof.
  intros Hinit. unfold Execute.
  assert (Hloop : forall remaining attempt result w0,
             executeLoop p ctx operation remaining attempt result w0
             = executeLoop p ctx' operation remaining attempt result w0).
  { induction remaining as [|remaining IH]; intros attempt result w0; [reflexivity|].
    cbn [executeLoop]. destruct (operation w0) as [[e|] w1]; [|reflexivity].
    destruct (ShouldRetry p (Some e) attempt); cbn [negb]; [|reflexivity].
    destruct (attempt <? maxAttempts p); [|apply IH].
    destruct (WaitForRetry_zero_initial p ctx ctx' attempt w1 Hinit) as [Heq Hok].
    rewrite <- Heq. destruct (WaitForRetry p ctx attempt w1) as [ok w2].
    cbn [fst] in Hok. subst ok. cbn [negb]. apply IH. }
  rewrite Hloop. reflexivity.
Qed.

(** X8. Cancellation during the backoff: when the first call fails with an
    error the policy retries, the delay before the second attempt is positive
    and the context is done by the time that delay would end, [Execute]
    returns after this one attempt, at the instant the context is done (or at
    once, if it was done already), with the context's error as [LastError]. *)
Theorem Execute_cancelled_in_backoff p ctx (operation : Operation) w e w1 t :
  operation w = (Some e, w1) ->
  ShouldRetry p (Some e) 1 = true ->
  doneAt ctx = Some t ->
  0 < fst (DelayForAttemptW p 1 w1) ->
  t <= now w1 + fst (DelayForAttemptW p 1 w1) ->
  fst (Execute p ctx operation w)
  = {| Attempts := 1; LastError := Some (ctxErr ctx);
       Duration_ := Z.max (now w1) t - now w |}
  /\ now (snd (Execute p ctx operation w)) = Z.max (now w1) t
  /\ st (snd (Execute p ctx operation w)) = st w1.
Proof.
  intros Hop Hsr Hctx Hpos Hdone. unfold Execute.
  assert (Hmax : 1 < maxAttempts p).
  { unfold ShouldRetry in Hsr. destruct (Z.leb_spec (maxAttempts p) 1); [discriminate | lia]. }
  destruct (Z.to_nat (maxAttempts p)) as [|n] eqn:Hn; [lia|].
  cbn [executeLoop]. rewrite Hop, Hsr. cbn [negb].
  replace (1 <? maxAttempts p) with true by (symmetry; apply Z.ltb_lt; exact Hmax).
  unfold WaitForRetry.
  pose proof (DelayForAttemptW_st p 1 w1) as Hst.
  assert (Hnow : now (snd (DelayForAttemptW p 1 w1)) = now w1).
  { unfold DelayForAttemptW. destruct (1 <=? 0); [reflexivity|].
    destruct (Qltb 0 (jitterFactor p)); [|reflexivity].
    unfold rand_Float64. destruct (rand w1); reflexivity. }
  destruct (DelayForAttemptW p 1 w1) as [delay w1']; cbn [fst snd] in *.
  replace (delay <=? 0) with false by (symmetry; apply Z.leb_gt; exact Hpos).
  rewrite Hctx, Hnow.
  replace (t <=? now w1 + delay) with true by (symmetry; apply Z.leb_le; exact Hdone).
  cbn. rewrite Hst. repeat split.
Qed.

End ExecutorMoreFacts.

Section ExecutorMoreWitnesses.

Lemma Execute_attempts_count_witness :
  let e := ErrAPI (NewAPIError CodeServerError "HTTP error: 502" 502) in
  let out := Execute DefaultRetryPolicy Background (Samples.failsOnce e) (mkWorld 0 [] 0%nat) in
  0 <= Attempts (fst out) <= Z.max 0 (maxAttempts DefaultRetryPolicy)
  /\ Z.of_nat (st (snd out)) = Z.of_nat 0 + Attempts (fst out).
Proof.
  intros e out.
  apply (Execute_attempts_count DefaultRetryPolicy Background (Samples.failsOnce e)
           (fun n => n) (mkWorld 0 [] 0%nat)).
  intros w. reflexivity.
Defined.

Lemma Execute_first_attempt_final_witness :
  let err := Some (ErrPlain "request failed: connection reset") in
  Execute DefaultRetryPolicy Background (Samples.alwaysReturns err) (mkWorld 5 [] 0%nat)
  = ({| Attempts := 1; LastError := err; Duration_ := 5 - 5 |}, mkWorld 5 [] 1%nat).
Proof.
  intros err.
  apply (Execute_first_attempt_final DefaultRetryPolicy Background
           (Samples.alwaysReturns err) (mkWorld 5 [] 0%nat) err (mkWorld 5 [] 1%nat)).
  - reflexivity.
  - reflexivity.
  - cbn. lia.
Defined.

Lemma Execute_keeps_error_after_success_witness :
  let e := ErrAPI (NewAPIError CodeServerError "HTTP error: 502" 502) in
  let p := WithJitter DefaultRetryPolicy 0%Q in
  Execute p Background (Samples.failsOnce e) (mkWorld 0 [] 0%nat)
  = ({| Attempts := 2; LastError := Some e; Duration_ := 1000000000 - 0 |},
     mkWorld 1000000000 [] 2%nat).
Proof.
  intros e p.
  apply (Execute_keeps_error_after_success p Background (Samples.failsOnce e)
           (mkWorld 0 [] 0%nat) e (mkWorld 0 [] 1%nat) (mkWorld 1000000000 [] 1%nat)
           (mkWorld 1000000000 [] 2%nat)); reflexivity.
Defined.

Lemma Execute_zero_delay_ignores_context_witness :
  let e := ErrAPI (NewAPIError CodeServerError "HTTP error: 502" 502) in
  let p := WithInitialDelay DefaultRetryPolicy 0 in
  let cancelled := {| doneAt := Some 0; ctxErr := ErrPlain "context canceled" |} in
  Execute p cancelled (Samples.alwaysReturns (Some e)) (mkWorld 7 [] 0%nat)
  = Execute p Background (Samples.alwaysReturns (Some e)) (mkWorld 7 [] 0%nat).
Proof.
  intros e p cancelled.
  apply (Execute_zero_delay_ignores_context p cancelled Background). reflexivity.
Defined.

Lemma Execute_cancelled_in_backoff_witness :
  let e := ErrAPI (NewAPIError CodeServerError "HTTP error: 502" 502) in
  let p := WithJitter DefaultRetryPolicy 0%Q in
  let ctx := {| doneAt := Some 100000000; ctxErr := ErrPlain "context canceled" |} in
  let out := Execute p ctx (Samples.alwaysReturns (Some e)) (mkWorld 0 [] 0%nat) in
  fst out = {| Attempts := 1; LastError := Some (ErrPlain "context canceled");
               Duration_ := Z.max 0 100000000 - 0 |}
  /\ now (snd out) = Z.max 0 100000000
  /\ st (snd out) = 1%nat.
Proof.
  intros e p ctx out.
  apply (Execute_cancelled_in_backoff p ctx (Samples.alwaysReturns (Some e))
           (mkWorld 0 [] 0%nat) e (mkWorld 0 [] 1%nat) 100000000).
  - reflexivity.
  - reflexivity.
  - reflexivity.
  - vm_compute. reflexivity.
  - vm_compute. discriminate.
Defined.

End ExecutorMoreWitnesses.

(** ** Backoff delays, continued *)

Section DelayMoreFacts.

Lemma Qtrunc_floor (q : Q) : 0 <= Qnum q -> Qtrunc q = Qfloor q.
Proof.
  intros H. unfold Qtrunc. destruct q as [n d]; cbn in *.
  apply Z.quot_div_nonneg; lia.
Qed.

Lemma Qtrunc_ceiling (q : Q) : Qnum q <= 0 -> Qtrunc q = Qceiling q.
Proof.
  intros H. unfold Qtrunc, Qceiling. destruct q as [n d]; cbn in *.
  rewrite <- (Z.quot_div_nonneg (- n) (Zpos d)) by lia.
  rewrite Z.quot_opp_l by lia. lia.
Qed.

Lemma Qnum_nonneg (q : Q) : (0 <= q)%Q <-> 0 <= Qnum q.
Proof. unfold Qle; cbn. lia. Qed.

Lemma Qnum_nonpos (q : Q) : (q <= 0)%Q <-> Qnum q <= 0.
Proof. unfold Qle; cbn. lia. Qed.

(** The conversion to [time.Duration] is monotone. *)
Lemma Qtrunc_mono (q q' : Q) : (q <= q')%Q -> Qtrunc q <= Qtrunc q'.
Proof.
  intros Hle.
  destruct (Z.le_gt_cases 0 (Qnum q)) as [Hq|Hq];
    destruct (Z.le_gt_cases 0 (Qnum q')) as [Hq'|Hq'].
  - rewrite !Qtrunc_floor by assumption. apply Qfloor_resp_le, Hle.
  - exfalso. apply Qnum_nonneg in Hq.
    assert (Hn : (q' <= 0)%Q) by (apply Qnum_nonpos; lia).
    assert (H0 : (q' == 0)%Q) by lra.
    unfold Qeq in H0; cbn in H0. lia.
  - rewrite (Qtrunc_ceiling q) by lia. rewrite (Qtrunc_floor q') by assumption.
    assert (H1 : Qceiling q <= Qceiling 0).
    { apply Qceiling_resp_le, Qnum_nonpos. lia. }
    assert (H2 : Qfloor 0 <= Qfloor q').
    { apply Qfloor_resp_le, Qnum_nonneg. assumption. }
    change (Qceiling 0) with 0 in H1. change (Qfloor 0) with 0 in H2. lia.
  - rewrite !Qtrunc_ceiling by lia. apply Qceiling_resp_le, Hle.
Qed.

Lemma Qtrunc_nonneg (q : Q) : (0 <= q)%Q -> 0 <= Qtrunc q.
Proof.
  intros H. change 0 with (Qtrunc 0). apply Qtrunc_mono, H.
Qed.

Lemma Qtrunc_Qeq (q q' : Q) : (q == q')%Q -> Qtrunc q = Qtrunc q'.
Proof.
  intros H. apply Z.le_antisymm; apply Qtrunc_mono; rewrite H; apply Qle_refl.
Qed.

(** A value from 0 to [2^960] is far from the overflow threshold. *)
Lemma fin_small (q : Q) :
  (0 <= q)%Q -> (q <= inject_Z (2 ^ 960))%Q -> fin q = Fin q.
Proof.
  intros H0 H1. apply fin_finite.
  - apply Qlt_le_trans with (y := 0%Q); [|exact H0]. vm_compute. reflexivity.
  - apply Qle_lt_trans with (y := inject_Z (2 ^ 960)); [exact H1|].
    vm_compute. reflexivity.
Qed.

Lemma fin_small_abs (q b : Q) :
  (- b <= q)%Q -> (q <= b)%Q -> (b <= inject_Z (2 ^ 960))%Q -> fin q = Fin q.
Proof.
  intros H0 H1 Hb. apply fin_finite.
  - apply Qlt_le_trans with (y := (- inject_Z (2 ^ 960))%Q); [vm_compute; reflexivity|].
    apply Qle_trans with (y := (- b)%Q); [|exact H0].
    apply Qopp_le_compat, Hb.
  - apply Qle_lt_trans with (y := inject_Z (2 ^ 960)); [|vm_compute; reflexivity].
    apply Qle_trans with (y := b); assumption.
Qed.

(** A finite delay between 0 and a cap that an [int64] holds converts to an
    [int64] that is not negative. *)
Lemma int64_of_float_capped_nonneg (d : Q) (m : Z) :
  (0 <= d)%Q -> 0 <= m <= MaxInt64 ->
  0 <= int64_of_float (if xgt (Fin d) (Fin (inject_Z m)) then Fin (inject_Z m) else Fin d).
Proof.
  intros Hd Hm. cbn [xgt].
  destruct (Qltb (inject_Z m) d) eqn:Hcap.
  - rewrite int64_of_float_int; [lia|]. unfold MinInt64. lia.
  - apply Qltb_false in Hcap. cbn [int64_of_float].
    pose proof (Qtrunc_nonneg d Hd) as H0. pose proof (Qtrunc_le d m Hcap) as H1.
    replace ((MinInt64 <=? Qtrunc d) && (Qtrunc d <=? MaxInt64)) with true; [exact H0|].
    symmetry. apply andb_true_iff. split; apply Z.leb_le; unfold MinInt64 in *; lia.
Qed.

(** X9. For a policy with an initial delay and a cap between 0 and [2^53]
    nanoseconds, a non-negative multiplier whose power for the attempt is
    finite (at most [2^900]), a jitter factor of at most 1 and a draw in
    [0, 1], the delay is never negative. Outside these bounds it can be: see
    [DelayForAttempt_cap_out_of_range] and [DelayForAttempt_nan]. *)
Theorem DelayForAttempt_nonneg (p : RetryPolicy) (attempt : Z) (rnd : float64) :
  0 <= initialDelay p <= 2 ^ 53 -> 0 <= maxDelay p <= 2 ^ 53 ->
  attempt <= 2 ^ 53 ->
  (0 <= multiplier p)%Q ->
  (Qpower (multiplier p) (attempt - 1) <= inject_Z (2 ^ 900))%Q ->
  (jitterFactor p <= 1)%Q ->
  (0 <= rnd)%Q -> (rnd <= 1)%Q ->
  0 <= DelayForAttempt p attempt rnd.
Proof.
  intros Hinit Hcap Hatt Hmul Hpow Hjit Hr0 Hr1. unfold DelayForAttempt.
  destruct (attempt <=? 0) eqn:Hle; [lia|]. apply Z.leb_gt in Hle.
  unfold delayFloat.
  rewrite (float64_of_int_exact (initialDelay p)) by lia.
  rewrite (float64_of_int_exact (maxDelay p)) by lia.
  rewrite (float64_of_int_exact (attempt - 1)) by lia.
  (* the power *)
  assert (Hpw : exists pw, xpow (multiplier p) (inject_Z (attempt - 1)) = Fin pw
                           /\ (0 <= pw)%Q /\ (pw <= inject_Z (2 ^ 900))%Q).
  { unfold xpow. rewrite Qfloor_Z.
    destruct (attempt - 1 =? 0).
    { exists 1%Q. split; [reflexivity|]. split; vm_compute; discriminate. }
    destruct (Qeq_bool (multiplier p) 0).
    { exists 0%Q. split; [reflexivity|]. split; vm_compute; discriminate. }
    exists (Qpower (multiplier p) (attempt - 1)).
    assert (H0 : (0 <= Qpower (multiplier p) (attempt - 1))%Q) by (apply Qpower_0_le, Hmul).
    split; [|split; assumption].
    apply fin_small; [exact H0|].
    apply Qle_trans with (y := inject_Z (2 ^ 900)); [exact Hpow|].
    vm_compute. discriminate. }
  destruct Hpw as (pw & -> & Hpw0 & Hpw1).
  (* the exponential delay *)
  assert (Hi0 : (0 <= inject_Z (initialDelay p))%Q) by (apply inject_Z_nonneg; lia).
  assert (Hi1 : (inject_Z (initialDelay p) <= inject_Z (2 ^ 53))%Q)
    by (rewrite <- Zle_Qle; lia).
  set (x := (inject_Z (initialDelay p) * pw)%Q).
  assert (Hx0 : (0 <= x)%Q) by (apply Qmult_le_0_compat; assumption).
  assert (Hx1 : (x <= inject_Z (2 ^ 953))%Q).
  { unfold x.
    apply Qle_trans with (y := (inject_Z (2 ^ 53) * pw)%Q).
    { apply Qmult_le_compat_r; assumption. }
    apply Qle_trans with (y := (inject_Z (2 ^ 53) * inject_Z (2 ^ 900))%Q).
    { rewrite !(Qmult_comm (inject_Z (2 ^ 53))).
      apply Qmult_le_compat_r; [exact Hpw1|]. vm_compute. discriminate. }
    vm_compute. discriminate. }
  assert (Hb : (inject_Z (2 ^ 953) <= inject_Z (2 ^ 960))%Q) by (vm_compute; discriminate).
  cbn [xmul]. fold x.
  rewrite (fin_small x) by (try assumption; apply Qle_trans with (y := inject_Z (2 ^ 953)); assumption).
  destruct (Qltb 0 (jitterFactor p)) eqn:Hjf.
  2:{ apply int64_of_float_capped_nonneg; [exact Hx0|]. unfold MaxInt64. lia. }
  apply Qltb_true in Hjf.
  (* the jitter *)
  cbn [xmul].
  assert (Hxj0 : (0 <= x * jitterFactor p)%Q) by (apply Qmult_le_0_compat; lra).
  assert (Hxj1 : (x * jitterFactor p <= x)%Q).
  { assert (Heq : (x == x * 1)%Q) by ring. rewrite Heq at 2.
    rewrite !(Qmult_comm x). apply Qmult_le_compat_r; assumption. }
  rewrite (fin_small (x * jitterFactor p)) by (lra).
  rewrite (fin_small_abs (rnd * 2 - 1) 1) by (try lra; vm_compute; discriminate).
  cbn [xmul].
  set (y := (x * jitterFactor p)%Q) in *.
  set (s := (rnd * 2 - 1)%Q).
  assert (Hs0 : (-1 <= s)%Q) by (unfold s; lra).
  assert (Hs1 : (s <= 1)%Q) by (unfold s; lra).
  assert (Hj0 : (- y <= y * s)%Q).
  { assert (Heq : (y * s + y == y * (s + 1))%Q) by ring.
    assert (H : (0 <= y * (s + 1))%Q) by (apply Qmult_le_0_compat; lra). lra. }
  assert (Hj1 : (y * s <= y)%Q).
  { assert (Heq : (y - y * s == y * (1 - s))%Q) by ring.
    assert (H : (0 <= y * (1 - s))%Q) by (apply Qmult_le_0_compat; lra). lra. }
  rewrite (fin_small_abs (y * s) y) by lra.
  cbn [xadd].
  rewrite (fin_small (x + y * s)).
  - apply int64_of_float_capped_nonneg; [lra|]. unfold MaxInt64. lia.
  - lra.
  - apply Qle_trans with (y := (inject_Z (2 ^ 953) + inject_Z (2 ^ 953))%Q); [lra|].
    vm_compute. discriminate.
Qed.

Lemma DelayForAttempt_nonneg_witness :
  0 <= DelayForAttempt DefaultRetryPolicy 2 (1 # 4).
Proof.
  apply DelayForAttempt_nonneg; vm_compute; try split; discriminate.
Defined.

Lemma int64_of_float_Qeq (q q' : Q) :
  (q == q')%Q -> int64_of_float (Fin q) = int64_of_float (Fin q').
Proof.
  intros H. cbn [int64_of_float]. rewrite (Qtrunc_Qeq q q' H). reflexivity.
Qed.

Lemma infOfSign_pos (q : Q) : (0 < q)%Q -> infOfSign q = PosInf.
Proof.
  intros H. unfold infOfSign.
  replace (Qltb 0 q) with true by (symmetry; apply Qltb_true; exact H). reflexivity.
Qed.

(** A value of at least 0 becomes itself or plus infinity. *)
Lemma fin_nonneg_cases (q : Q) :
  (0 <= q)%Q ->
  (fin q = PosInf /\ (overflowAt <= q)%Q) \/ fin q = Fin q.
Proof.
  intros H0. unfold fin.
  destruct (Qle_bool overflowAt q) eqn:E1.
  { left. split; [reflexivity|]. apply Qle_bool_iff, E1. }
  destruct (Qle_bool q (- overflowAt)) eqn:E2; [|right; reflexivity].
  apply Qle_bool_iff in E2. exfalso.
  pose proof overflowAt_pos. lra.
Qed.

(** The delay of a power of two: the product, capped; the cap is what is
    left when the power or the product has overflowed. *)
Lemma int64_of_float_doubling (init P m : Z) (q : Q) :
  1 <= init <= 2 ^ 53 -> 0 <= m <= 2 ^ 53 -> 1 <= P ->
  (q == inject_Z P)%Q ->
  let d := xmul (Fin (inject_Z init)) (fin q) in
  int64_of_float (if xgt d (Fin (inject_Z m)) then Fin (inject_Z m) else d)
  = Z.min (init * P) m.
Proof.
  intros Hinit Hm HP Hq d.
  assert (Hbig : forall z : Z, (overflowAt <= inject_Z z)%Q -> 2 ^ 53 < z).
  { intros z Hz. unfold overflowAt in Hz. rewrite <- Zle_Qle in Hz.
    assert (2 ^ 53 < 2 ^ 1024 - 2 ^ 970) by (vm_compute; reflexivity). lia. }
  assert (Hcapped : int64_of_float (Fin (inject_Z m)) = m).
  { apply int64_of_float_int. unfold MinInt64, MaxInt64. lia. }
  assert (Hq0 : (0 <= q)%Q).
  { rewrite Hq. apply inject_Z_nonneg. lia. }
  assert (Hi : (0 < inject_Z init)%Q).
  { change 0%Q with (inject_Z 0). rewrite <- Zlt_Qlt. lia. }
  assert (HiP : P <= init * P) by nia.
  subst d.
  destruct (fin_nonneg_cases q Hq0) as [[-> Hov]| ->].
  - cbn [xmul]. rewrite (infOfSign_pos _ Hi). cbn [xgt]. rewrite Hcapped.
    rewrite Hq in Hov. apply Hbig in Hov. lia.
  - cbn [xmul].
    assert (Hx : (inject_Z init * q == inject_Z (init * P))%Q).
    { rewrite Hq, inject_Z_mult. reflexivity. }
    assert (Hx0 : (0 <= inject_Z init * q)%Q).
    { apply Qmult_le_0_compat; [apply Qlt_le_weak, Hi | exact Hq0]. }
    destruct (fin_nonneg_cases _ Hx0) as [[-> Hov]| ->].
    + cbn [xgt]. rewrite Hcapped. rewrite Hx in Hov. apply Hbig in Hov. lia.
    + cbn [xgt]. destruct (Qltb (inject_Z m) (inject_Z init * q)) eqn:Hcap.
      * rewrite Hcapped. apply Qltb_true in Hcap. rewrite Hx in Hcap.
        rewrite <- Zlt_Qlt in Hcap. lia.
      * apply Qltb_false in Hcap. rewrite Hx in Hcap. rewrite <- Zle_Qle in Hcap.
        rewrite (int64_of_float_Qeq _ _ Hx).
        rewrite int64_of_float_int; [lia|]. unfold MinInt64, MaxInt64. nia.
Qed.

(** X10. Without jitter and with the multiplier 2 of the default policy, an
    initial delay from 1 to [2^53] nanoseconds and a cap from 0 to [2^53],
    the delay of attempt [n] (from 1 to [2^53]) is exactly
    [min (initialDelay * 2^(n-1)) maxDelay]: it doubles until it reaches the
    cap, and stays at the cap also when the product has overflowed. *)
Theorem DelayForAttempt_doubling (p : RetryPolicy) (attempt : Z) (rnd : float64) :
  (jitterFactor p <= 0)%Q -> (multiplier p == 2)%Q ->
  1 <= initialDelay p <= 2 ^ 53 -> 0 <= maxDelay p <= 2 ^ 53 ->
  1 <= attempt <= 2 ^ 53 ->
  DelayForAttempt p attempt rnd
  = Z.min (initialDelay p * 2 ^ (attempt - 1)) (maxDelay p).
Proof.
  intros Hjit Hmul Hinit Hcap Hatt. unfold DelayForAttempt.
  replace (attempt <=? 0) with false by (symmetry; apply Z.leb_gt; lia).
  unfold delayFloat.
  replace (Qltb 0 (jitterFactor p)) with false by (symmetry; apply Qltb_false; exact Hjit).
  rewrite (float64_of_int_exact (initialDelay p)) by lia.
  rewrite (float64_of_int_exact (maxDelay p)) by lia.
  rewrite (float64_of_int_exact (attempt - 1)) by lia.
  assert (HP : 1 <= 2 ^ (attempt - 1)).
  { apply (Z.pow_le_mono_r 2 0 (attempt - 1)); lia. }
  assert (Hpw : exists q, xpow (multiplier p) (inject_Z (attempt - 1)) = fin q
                          /\ (q == inject_Z (2 ^ (attempt - 1)))%Q).
  { unfold xpow. rewrite Qfloor_Z.
    destruct (attempt - 1 =? 0) eqn:Hk.
    { apply Z.eqb_eq in Hk. rewrite Hk. exists 1%Q. split; [|reflexivity].
      symmetry. apply fin_small; vm_compute; discriminate. }
    destruct (Qeq_bool (multiplier p) 0) eqn:Hz.
    { apply Qeq_bool_iff in Hz. rewrite Hmul in Hz. discriminate. }
    exists (Qpower (multiplier p) (attempt - 1)). split; [reflexivity|].
    rewrite Hmul. symmetry. apply (Zpower_Qpower 2). lia. }
  destruct Hpw as (q & -> & Hq).
  apply int64_of_float_doubling; assumption.
Qed.

Lemma DelayForAttempt_doubling_witness :
  DelayForAttempt (WithJitter DefaultRetryPolicy 0%Q) 3 0%Q
  = Z.min (initialDelay (WithJitter DefaultRetryPolicy 0%Q) * 2 ^ (3 - 1))
          (maxDelay (WithJitter DefaultRetryPolicy 0%Q)).
Proof.
  apply DelayForAttempt_doubling; vm_compute; try split; (reflexivity || discriminate).
Defined.

End DelayMoreFacts.

(** ** Signatures and webhooks, continued *)

Section SignatureMoreFacts.

Lemma round_length (hs ws : list Z) (k : Z) :
  length (fst (Crypto.round hs ws k)) = length hs.
Proof.
  unfold Crypto.round.
  destruct hs as [|a [|b [|c [|d [|e [|f [|g [|h [|i hs]]]]]]]]]; try reflexivity.
  destruct ws; reflexivity.
Qed.

Lemma rounds_length (ks : list Z) (hs ws : list Z) :
  length (fst (fold_left (fun '(h, w) k => Crypto.round h w k) ks (hs, ws))) = length hs.
Proof.
  revert hs ws; induction ks as [|k ks IH]; intros hs ws; [reflexivity|].
  cbn [fold_left]. pose proof (round_length hs ws k) as Hr.
  destruct (Crypto.round hs ws k) as [hs1 ws1]. rewrite IH. exact Hr.
Qed.

Lemma compress_length (hs block : list Z) :
  length (Crypto.compress hs block) = length hs.
Proof.
  unfold Crypto.compress.
  pose proof (rounds_length Crypto.K256 hs (Crypto.words 16 block)) as Hr.
  destruct (fold_left _ Crypto.K256 _) as [hs' ws']. cbn [fst] in Hr.
  rewrite length_map, length_combine, Hr. lia.
Qed.

Lemma blocks_length (n : nat) (hs bs : list Z) :
  length (Crypto.blocks n hs bs) = length hs.
Proof.
  revert hs bs; induction n as [|n IH]; intros hs bs; [reflexivity|].
  cbn [Crypto.blocks]. rewrite IH. apply compress_length.
Qed.

Lemma be32_words_length (ws : list Z) :
  length (concat (map Crypto.be32 ws)) = (4 * length ws)%nat.
Proof.
  induction ws as [|x ws IH]; [reflexivity|].
  cbn [map concat]. rewrite length_app, IH. cbn. lia.
Qed.

(** A SHA-256 digest has 32 bytes. *)
Lemma sha256Z_length (msg : list Z) : length (Crypto.sha256Z msg) = 32%nat.
Proof.
  unfold Crypto.sha256Z. rewrite be32_words_length, blocks_length. reflexivity.
Qed.

Lemma hex_EncodeToString_length (bs : list byte) :
  String.length (Crypto.hex_EncodeToString bs) = (2 * length bs)%nat.
Proof.
  induction bs as [|b bs IH]; [reflexivity|].
  cbn [Crypto.hex_EncodeToString String.length length]. rewrite IH. lia.
Qed.

(** An HMAC-SHA256 has 32 bytes. *)
Lemma hmac_sha256_length (key msg : list byte) :
  length (Crypto.hmac_sha256 key msg) = 32%nat.
Proof.
  unfold Crypto.hmac_sha256, Crypto.hmacZ. rewrite length_map. apply sha256Z_length.
Qed.

(** X11. Every signature is a string of 64 characters, whatever the key and
    the base string (also for the empty key). *)
Theorem sign_length (s : Signature) (baseString : string) :
  String.length (sign s baseString) = 64%nat.
Proof.
  unfold sign.
  rewrite hex_EncodeToString_length, hmac_sha256_length. reflexivity.
Qed.

Lemma list_byte_of_string_inj (s r : string) :
  list_byte_of_string s = list_byte_of_string r -> s = r.
Proof.
  intros H. rewrite <- (string_of_list_byte_of_string s), H.
  apply string_of_list_byte_of_string.
Qed.

(** X12. [VerifyWebhook] accepts one string only: the signature of the base
    URL, a bar and the body under the handler's key. Any other string is
    rejected (a signature in upper-case hexadecimal, a truncated one). *)
Theorem VerifyWebhook_iff (s : Signature) (baseURL : string) (body : list byte)
        (providedSignature : string) :
  Sig.VerifyWebhook s baseURL body providedSignature = true <->
  providedSignature = sign s (baseURL +:+ "|" +:+ string_of_list_byte body).
Proof.
  unfold Sig.VerifyWebhook. rewrite hmac_Equal_iff. split.
  - intros H. symmetry. apply list_byte_of_string_inj, H.
  - intros ->. reflexivity.
Qed.

(** X13. The webhook handler reads the signature from the [Authorization]
    header and falls back on [authorization] only when the first is missing
    or empty; it accepts the request exactly when the header it read is the
    expected signature, rejects a request without either header, and never
    returns an error. *)
Theorem Webhook_VerifyWebhook_iff (h : Webhook.WebhookHandler) (body : list byte)
        (headers : gmap string string) :
  let expected :=
    sign (Webhook.signature h) (Webhook.webhookURL h +:+ "|" +:+ string_of_list_byte body) in
  let provided :=
    match headers !! "Authorization" with
    | Some a => if String.eqb a "" then default "" (headers !! "authorization") else a
    | None => default "" (headers !! "authorization")
    end in
  (fst (Webhook.VerifyWebhook h body headers) = true <-> provided = expected)
  /\ snd (Webhook.VerifyWebhook h body headers) = None.
Proof.
  cbn zeta. unfold Webhook.VerifyWebhook, Webhook.header.
  assert (Hne : forall x, "" <> sign (Webhook.signature h) x).
  { intros x Hx. apply (f_equal String.length) in Hx. unfold sign in Hx.
    rewrite hex_EncodeToString_length, hmac_sha256_length in Hx. discriminate Hx. }
  assert (Hverify : forall provided,
             Sig.VerifyWebhook (Webhook.signature h) (Webhook.webhookURL h) body provided
             = true <->
             provided = sign (Webhook.signature h)
                          (Webhook.webhookURL h +:+ "|" +:+ string_of_list_byte body)).
  { intros provided. unfold Sig.VerifyWebhook. rewrite hmac_Equal_iff. split.
    - intros H. symmetry. apply list_byte_of_string_inj, H.
    - intros ->. reflexivity. }
  remember (default "" (headers !! "authorization")) as lower eqn:Hlower.
  assert (Hlow : fst (if String.eqb lower "" then (false, None)
                      else (Sig.VerifyWebhook (Webhook.signature h)
                              (Webhook.webhookURL h) body lower, @None error))
                 = true <->
                 lower = sign (Webhook.signature h)
                           (Webhook.webhookURL h +:+ "|" +:+ string_of_list_byte body)).
  { destruct (String.eqb_spec lower "") as [Hl|Hl]; cbn [fst].
    - rewrite Hl. split; [discriminate | intros Hx; destruct (Hne _ Hx)].
    - apply Hverify. }
  assert (Hsnd : snd (if String.eqb lower "" then (false, None)
                      else (Sig.VerifyWebhook (Webhook.signature h)
                              (Webhook.webhookURL h) body lower, @None error)) = None)
    by (destruct (String.eqb lower ""); reflexivity).
  destruct (headers !! "Authorization") as [a|]; simpl.
  - destruct (String.eqb_spec a "") as [Ha|Ha].
    + split; [exact Hlow | exact Hsnd].
    + replace (String.eqb a "") with false by (symmetry; apply String.eqb_neq; exact Ha).
      cbn [fst snd]. split; [apply Hverify | reflexivity].
  - split; [exact Hlow | exact Hsnd].
Qed.

(** X14. [ValidateTimestamp] on two [int64] timestamps. As long as their
    distance is below [2^63] seconds, it accepts exactly the timestamps at
    most 300 seconds away from the server's, on either side and with both
    ends included. The difference is a 64-bit one, so it also accepts two
    timestamps exactly [2^63] apart (the negation of [MinInt64] is
    [MinInt64]) and two timestamps within 300 seconds of the two ends of the
    [int64] range. It is symmetric in its two arguments. *)
Theorem ValidateTimestamp_iff (timestamp serverTimestamp : Z) :
  MinInt64 <= timestamp <= MaxInt64 ->
  MinInt64 <= serverTimestamp <= MaxInt64 ->
  let distance := Z.abs (serverTimestamp - timestamp) in
  (ValidateTimestamp timestamp serverTimestamp = true <->
     distance <= 300 \/ distance = 2 ^ 63 \/ 2 ^ 64 - 300 <= distance)
  /\ (distance < 2 ^ 63 ->
      (ValidateTimestamp timestamp serverTimestamp = true <-> distance <= 300))
  /\ ValidateTimestamp timestamp serverTimestamp
     = ValidateTimestamp serverTimestamp timestamp.
Proof.
  intros Ht Hs distance. subst distance.
  assert (Hiff : forall t s, MinInt64 <= t <= MaxInt64 -> MinInt64 <= s <= MaxInt64 ->
            (ValidateTimestamp t s = true <->
             Z.abs (s - t) <= 300 \/ Z.abs (s - t) = 2 ^ 63
             \/ 2 ^ 64 - 300 <= Z.abs (s - t))).
  { clear. intros t s Ht Hs. unfold ValidateTimestamp.
    destruct (wrap64_spec (s - t)) as (k1 & Hk1 & Hr1).
    destruct (wrap64_spec (- wrap64 (s - t))) as (k2 & Hk2 & Hr2).
    unfold MinInt64, MaxInt64 in *.
    destruct (Z.ltb_spec (wrap64 (s - t)) 0); rewrite Z.leb_le; lia. }
  split; [apply Hiff; assumption|]. split.
  - intros Hd. rewrite (Hiff _ _ Ht Hs). lia.
  - apply eq_true_iff_eq. rewrite (Hiff _ _ Ht Hs), (Hiff _ _ Hs Ht).
    replace (timestamp - serverTimestamp) with (- (serverTimestamp - timestamp)) by lia.
    rewrite Z.abs_opp. reflexivity.
Qed.

Lemma ValidateTimestamp_iff_witness :
  ValidateTimestamp 1700000000 1700000300 = true
  /\ ValidateTimestamp 1700000000 1700000301 = false
  /\ ValidateTimestamp MinInt64 0 = true.
Proof.
  split; [|split].
  - apply (ValidateTimestamp_iff 1700000000 1700000300);
      vm_compute; try split; try left; discriminate.
  - vm_compute. reflexivity.
  - vm_compute. reflexivity.
Defined.

(** [%d] prints different integers differently. *)
Lemma fmt_d_inj (n m : Z) : fmt_d n = fmt_d m -> n = m.
Proof.
  unfold fmt_d. intros H.
  assert (Hnn : forall z, Z.to_int z <> Decimal.Pos Decimal.Nil
                          /\ Z.to_int z <> Decimal.Neg Decimal.Nil).
  { intros [|q|q]; cbn; split; try discriminate;
      intros [= Hq]; exact (Stdlib.Numbers.DecimalPos.Unsigned.to_uint_nonnil q Hq). }
  apply Stdlib.Numbers.DecimalZ.to_int_inj.
  assert (Hs : Some (Z.to_int n) = Some (Z.to_int m)).
  { rewrite <- (NilZero.isi (Z.to_int n)) by apply Hnn.
    rewrite <- (NilZero.isi (Z.to_int m)) by apply Hnn.
    rewrite H. reflexivity. }
  congruence.
Qed.

Lemma append_inj_l (s x y : string) : s +:+ x = s +:+ y -> x = y.
Proof.
  induction s as [|a s IH]; [intros H; exact H|].
  rewrite !append_String. intros [= H]. apply IH, H.
Qed.

(** X15. [mapEventType] names different push codes differently: the eight
    known codes have eight distinct names, and an unknown code is named
    "unknown." followed by its decimal digits, which no known name is. *)
Theorem mapEventType_inj (code code' : Z) :
  Webhook.mapEventType code = Webhook.mapEventType code' -> code = code'.
Proof.
  unfold Webhook.mapEventType, Webhook.PushCodeShopAuthorization,
    Webhook.PushCodeOrderStatusUpdate, Webhook.PushCodeTrackingUpdate,
    Webhook.PushCodeItemPromotion, Webhook.PushCodeReservedStockChange,
    Webhook.PushCodeBrandRegister, Webhook.PushCodeOpenApi, Webhook.PushCodeWebhookTest.
  assert (Hu : forall x, exists r, "unknown." +:+ x = String "u" r)
    by (intros x; eexists; reflexivity).
  repeat match goal with
         | |- context [?c =? ?k] => destruct (Z.eqb_spec c k) as [->| ]
         end;
    intros H; try reflexivity; try discriminate H;
    try (destruct (Hu (fmt_d code)) as [r Hr]; rewrite Hr in H; discriminate H);
    try (destruct (Hu (fmt_d code')) as [r Hr]; rewrite Hr in H; discriminate H).
  apply fmt_d_inj, (append_inj_l "unknown."), H.
Qed.

End SignatureMoreFacts.

(** ** Token buckets and the limiter, continued *)

Section LimiterMoreFacts.

Lemma Qtrunc_Zdiv (n m : Z) :
  0 <= n -> 0 < m -> Qtrunc (inject_Z n / inject_Z m) = n / m.
Proof.
  intros Hn Hm. rewrite Zdiv_Qdiv. apply Qtrunc_floor.
  apply Qnum_nonneg. apply Qle_shift_div_l.
  - unfold Qlt; cbn. lia.
  - rewrite Qmult_0_l. apply inject_Z_nonneg, Hn.
Qed.

Lemma Seconds_zero (t : Z) : (Seconds (t - t)%Z == 0)%Q.
Proof. rewrite Z.sub_diag. reflexivity. Qed.

(** X16. On a bucket within its bound, with an integer rate [rps > 0],
    [take] never returns a negative wait and never one longer than the time
    one token takes to refill, [Second / rps]. *)
Theorem take_wait_bounds (tb : tokenBucket) (t rps : Z) :
  (0 <= tokens tb)%Q -> (0 <= maxTokens tb)%Q ->
  refillRate tb = inject_Z rps -> 0 < rps ->
  lastRefill tb <= t ->
  0 <= fst (take tb t) <= Second / rps.
Proof.
  intros Htok Hmax Hrate Hrps Ht. unfold take. rewrite Hrate.
  assert (Hr : (0 < inject_Z rps)%Q) by (unfold Qlt; cbn; lia).
  assert (He : (0 <= Seconds (t - lastRefill tb)%Z * inject_Z rps)%Q).
  { apply Qmult_le_0_compat; [apply Seconds_nonneg; lia | apply Qlt_le_weak, Hr]. }
  set (e := (Seconds (t - lastRefill tb)%Z * inject_Z rps)%Q) in *.
  assert (Hdiv : 0 <= Second / rps) by (apply Z.div_pos; unfold Second; lia).
  set (toks := if Qltb (maxTokens tb) (tokens tb + e) then maxTokens tb
               else (tokens tb + e)%Q).
  assert (Htoks : (0 <= toks)%Q).
  { unfold toks. destruct (Qltb (maxTokens tb) (tokens tb + e)); lra. }
  destruct (Qle_bool 1 toks) eqn:Hone; cbn [fst]; [lia|].
  assert (Hlt : (toks < 1)%Q).
  { apply Qnot_le_lt. intros H. apply Qle_bool_iff in H. congruence. }
  assert (Hinv : (0 < / inject_Z rps)%Q) by (apply Qinv_lt_0_compat, Hr).
  assert (Hprod : (0 <= toks * (/ inject_Z rps * inject_Z Second))%Q).
  { apply Qmult_le_0_compat; [exact Htoks|].
    apply Qmult_le_0_compat; [lra | apply inject_Z_nonneg; unfold Second; lia]. }
  assert (Hprod' : (0 <= (1 - toks) * (/ inject_Z rps * inject_Z Second))%Q).
  { apply Qmult_le_0_compat; [lra|].
    apply Qmult_le_0_compat; [lra | apply inject_Z_nonneg; unfold Second; lia]. }
  split.
  - apply Qtrunc_nonneg. unfold Qdiv.
    assert (Heq : ((1 - toks) * / inject_Z rps * inject_Z Second
                   == (1 - toks) * (/ inject_Z rps * inject_Z Second))%Q) by ring.
    rewrite Heq. exact Hprod'.
  - rewrite <- (Qtrunc_Zdiv Second rps) by (unfold Second; lia).
    apply Qtrunc_mono. unfold Qdiv.
    assert (Heq : ((1 - toks) * / inject_Z rps * inject_Z Second
                   == inject_Z Second * / inject_Z rps
                      - toks * (/ inject_Z rps * inject_Z Second))%Q) by ring.
    rewrite Heq. lra.
Qed.

Lemma take_wait_bounds_witness :
  0 <= fst (take (newTokenBucket 10 0 0) 30000000) <= Second / 10.
Proof.
  apply take_wait_bounds; vm_compute; try reflexivity; discriminate.
Defined.

(** Calls made at the instant of the last refill, on a bucket holding
    exactly [k] tokens: [k] are admitted, the next is told to wait one token
    period. *)
Lemma takeWaits_same_instant (rps t0 : Z) (k : nat) (tb : tokenBucket) :
  0 < rps ->
  (tokens tb == inject_Z (Z.of_nat k))%Q ->
  (tokens tb <= maxTokens tb)%Q ->
  refillRate tb = inject_Z rps ->
  lastRefill tb = t0 ->
  Runs.takeWaits tb (repeat t0 (k + 1)) = repeat 0 k ++ [Second / rps].
Proof.
  intros Hrps. revert tb; induction k as [|k IH]; intros tb Htok Hmax Hrate Hlast.
  - cbn [repeat Nat.add Runs.takeWaits app]. f_equal. unfold take.
    rewrite Hlast, Hrate.
    assert (He : (tokens tb + Seconds (t0 - t0)%Z * inject_Z rps == tokens tb)%Q).
    { rewrite Seconds_zero. ring. }
    replace (Qltb (maxTokens tb) (tokens tb + Seconds (t0 - t0)%Z * inject_Z rps))
      with false by (symmetry; apply Qltb_false; rewrite He; exact Hmax).
    replace (Qle_bool 1 (tokens tb + Seconds (t0 - t0)%Z * inject_Z rps)) with false.
    2: { symmetry. apply not_true_iff_false. rewrite Qle_bool_iff, He, Htok.
         cbn. unfold Qle; cbn. lia. }
    cbn [fst]. rewrite <- (Qtrunc_Zdiv Second rps) by (unfold Second; lia).
    apply Qtrunc_Qeq. rewrite He, Htok. cbn [Z.of_nat].
    unfold Qdiv. ring.
  - cbn [repeat Nat.add Runs.takeWaits app].
    assert (Hstep : fst (take tb t0) = 0
                    /\ (tokens (snd (take tb t0)) == inject_Z (Z.of_nat k))%Q
                    /\ maxTokens (snd (take tb t0)) = maxTokens tb
                    /\ refillRate (snd (take tb t0)) = refillRate tb
                    /\ lastRefill (snd (take tb t0)) = t0).
    { unfold take. rewrite Hlast.
      assert (He : (tokens tb + Seconds (t0 - t0)%Z * refillRate tb == tokens tb)%Q).
      { rewrite Seconds_zero. ring. }
      replace (Qltb (maxTokens tb) (tokens tb + Seconds (t0 - t0)%Z * refillRate tb))
        with false by (symmetry; apply Qltb_false; rewrite He; exact Hmax).
      replace (Qle_bool 1 (tokens tb + Seconds (t0 - t0)%Z * refillRate tb)) with true.
      2: { symmetry. rewrite Qle_bool_iff, He, Htok. unfold Qle; cbn. lia. }
      cbn. repeat split. rewrite He, Htok.
      rewrite Nat2Z.inj_succ. unfold Z.succ. rewrite inject_Z_plus. ring. }
    destruct Hstep as (Hw & Htok' & Hmax' & Hrate' & Hlast').
    rewrite Hw. f_equal. apply IH.
    + exact Htok'.
    + rewrite Htok', Hmax'. apply Qle_trans with (tokens tb); [|exact Hmax].
      rewrite Htok. unfold Qle; cbn. lia.
    + rewrite Hrate'. exact Hrate.
    + exact Hlast'.
Qed.

(** X17. A new bucket of burst [burst >= 0] and rate [rps > 0] admits
    exactly [burst] calls made at the instant of its creation, and tells the
    next one to wait [Second / rps]. *)
Theorem takeWaits_burst (rps burst t0 : Z) :
  0 <= burst -> 0 < rps ->
  Runs.takeWaits (newTokenBucket rps burst t0) (repeat t0 (Z.to_nat burst + 1))
  = repeat 0 (Z.to_nat burst) ++ [Second / rps].
Proof.
  intros Hburst Hrps. apply takeWaits_same_instant; cbn; try reflexivity.
  - exact Hrps.
  - rewrite Z2Nat.id by exact Hburst. reflexivity.
  - apply Qle_refl.
Qed.

Lemma takeWaits_burst_witness :
  Runs.takeWaits (newTokenBucket 10 20 5) (repeat 5 (Z.to_nat 20 + 1))
  = repeat 0 (Z.to_nat 20) ++ [Second / 10].
Proof.
  apply takeWaits_burst; lia.
Defined.

(** X18. [getBucket] creates lazily and only once: the bucket it returns is
    in the map afterwards, every bucket that was in the map is still there
    unchanged, the configuration is untouched, and asking again for the same
    key changes nothing. *)
Theorem getBucket_idempotent (rl : RateLimiter) (order1 order2 order2' : list (string * PathLimit))
        (path : string) (t t' : Z) :
  let key := fst (getBucket rl order1 order2 path t) in
  let rl' := snd (getBucket rl order1 order2 path t) in
  key = findBucketKey order1 path
  /\ is_Some (buckets rl' !! key)
  /\ (forall k b, buckets rl !! k = Some b -> buckets rl' !! k = Some b)
  /\ config rl' = config rl
  /\ getBucket rl' order1 order2' path t' = (key, rl').
Proof.
  cbn zeta. unfold getBucket.
  destruct (buckets rl !! findBucketKey order1 path) as [b|] eqn:Hlook.
  - cbn [fst snd]. rewrite Hlook. repeat split; eauto.
  - destruct (getLimitForPath rl order2 path) as [rps burst]. cbn [fst snd buckets config].
    rewrite lookup_insert_eq. repeat split; eauto.
    intros k b Hk. rewrite lookup_insert_ne; [exact Hk|]. congruence.
Qed.



End LimiterMoreFacts.

(** ** The request URL *)

Section UrlFacts.

Lemma compare_not_Gt_trans (s1 s2 s3 : string) :
  String.compare s1 s2 <> Gt -> String.compare s2 s3 <> Gt -> String.compare s1 s3 <> Gt.
Proof.
  revert s2 s3; induction s1 as [|a s1 IH]; intros [|b s2] [|c s3]; cbn;
    try congruence.
  unfold Ascii.compare.
  destruct (N.compare_spec (N_of_ascii a) (N_of_ascii b)) as [Hab|Hab|Hab];
    destruct (N.compare_spec (N_of_ascii b) (N_of_ascii c)) as [Hbc|Hbc|Hbc];
    destruct (N.compare_spec (N_of_ascii a) (N_of_ascii c)) as [Hac|Hac|Hac];
    try congruence; try lia.
  apply IH.
Qed.

#[local] Instance sleb_trans : Transitive sleb.
Proof.
  intros x y z. unfold sleb, String.leb. intros Hxy Hyz.
  pose proof (compare_not_Gt_trans x y z) as H.
  destruct (String.compare x y); destruct (String.compare y z);
    destruct (String.compare x z); try reflexivity; try discriminate;
    exfalso; apply H; congruence.
Qed.

#[local] Instance sleb_antisym : AntiSymm eq sleb.
Proof. intros x y. apply String.leb_antisym. Qed.

Lemma insertSorted_Permutation (x : string) (l : list string) :
  insertSorted x l ≡ₚ x :: l.
Proof.
  induction l as [|y l IH]; cbn; [reflexivity|].
  destruct (String.leb x y); [reflexivity|].
  rewrite IH. apply Permutation_swap.
Qed.

Lemma insertSorted_Sorted (x : string) (l : list string) :
  Sorted sleb l -> Sorted sleb (insertSorted x l).
Proof.
  induction l as [|y l IH]; intros Hs; cbn.
  - repeat constructor.
  - destruct (String.leb x y) eqn:Hxy.
    + constructor; [exact Hs | constructor; exact Hxy].
    + inversion Hs as [|? ? Hl Hhd]; subst.
      constructor; [apply IH, Hl|].
      assert (Hyx : sleb y x).
      { destruct (String.leb_total x y) as [H|H]; [congruence | exact H]. }
      destruct l as [|z l]; cbn.
      * constructor; exact Hyx.
      * destruct (String.leb x z); constructor; [exact Hyx|].
        inversion Hhd; assumption.
Qed.

Lemma sort_Strings_Sorted (l : list string) : Sorted sleb (sort_Strings l).
Proof.
  induction l as [|x l IH]; cbn; [constructor | apply insertSorted_Sorted, IH].
Qed.

Lemma sort_Strings_Permutation (l : list string) : sort_Strings l ≡ₚ l.
Proof.
  induction l as [|x l IH]; cbn; [reflexivity|].
  rewrite insertSorted_Permutation, IH. reflexivity.
Qed.

Lemma sort_Strings_perm (l l' : list string) :
  l ≡ₚ l' -> sort_Strings l = sort_Strings l'.
Proof.
  intros Hp. apply (Sorted_unique sleb); try apply sort_Strings_Sorted.
  rewrite !sort_Strings_Permutation. exact Hp.
Qed.

(** X20. The URL of a request does not depend on the order in which the map
    of query parameters is visited: the parameters are sorted (in increasing
    byte order) before they are joined, so two visits of the same entries
    give the same URL. *)
Theorem buildURL_query_order (c : Client) (req req' : Request) (timestamp : Z)
        (accessToken' : string) (shopID' : Z) :
  Method req = Method req' -> Path req = Path req' ->
  NeedAuth req = NeedAuth req' ->
  Query req ≡ₚ Query req' ->
  buildURL c req timestamp accessToken' shopID'
  = buildURL c req' timestamp accessToken' shopID'.
Proof.
  intros _ Hpath Hauth Hq. unfold buildURL. rewrite <- Hpath, <- Hauth.
  destruct (NeedAuth req); f_equal; f_equal; f_equal;
    apply sort_Strings_perm; rewrite Hq; reflexivity.
Qed.

Lemma buildURL_query_order_witness :
  let req := {| Method := "GET"; Path := "/api/v2/returns/get_return_list";
                Query := [("page_size", "50"); ("page_no", "2")];
                Body := None; NeedAuth := true |} in
  let req' := {| Method := "GET"; Path := "/api/v2/returns/get_return_list";
                 Query := [("page_no", "2"); ("page_size", "50")];
                 Body := None; NeedAuth := true |} in
  let c := testClient DefaultRetryPolicy (serverAlways (Responded 200 okBody)) None in
  buildURL c req 1700000000 "at1" 42 = buildURL c req' 1700000000 "at1" 42.
Proof.
  intros req req' c.
  apply buildURL_query_order; try reflexivity. apply Permutation_swap.
Defined.

(** The sorted parameters, as a property of [sort.Strings] itself. *)
Lemma sort_Strings_spec (l : list string) :
  Sorted sleb (sort_Strings l) /\ sort_Strings l ≡ₚ l.
Proof. split; [apply sort_Strings_Sorted | apply sort_Strings_Permutation]. Qed.

End UrlFacts.

(** ** Single requests and their classification *)

Section RequestFacts.
Implicit Types (c : Client) (ctx : Context) (req : Request) (w : World ClientState).

(** What [doRequest] does once the server has answered [status] and
    [body], when the request could be built. *)
Lemma doRequest_responded c ctx req wantResult w status body :
  (forall msg, Body req <> Some (MarshalError msg)) ->
  NewRequestErr (httpClient c) (Method req) (requestURL c req w) = None ->
  RoundTrip (httpClient c) (trace (st w)) (Method req) (requestURL c req w) (requestBody req)
  = Responded status body ->
  let ev := EvHTTP (Method req) (requestURL c req w) (requestBody req) in
    isHTTP ev = true
    /\ snd (doRequest c ctx req wantResult w) = set_st (emit ev (st w)) w
    /\ fst (doRequest c ctx req wantResult w)
       = match
           match asEnvelope body with
           | Some baseResp =>
               if negb (String.eqb (envError baseResp) "")
                  && negb (String.eqb (envError baseResp) "success")
               then Some (NewAPIErrorWithRequestID (envError baseResp)
                            (envMessage baseResp) status (envRequestID baseResp))
               else None
           | None => None
           end
         with
         | Some e => Some (ErrAPI e)
         | None =>
             if 400 <=? status
             then Some (ErrAPI (NewAPIError CodeServerError
                                  ("HTTP error: " +:+ fmt_d status) status))
             else if wantResult then
                    match asResult body with
                    | Some msg => Some (ErrPlain ("failed to parse response: " +:+ msg))
                    | None => None
                    end
                  else None
         end.
Proof.
  intros Hbody Hnew Hrt. cbn zeta. unfold doRequest.
  unfold requestURL, requestBody in *.
  destruct (Body req) as [[json|msg]|] eqn:Hb; [|destruct (Hbody msg eq_refl)|];
    rewrite Hnew, Hrt;
    repeat match goal with
           | |- context [match ?x with _ => _ end] => destruct x
           | |- context [if ?x then _ else _] => destruct x
           end;
    (split; [|split]; reflexivity).
Qed.

(** X21. An answer with an HTTP status of 400 or more and no platform error
    in its body (no envelope, or an empty or "success" error field) becomes
    an [error_server] error carrying that status: it falls in the server
    category and is retryable, also for a 4xx status such as 404, and it does
    not trigger a token refresh. *)
Theorem doRequest_http_error c ctx req wantResult w status body :
  (forall msg, Body req <> Some (MarshalError msg)) ->
  NewRequestErr (httpClient c) (Method req) (requestURL c req w) = None ->
  RoundTrip (httpClient c) (trace (st w)) (Method req) (requestURL c req w) (requestBody req)
  = Responded status body ->
  400 <= status ->
  match asEnvelope body with
  | Some baseResp => envError baseResp = "" \/ envError baseResp = "success"
  | None => True
  end ->
  let e := NewAPIError CodeServerError ("HTTP error: " +:+ fmt_d status) status in
  fst (doRequest c ctx req wantResult w) = Some (ErrAPI e)
  /\ IsRetryable e = true
  /\ Category e = CategoryServer
  /\ refreshTriggered (ErrAPI e) = false.
Proof.
  intros Hbody Hnew Hrt Hstatus Henv. cbn zeta.
  destruct (doRequest_responded c ctx req wantResult w status body Hbody Hnew Hrt)
    as (_ & _ & Hfst).
  split; [|repeat split].
  rewrite Hfst.
  replace (400 <=? status) with true by (symmetry; apply Z.leb_le; exact Hstatus).
  destruct (asEnvelope body) as [baseResp|]; [|reflexivity].
  destruct Henv as [->| ->]; reflexivity.
Qed.

Lemma doRequest_http_error_witness :
  let c := testClient DefaultRetryPolicy
             (serverAlways (Responded 404 {| asEnvelope := None; asResult := None |})) None in
  let e := NewAPIError CodeServerError ("HTTP error: " +:+ fmt_d 404) 404 in
  fst (doRequest c Background getShopInfo true world0) = Some (ErrAPI e)
  /\ IsRetryable e = true
  /\ Category e = CategoryServer
  /\ refreshTriggered (ErrAPI e) = false.
Proof.
  intros c e.
  apply (doRequest_http_error c Background getShopInfo true world0 404
           {| asEnvelope := None; asResult := None |}).
  - intros msg. discriminate.
  - reflexivity.
  - reflexivity.
  - lia.
  - exact I.
Defined.

(** X22. A platform error in the body wins over the HTTP status: whenever
    the envelope of the answer has an error ([BaseResponse.HasError]),
    [doRequest] returns the [APIError] that [BaseResponse.ToAPIError] builds
    from it, with the code the server sent, under a status 200 as under a
    status 500. *)
Theorem doRequest_platform_error c ctx req wantResult w status body baseResp warning :
  (forall msg, Body req <> Some (MarshalError msg)) ->
  NewRequestErr (httpClient c) (Method req) (requestURL c req w) = None ->
  RoundTrip (httpClient c) (trace (st w)) (Method req) (requestURL c req w) (requestBody req)
  = Responded status body ->
  asEnvelope body = Some baseResp ->
  let r := {| Returns.Error := envError baseResp; Returns.Message := envMessage baseResp;
              Returns.Warning := warning; Returns.RequestID := envRequestID baseResp |} in
  Returns.HasError r = true ->
  fst (doRequest c ctx req wantResult w) = Some (ErrAPI (Returns.ToAPIError r status)).
Proof.
  intros Hbody Hnew Hrt Henv r Hhas.
  destruct (doRequest_responded c ctx req wantResult w status body Hbody Hnew Hrt)
    as (_ & _ & Hfst).
  rewrite Hfst, Henv. unfold Returns.HasError in Hhas. cbn in Hhas.
  rewrite Hhas. reflexivity.
Qed.

Lemma doRequest_platform_error_witness :
  let c := testClient DefaultRetryPolicy
             (serverAlways (Responded 200 (errorBody "error_param" "bad item_id"))) None in
  fst (doRequest c Background getShopInfo true world0)
  = Some (ErrAPI (NewAPIErrorWithRequestID "error_param" "bad item_id" 200 "")).
Proof.
  intros c.
  apply (doRequest_platform_error c Background getShopInfo true world0 200
           (errorBody "error_param" "bad item_id")
           {| envError := "error_param"; envMessage := "bad item_id"; envRequestID := "" |}
           "").
  - intros msg. discriminate.
  - reflexivity.
  - reflexivity.
  - reflexivity.
  - reflexivity.
Defined.

(** X23. [tryRefreshToken] either fails and leaves the credentials as they
    were, or succeeds after exactly one call of the refresher and installs
    the tokens it returned, with the same shop ID and an expiry of
    [ExpiresIn] seconds from now: the life time is a 64-bit number of
    nanoseconds, which is [ExpiresIn] seconds as long as [ExpiresIn] is at
    most 9223372036 in absolute value and wraps around beyond. It fails
    without calling the refresher when none is set or when the refresh token
    is empty. *)
Theorem tryRefreshToken_credentials c ctx w :
  let out := tryRefreshToken c ctx w in
  let s := st w in
  let s' := st (snd out) in
  (forall err, fst out = Some err ->
     accessToken s' = accessToken s /\ refreshToken s' = refreshToken s
     /\ shopID s' = shopID s /\ tokenExpiry s' = tokenExpiry s)
  /\ (fst out = None ->
      exists refresher result,
        tokenRefresher c = Some refresher
        /\ refreshToken s <> ""
        /\ refresher (trace s) (refreshToken s) (shopID s) = inl result
        /\ trace s' = trace s ++ [EvRefreshToken (refreshToken s) (shopID s)]
        /\ accessToken s' = AccessToken result
        /\ refreshToken s' = RefreshToken_ result
        /\ shopID s' = shopID s
        /\ tokenExpiry s' = now w + wrap64 (ExpiresIn result * Second)
        /\ (- 9223372036 <= ExpiresIn result <= 9223372036 ->
            tokenExpiry s' = now w + ExpiresIn result * Second))
  /\ (tokenRefresher c = None \/ refreshToken s = "" ->
      fst out <> None /\ snd out = w).
Proof.
  cbn zeta. unfold tryRefreshToken.
  destruct (tokenRefresher c) as [refresher|].
  2: { repeat split; try discriminate; intros; discriminate. }
  destruct (String.eqb_spec (refreshToken (st w)) "") as [Hempty|Hne].
  { repeat split; try discriminate; intros; discriminate. }
  destruct (refresher (trace (st w)) (refreshToken (st w)) (shopID (st w)))
    as [result|err] eqn:Hcall; cbn [fst snd st set_st emit].
  - split; [intros err [=]|]. split.
    + intros _. exists refresher, result. repeat split; try assumption.
      intros Hrange. rewrite wrap64_small; [reflexivity|].
      unfold MinInt64, MaxInt64, Second. lia.
    + intros [[=]|Hrt]; contradiction.
  - split; [intros ? _; repeat split|]. split; [discriminate|].
    intros [[=]|Hrt]; contradiction.
Qed.

(** An error [doRequest] builds itself (not an [APIError]) never triggers
    the refresh. *)
Lemma doRequest_plain_not_triggering c ctx req wantResult w msg :
  fst (doRequest c ctx req wantResult w) = Some (ErrPlain msg) ->
  refreshTriggered (ErrPlain msg) = false.
Proof.
  unfold doRequest.
  repeat match goal with
         | |- context [match ?x with _ => _ end] => destruct x
         | |- context [if ?x then _ else _] => destruct x
         end; cbn [fst]; intros [= <-]; try apply plain_errors_not_triggering.
Qed.

(** X24. [Do] makes a single attempt when the request succeeds, and also
    when it fails with an error that is not an [APIError] (the request could
    not be built, the transport failed, the body could not be read or
    decoded): it returns that outcome and the state the one request left,
    without retry and without refresh. *)
Theorem Do_single_attempt c ctx req wantResult w err w1 :
  doRequest c ctx req wantResult w = (err, w1) ->
  err = None \/ (exists msg, err = Some (ErrPlain msg)) ->
  1 <= maxAttempts (retryPolicy c) ->
  Do c ctx req wantResult w = (err, w1).
Proof.
  intros Hreq Herr Hmax. unfold Do, Execute.
  destruct (Z.to_nat (maxAttempts (retryPolicy c))) as [|n] eqn:Hn; [lia|].
  cbn [executeLoop]. unfold doOperation at 1. rewrite Hreq.
  destruct Herr as [->|[msg ->]]; [reflexivity|].
  assert (Htrig : refreshTriggered (ErrPlain msg) = false).
  { apply (doRequest_plain_not_triggering c ctx req wantResult w). rewrite Hreq. reflexivity. }
  rewrite Htrig. unfold ShouldRetry.
  destruct (maxAttempts (retryPolicy c) <=? 1); reflexivity.
Qed.

Lemma Do_single_attempt_witness :
  let c := testClient DefaultRetryPolicy
             (serverAlways (TransportError "connection reset by peer")) None in
  let out := Do c Background getShopInfo true world0 in
  fst out = Some (ErrPlain "request failed: connection reset by peer")
  /\ httpCalls (trace (st (snd out))) = 1%nat.
Proof.
  intros c out.
  pose (w1 := snd (doRequest c Background getShopInfo true world0)).
  assert (Hreq : doRequest c Background getShopInfo true world0
                 = (Some (ErrPlain "request failed: connection reset by peer"), w1))
    by (vm_compute; reflexivity).
  unfold out.
  rewrite (Do_single_attempt c Background getShopInfo true world0 _ w1 Hreq).
  - split; [reflexivity | vm_compute; reflexivity].
  - right. eexists; reflexivity.
  - cbn. lia.
Defined.

(** X25. HTTP errors are retried to the end: when every attempt the call
    makes is built and answered with the same status of 400 or more and no
    platform error, under a context that is never done and with
    [maxAttempts = N >= 1], [Do] makes exactly [N] HTTP calls, no refresh
    call, and returns the [error_server] error. *)
Theorem Do_retries_http_errors c ctx req wantResult w status body (N : Z) :
  (forall msg, Body req <> Some (MarshalError msg)) ->
  (forall k wk,
      attemptOfDo c ctx req wantResult w k = Some wk ->
      NewRequestErr (httpClient c) (Method req) (requestURL c req wk) = None
      /\ RoundTrip (httpClient c) (trace (st wk)) (Method req) (requestURL c req wk)
                   (requestBody req)
         = Responded status body) ->
  400 <= status ->
  match asEnvelope body with
  | Some baseResp => envError baseResp = "" \/ envError baseResp = "success"
  | None => True
  end ->
  doneAt ctx = None ->
  maxAttempts (retryPolicy c) = N -> 1 <= N ->
  fst (Do c ctx req wantResult w)
  = Some (ErrAPI (NewAPIError CodeServerError ("HTTP error: " +:+ fmt_d status) status))
  /\ Z.of_nat (httpCalls (trace (st (snd (Do c ctx req wantResult w)))))
     = Z.of_nat (httpCalls (trace (st w))) + N
  /\ refreshCalls (trace (st (snd (Do c ctx req wantResult w))))
     = refreshCalls (trace (st w)).
Proof.
  intros Hbody Hans Hstatus Henv Hctx HN Hpos.
  set (e := NewAPIError CodeServerError ("HTTP error: " +:+ fmt_d status) status).
  assert (Hfuel : exists n, Z.to_nat (maxAttempts (retryPolicy c)) = S n
                            /\ 1 + Z.of_nat n = maxAttempts (retryPolicy c)).
  { exists (Z.to_nat (N - 1)). lia. }
  destruct Hfuel as (n & Hn & Hn').
  unfold attemptOfDo in Hans. rewrite Hn in Hans.
  assert (Hop : forall k wk,
             attemptStart (retryPolicy c) ctx (doOperation c ctx req wantResult)
                          (S n) 1 w k = Some wk ->
             fst (doOperation c ctx req wantResult wk) = Some (ErrAPI e)
             /\ exists ev, isHTTP ev = true
                  /\ snd (doOperation c ctx req wantResult wk) = set_st (emit ev (st wk)) wk).
  { intros k wk Hk. destruct (Hans k wk Hk) as [Hnew Hrt].
    destruct (doRequest_responded c ctx req wantResult wk status body Hbody Hnew Hrt)
      as (Hev & Hsnd & Hres).
    assert (Hfst : fst (doRequest c ctx req wantResult wk) = Some (ErrAPI e)).
    { rewrite Hres.
      replace (400 <=? status) with true by (symmetry; apply Z.leb_le; exact Hstatus).
      destruct (asEnvelope body) as [baseResp|]; [|reflexivity].
      destruct Henv as [->| ->]; reflexivity. }
    assert (Htrig : refreshTriggered (ErrAPI e) = false) by reflexivity.
    clear Hres. unfold doOperation.
    destruct (doRequest c ctx req wantResult wk) as [err w1]; cbn [fst snd] in *.
    subst err. rewrite Htrig. cbn [fst snd]. eauto. }
  assert (Hcount : forall (f : Event -> bool) ev s,
             count f (trace (emit ev s)) = (count f (trace s) + if f ev then 1 else 0)%nat).
  { intros f ev s. cbn [emit trace]. rewrite count_app. unfold count at 2. cbn.
    destruct (f ev); reflexivity. }
  (* the HTTP calls, and the HTTP calls with the refresh calls counted twice *)
  pose proof (executeLoop_failing_attempts (retryPolicy c) ctx
                (doOperation c ctx req wantResult) e (fun s => httpCalls (trace s))
                Hctx eq_refl n 1 {| Attempts := 0; LastError := None; Duration_ := 0 |} w)
    as Hloop.
  pose proof (executeLoop_failing_attempts (retryPolicy c) ctx
                (doOperation c ctx req wantResult) e
                (fun s => (httpCalls (trace s) + 2 * refreshCalls (trace s))%nat)
                Hctx eq_refl n 1 {| Attempts := 0; LastError := None; Duration_ := 0 |} w)
    as Hloop2.
  cbn zeta in Hloop, Hloop2.
  destruct Hloop as (Hlast & Hcalls).
  { intros k wk Hk. destruct (Hop k wk Hk) as (Hf & ev & Hev & ->).
    split; [exact Hf|]. cbn [st set_st]. unfold httpCalls. rewrite Hcount, Hev. lia. }
  { exact Hn'. }
  destruct Hloop2 as (_ & Hcalls2).
  { intros k wk Hk. destruct (Hop k wk Hk) as (Hf & ev & Hev & ->).
    split; [exact Hf|]. cbn [st set_st]. unfold httpCalls, refreshCalls.
    rewrite !Hcount, Hev. destruct ev; try discriminate Hev. cbn. lia. }
  { exact Hn'. }
  split; [|split].
  - unfold Do, Execute. rewrite Hn.
    destruct (executeLoop _ _ _ _ _ _ _) as [res w'] eqn:Hex; cbn [fst snd] in *.
    cbn [LastError set_Duration]. rewrite Hlast. reflexivity.
  - rewrite Do_world, Execute_world, Hn, Hcalls. lia.
  - rewrite Do_world, Execute_world, Hn. lia.
Qed.

Lemma Do_retries_http_errors_witness :
  let c := testClient DefaultRetryPolicy
             (serverAlways (Responded 404 {| asEnvelope := None; asResult := None |})) None in
  let out := Do c Background getShopInfo true world0 in
  fst out = Some (ErrAPI (NewAPIError CodeServerError ("HTTP error: " +:+ fmt_d 404) 404))
  /\ Z.of_nat (httpCalls (trace (st (snd out)))) = Z.of_nat (httpCalls (trace (st world0))) + 3
  /\ refreshCalls (trace (st (snd out))) = refreshCalls (trace (st world0)).
Proof.
  intros c out.
  apply (Do_retries_http_errors c Background getShopInfo true world0 404
           {| asEnvelope := None; asResult := None |} 3).
  - intros msg. discriminate.
  - intros k wk _. split; reflexivity.
  - lia.
  - exact I.
  - reflexivity.
  - reflexivity.
  - lia.
Defined.

End RequestFacts.

(** ** Return statuses, log truncation, tokens *)

Section ReturnsFacts.

(** X26. [mapReturnStatus] is idempotent: mapping a status that was already
    mapped changes nothing, and a status that is not known goes through
    unchanged. *)
Theorem mapReturnStatus_idempotent (status : string) :
  Returns.mapReturnStatus (Returns.mapReturnStatus status) = Returns.mapReturnStatus status.
Proof.
  unfold Returns.mapReturnStatus at 2.
  repeat match goal with
         | |- context [String.eqb status ?k] =>
             destruct (String.eqb_spec status k) as [->|?]; [reflexivity|]
         end.
  unfold Returns.mapReturnStatus.
  repeat match goal with
         | |- context [String.eqb status ?k] =>
             destruct (String.eqb_spec status k) as [?|?]; [contradiction|]
         end.
  reflexivity.
Qed.

Lemma substring_prefix_length (n : nat) (s : string) :
  (n <= String.length s)%nat -> String.length (substring 0 n s) = n.
Proof.
  revert s; induction n as [|n IH]; intros s Hn.
  - destruct s; reflexivity.
  - destruct s as [|a s]; [cbn in Hn; lia|].
    cbn [substring String.length]. rewrite IH; [reflexivity | cbn in Hn; lia].
Qed.

(** X27. With a non-negative bound, [truncateString] returns the string
    itself when it is not longer than the bound, and otherwise its first
    [maxLen] bytes followed by three dots, so never more than [maxLen + 3]
    bytes; with a negative bound the slice expression panics. *)
Theorem truncateString_bound (s : string) (maxLen : Z) :
  (maxLen < 0 -> Returns.truncateString s maxLen = None)
  /\ (0 <= maxLen ->
      exists r, Returns.truncateString s maxLen = Some r
                /\ Z.of_nat (String.length r) <= maxLen + 3
                /\ (Z.of_nat (String.length s) <= maxLen -> r = s)
                /\ (maxLen < Z.of_nat (String.length s) ->
                    exists rest, s = substring 0 (Z.to_nat maxLen) s +:+ rest
                                 /\ r = substring 0 (Z.to_nat maxLen) s +:+ "..."
                                 /\ Z.of_nat (String.length r) = maxLen + 3)).
Proof.
  unfold Returns.truncateString. split.
  - intros Hneg.
    replace (Z.of_nat (String.length s) <=? maxLen) with false
      by (symmetry; apply Z.leb_gt; lia).
    replace (maxLen <? 0) with true by (symmetry; apply Z.ltb_lt; lia). reflexivity.
  - intros Hpos.
    destruct (Z.leb_spec (Z.of_nat (String.length s)) maxLen) as [Hshort|Hlong].
    + exists s. repeat split; [lia | lia].
    + replace (maxLen <? 0) with false by (symmetry; apply Z.ltb_ge; lia).
      eexists. split; [reflexivity|].
      assert (Hlen : String.length (substring 0 (Z.to_nat maxLen) s +:+ "...")
                     = (Z.to_nat maxLen + 3)%nat).
      { rewrite length_append, substring_prefix_length by lia. reflexivity. }
      split; [rewrite Hlen; lia|]. split; [lia|]. intros _.
      destruct (substring_split s 0 (Z.to_nat maxLen)) as (pre & post & Hpre & Hs); [lia|].
      destruct pre; [|discriminate Hpre]. rewrite append_nil_l in Hs.
      exists post. split; [exact Hs|]. split; [reflexivity | rewrite Hlen; lia].
Qed.

(** X28. A token is expired within a buffer exactly when less than the
    buffer remains until its expiry; the answer can only turn from no to yes
    as the buffer grows, so an expired token always needs a refresh; and a
    token needs a refresh exactly when less than five minutes remain. *)
Theorem Token_expiry_buffer (tnow : Z) (t : Tok.Token) (buffer buffer' : Duration) :
  Tok.IsExpiredWithBuffer tnow t buffer = (Tok.TimeUntilExpiry tnow t <? buffer)
  /\ Tok.IsExpired tnow t = Tok.IsExpiredWithBuffer tnow t 0
  /\ (buffer <= buffer' ->
      Tok.IsExpiredWithBuffer tnow t buffer = true ->
      Tok.IsExpiredWithBuffer tnow t buffer' = true)
  /\ (Tok.IsExpired tnow t = true -> Tok.NeedsRefresh tnow t = true)
  /\ (Tok.NeedsRefresh tnow t = true <-> Tok.TimeUntilExpiry tnow t < 300 * Second).
Proof.
  unfold Tok.NeedsRefresh, Tok.IsExpiredWithBuffer, Tok.IsExpired, Tok.TimeUntilExpiry,
    Tok.DefaultExpiryBuffer, Second.
  repeat split.
  - apply eq_true_iff_eq. rewrite !Z.ltb_lt. lia.
  - rewrite Z.add_0_r. reflexivity.
  - rewrite !Z.ltb_lt. lia.
  - rewrite !Z.ltb_lt. lia.
  - rewrite Z.ltb_lt. lia.
  - rewrite Z.ltb_lt. lia.
Qed.

(** X29. [NewToken] fails exactly on an empty access token; a token it
    builds is never rejected as empty by [Validate], which accepts it up to
    and including the instant of its expiry and answers [ErrTokenExpired]
    after it; [WithNewTokens] keeps the shop ID. *)
Theorem NewToken_Validate (a r : string) (e shop tnow : Z) :
  (a = "" -> Tok.NewToken a r e shop = inr Tok.ErrTokenEmpty)
  /\ (a <> "" ->
      exists t, Tok.NewToken a r e shop = inl t
                /\ Tok.accessToken t = a /\ Tok.refreshToken t = r
                /\ Tok.expiresAt t = e /\ Tok.shopID t = shop
                /\ (tnow <= e -> Tok.Validate tnow t = None)
                /\ (e < tnow -> Tok.Validate tnow t = Some ErrTokenExpired)
                /\ forall a' r' e' t',
                     Tok.WithNewTokens t a' r' e' = inl t' -> Tok.shopID t' = shop).
Proof.
  unfold Tok.NewToken. split.
  - intros ->. reflexivity.
  - intros Hne.
    replace (String.eqb a "") with false by (symmetry; apply String.eqb_neq; exact Hne).
    eexists. split; [reflexivity|]. cbn [Tok.accessToken Tok.refreshToken Tok.expiresAt
                                         Tok.shopID].
    repeat split.
    + intros He. unfold Tok.Validate, Tok.IsExpired. cbn.
      replace (String.eqb a "") with false by (symmetry; apply String.eqb_neq; exact Hne).
      replace (e <? tnow) with false by (symmetry; apply Z.ltb_ge; lia). reflexivity.
    + intros He. unfold Tok.Validate, Tok.IsExpired. cbn.
      replace (String.eqb a "") with false by (symmetry; apply String.eqb_neq; exact Hne).
      replace (e <? tnow) with true by (symmetry; apply Z.ltb_lt; lia). reflexivity.
    + intros a' r' e' t'. unfold Tok.WithNewTokens, Tok.NewToken. cbn.
      destruct (String.eqb a' ""); [discriminate|]. intros [= <-]. reflexivity.
Qed.

End ReturnsFacts.

(** ** A retry that succeeds, and more witnesses *)

Section StaleErrorFacts.
Implicit Types (c : Client) (ctx : Context) (req : Request) (w : World ClientState).

(** X30. [Do] reports a failure although the retry succeeded: when the
    first attempt fails with an error the policy retries and the second
    attempt succeeds, [Do] returns the error of the first attempt, because
    the executor keeps it as [LastError]. *)
Theorem Do_error_after_successful_retry c ctx req wantResult w e w1 w2 w3 :
  doOperation c ctx req wantResult w = (Some e, w1) ->
  ShouldRetry (retryPolicy c) (Some e) 1 = true ->
  WaitForRetry (retryPolicy c) ctx 1 w1 = (true, w2) ->
  doOperation c ctx req wantResult w2 = (None, w3) ->
  Do c ctx req wantResult w = (Some e, w3).
Proof.
  intros Hop1 Hsr Hwait Hop2. unfold Do, Execute.
  assert (Hmax : 1 < maxAttempts (retryPolicy c)).
  { unfold ShouldRetry in Hsr.
    destruct (Z.leb_spec (maxAttempts (retryPolicy c)) 1); [discriminate | lia]. }
  destruct (Z.to_nat (maxAttempts (retryPolicy c))) as [|[|n]] eqn:Hn; [lia | lia |].
  cbn [executeLoop]. rewrite Hop1, Hsr. cbn [negb].
  replace (1 <? maxAttempts (retryPolicy c)) with true
    by (symmetry; apply Z.ltb_lt; exact Hmax).
  rewrite Hwait. cbn [negb]. rewrite Hop2. reflexivity.
Qed.

Lemma Do_error_after_successful_retry_witness :
  let c := testClient (WithJitter DefaultRetryPolicy 0%Q) Samples.serverFailsOnce None in
  let out := Do c Background getShopInfo true world0 in
  fst out = Some (ErrAPI (NewAPIError CodeServerError ("HTTP error: " +:+ fmt_d 503) 503))
  /\ httpCalls (trace (st (snd out))) = 2%nat.
Proof.
  intros c out.
  pose (w1 := snd (doOperation c Background getShopInfo true world0)).
  pose (w2 := snd (WaitForRetry (retryPolicy c) Background 1 w1)).
  pose (w3 := snd (doOperation c Background getShopInfo true w2)).
  unfold out.
  rewrite (Do_error_after_successful_retry c Background getShopInfo true world0
             (ErrAPI (NewAPIError CodeServerError ("HTTP error: " +:+ fmt_d 503) 503))
             w1 w2 w3).
  - split; [reflexivity | vm_compute; reflexivity].
  - vm_compute. reflexivity.
  - vm_compute. reflexivity.
  - vm_compute. reflexivity.
  - vm_compute. reflexivity.
Defined.

Lemma mapEventType_inj_witness : 12 = 12.
Proof.
  apply (mapEventType_inj 12 12). reflexivity.
Defined.

Lemma tryRefreshToken_credentials_witness :
  let c := testClient DefaultRetryPolicy (serverAlways (Responded 200 okBody))
             (Some Samples.refresherGrantsOnce) in
  let s' := st (snd (tryRefreshToken c Background world0)) in
  accessToken s' = "at9" /\ refreshToken s' = "rt9" /\ shopID s' = 42
  /\ tokenExpiry s' = now world0 + 14400 * Second.
Proof.
  intros c s'.
  destruct (tryRefreshToken_credentials c Background world0) as (_ & Hok & _).
  destruct (Hok eq_refl)
    as (refresher & result & Href & _ & Hcall & _ & Ha & Hr & Hs & _ & He).
  injection Href as <-. injection Hcall as <-.
  split; [exact Ha|]. split; [exact Hr|]. split; [exact Hs|].
  apply He. cbn. lia.
Defined.

Lemma truncateString_bound_witness :
  exists r, Returns.truncateString "abcdefgh" 5 = Some r
            /\ Z.of_nat (String.length r) <= 5 + 3.
Proof.
  destruct (truncateString_bound "abcdefgh" 5) as [_ H].
  destruct (H ltac:(lia)) as (r & Hr & Hlen & _).
  exists r. split; assumption.
Defined.

Lemma Token_expiry_buffer_witness :
  let t := {| Tok.accessToken := "at"; Tok.refreshToken := "rt";
              Tok.expiresAt := 1000 * Second; Tok.shopID := 42 |} in
  Tok.NeedsRefresh (800 * Second) t = true.
Proof.
  intros t.
  destruct (Token_expiry_buffer (800 * Second) t 0 0) as (_ & _ & _ & _ & Hneeds).
  apply Hneeds. vm_compute. reflexivity.
Defined.

Lemma NewToken_Validate_witness :
  exists t, Tok.NewToken "at" "rt" 1000 42 = inl t /\ Tok.Validate 1000 t = None.
Proof.
  destruct (NewToken_Validate "at" "rt" 1000 42 1000) as [_ H].
  destruct (H ltac:(discriminate)) as (t & Hnew & _ & _ & _ & _ & Hvalid & _).
  exists t. split; [exact Hnew | apply Hvalid; lia].
Defined.

End StaleErrorFacts.
